(** * Airline reservation back end: route search, itinerary resolution,
      booking and cancellation

    A shallow embedding of [backend.py]: the airport trie, the route graph
    with its breadth-first and bounded-cheapest searches, the itinerary
    resolver, and the booking and cancellation transactions, followed by the
    properties established about them. *)

From stdpp Require Import gmap strings list fin_maps sorting.
From Stdlib Require Import ZArith Ascii Sorted.
From Stdlib Require String.

Local Open Scope Z_scope.

(* ===================================================================== *)
(** * Part I: the program                                                 *)
(* ===================================================================== *)

(* --------------------------------------------------------------------- *)
(** ** Airport trie *)

(** A Python [dict] keyed by characters.  Iteration over [values()] follows
    insertion order, so the dictionary is an association list; assigning to
    an existing key keeps its position, assigning to a new key appends. *)
Fixpoint dict_get {V : Type} (c : ascii) (d : list (ascii * V)) : option V :=
  match d with
  | [] => None
  | (c', v) :: d' => if decide (c' = c) then Some v else dict_get c d'
  end.

Fixpoint dict_set {V : Type} (c : ascii) (v : V) (d : list (ascii * V))
  : list (ascii * V) :=
  match d with
  | [] => [(c, v)]
  | (c', v') :: d' =>
      if decide (c' = c) then (c', v) :: d' else (c', v') :: dict_set c v d'
  end.

(** [class TrieNode]: [children], [is_end_of_word], [word]. *)
#[local] Unset Elimination Schemes.
Inductive TrieNode : Type :=
  mkTrieNode (children : list (ascii * TrieNode))
             (is_end_of_word : bool)
             (word : option string).
#[local] Set Elimination Schemes.

Definition children (n : TrieNode) : list (ascii * TrieNode) :=
  match n with mkTrieNode cs _ _ => cs end.

Definition is_end_of_word (n : TrieNode) : bool :=
  match n with mkTrieNode _ e _ => e end.

Definition word (n : TrieNode) : option string :=
  match n with mkTrieNode _ _ w => w end.

(** [TrieNode()] *)
Definition new_node : TrieNode := mkTrieNode [] false None.

(** [class Trie] holds the root. *)
Record Trie : Type := mkTrie { root : TrieNode }.

(** The loop of [Trie.insert], from the node reached so far: [rest] is what
    remains of the word, [w] the whole word stored at the end. *)
Fixpoint insert_from (node : TrieNode) (rest : string) (w : string) : TrieNode :=
  match rest with
  | EmptyString => mkTrieNode (children node) true (Some w)
  | String char rest' =>
      let child := default new_node (dict_get char (children node)) in
      mkTrieNode (dict_set char (insert_from child rest' w) (children node))
                 (is_end_of_word node) (word node)
  end.

Definition insert (t : Trie) (w : string) : Trie :=
  mkTrie (insert_from (root t) w w).

(** [Trie._collect_all_words]: appends to the running list [suggestions]. *)
Fixpoint collect_all_words (node : TrieNode) (suggestions : list (option string))
  : list (option string) :=
  match node with
  | mkTrieNode cs e w =>
      fold_left (fun acc child => collect_all_words child.2 acc) cs
                (if e then suggestions ++ [w] else suggestions)
  end.

(** The first loop of [Trie.get_suggestions]: follow the prefix down. *)
Fixpoint descend (node : TrieNode) (prefix : string) : option TrieNode :=
  match prefix with
  | EmptyString => Some node
  | String char prefix' =>
      match dict_get char (children node) with
      | None => None
      | Some child => descend child prefix'
      end
  end.

Definition get_suggestions (t : Trie) (prefix : string) : list (option string) :=
  match descend (root t) prefix with
  | None => []
  | Some node => collect_all_words node []
  end.

Definition build_airport_trie (airports : list string) : Trie :=
  fold_left insert airports (mkTrie new_node).

(* --------------------------------------------------------------------- *)
(** ** Route graph and breadth-first search *)

(** One iteration of the loop of [build_graph]. *)
Definition add_route (graph : gmap string (list string)) (r : string * string)
  : gmap string (list string) :=
  let graph1 :=
    match graph !! r.1 with
    | None => <[r.1 := []]> graph
    | Some _ => graph
    end in
  alter (fun dests => dests ++ [r.2]) r.1 graph1.

Definition build_graph (routes : list (string * string))
  : gmap string (list string) :=
  fold_left add_route routes ∅.

(** [graph.get(node, [])] *)
Definition neighbors (graph : gmap string (list string)) (node : string)
  : list string :=
  default [] (graph !! node).

(** Body of the [for neighbor in ...] loop of [bfs_shortest_path], on the
    pair (queue, visited). *)
Definition bfs_visit (path : list string)
    (st : list (list string) * gset string) (neighbor : string)
  : list (list string) * gset string :=
  if decide (neighbor ∈ st.2) then st
  else (st.1 ++ [path ++ [neighbor]], {[neighbor]} ∪ st.2).

(** The [while queue] loop.  The outer [None] stands for "no result": the
    iteration budget ran out, or [path[-1]] was applied to an empty path. *)
Fixpoint bfs_loop (fuel : nat) (graph : gmap string (list string))
    (destination : string) (queue : list (list string)) (visited : gset string)
  : option (option (list string)) :=
  match fuel with
  | O => None
  | S fuel' =>
      match queue with
      | [] => Some None
      | path :: queue' =>
          match last path with
          | None => None
          | Some node =>
              if decide (node = destination) then Some (Some path)
              else
                let st := fold_left (bfs_visit path) (neighbors graph node)
                                    (queue', visited) in
                bfs_loop fuel' graph destination st.1 st.2
          end
      end
  end.

(** Every airport code occurring in the graph, as a key or as a neighbour. *)
Definition graph_nodes (graph : gmap string (list string)) : gset string :=
  list_to_set (map_to_list graph ≫= (fun kv => kv.1 :: kv.2)).

(** [bfs_shortest_path]; the loop runs at most once per airport of the graph,
    which is the budget given to [bfs_loop]. *)
Definition bfs_shortest_path (graph : gmap string (list string))
    (origin destination : string) : option (option (list string)) :=
  if bool_decide (graph !! origin = None) || bool_decide (graph !! destination = None)
  then Some None
  else bfs_loop (S (size (graph_nodes graph))) graph destination
                [[origin]] {[origin]}.

(* --------------------------------------------------------------------- *)
(** ** Depth-first search *)

(** Body of the [for neighbor in reversed(...)] loop of [dfs_find_a_path].
    The Python list used as a stack is kept with its top (its last element)
    at the head, so [stack.append] is a cons; [visited] does not change
    inside the loop. *)
Definition dfs_push (path : list string) (visited : gset string)
    (stack : list (string * list string)) (neighbor : string)
  : list (string * list string) :=
  if decide (neighbor ∈ visited) then stack
  else (neighbor, path ++ [neighbor]) :: stack.

(** The [while stack] loop; the outer [None] is an exhausted iteration
    budget. *)
Fixpoint dfs_path_loop (fuel : nat) (graph : gmap string (list string))
    (destination : string) (stack : list (string * list string))
    (visited : gset string) : option (option (list string)) :=
  match fuel with
  | O => None
  | S fuel' =>
      match stack with
      | [] => Some None
      | (current, path) :: stack' =>
          if decide (current = destination) then Some (Some path)
          else
            let visited' := {[current]} ∪ visited in
            dfs_path_loop fuel' graph destination
              (fold_left (dfs_push path visited')
                         (rev (neighbors graph current)) stack')
              visited'
      end
  end.

(** The number of entries of all adjacency lists together. *)
Definition edge_count (graph : gmap string (list string)) : nat :=
  sum_list (map (fun kv => length kv.2) (map_to_list graph)).

(** [dfs_find_a_path]; every iteration pops one entry and an airport pushes
    its neighbours only the first time it is popped, so the loop runs at
    most once per adjacency entry, plus once for the origin. *)
Definition dfs_find_a_path (graph : gmap string (list string))
    (origin destination : string) : option (option (list string)) :=
  if bool_decide (graph !! origin = None) || bool_decide (graph !! destination = None)
  then Some None
  else dfs_path_loop (S (S (edge_count graph))) graph destination
                     [(origin, [origin])] ∅.

(* --------------------------------------------------------------------- *)
(** ** The datastore *)

(** Modelled from the spec: the table declarations are not part of the
    sources (only the SQL statements that use them are).  The rows carry the
    columns those statements read or write.  A row of [flights]; [price] is
    an exact amount, kept as an integer number of the smallest currency
    unit, and [available_seats] is a signed integer column. *)
Record Flight : Type := mkFlight {
  flight_id : Z;
  origin : string;
  destination : string;
  price : Z;
  available_seats : Z
}.

(** Modelled from the spec: a row of [users]; [email] is the unique key that
    [ON DUPLICATE KEY UPDATE] reacts to. *)
Record User : Type := mkUser {
  user_id : Z;
  first_name : string;
  last_name : string;
  email : string
}.

Inductive Status : Type := CONFIRMED | CANCELLED.

(** Modelled from the spec: a row of [bookings]. *)
Record Booking : Type := mkBooking {
  booking_id : Z;
  booking_user_id : Z;
  total_price : Z;
  status : Status;
  travel_purpose : option string
}.

(** Modelled from the spec: a row of [passengers]. *)
Record Passenger : Type := mkPassenger {
  passenger_booking_id : Z;
  passenger_first_name : string;
  passenger_last_name : string;
  age : Z
}.

(** Modelled from the spec: a row of [booking_flights]. *)
Record BookingFlight : Type := mkBookingFlight {
  leg_booking_id : Z;
  leg_flight_id : Z;
  num_passengers : Z
}.

Record Tables : Type := mkTables {
  flights : list Flight;
  users : list User;
  bookings : list Booking;
  passengers : list Passenger;
  booking_flights : list BookingFlight
}.

(** Modelled from the spec: the server keeps the committed tables and the
    AUTO_INCREMENT counters of [users] and [bookings] (the statements read
    [cursor.lastrowid] after their INSERTs).  The counters are not
    transactional: a rolled back INSERT still consumes its number. *)
Record Server : Type := mkServer {
  committed : Tables;
  next_user_id : Z;
  next_booking_id : Z
}.

(** How the datastore behaves during one call: whether
    [get_db_connection()] yields a connection, and, if some statement raises
    [mysql.connector.Error], the number of that statement (counted from 0 in
    execution order) with the text of the error. *)
Record Env : Type := mkEnv {
  connects : bool;
  fails_at : option (nat * string)
}.

Definition healthy : Env := mkEnv true None.

(** A connection with an open cursor: the tables as committed, the tables as
    this transaction sees them, the counters, the number of statements
    executed so far and the flight rows requested [FOR UPDATE], in order. *)
Record Session : Type := mkSession {
  durable : Tables;
  work : Tables;
  auto_user : Z;
  auto_booking : Z;
  executed : nat;
  locked : list Z
}.

Inductive Outcome (A : Type) : Type :=
  | Done (a : A)
  | DbError (err : string).
Arguments Done {A} a.
Arguments DbError {A} err.

(** Statements run against a session and either complete or raise. *)
Definition Tx (A : Type) : Type := Session → Outcome A * Session.

Definition tx_ret {A : Type} (a : A) : Tx A := fun s => (Done a, s).

Definition tx_bind {A B : Type} (m : Tx A) (k : A → Tx B) : Tx B :=
  fun s =>
    match m s with
    | (Done a, s') => k a s'
    | (DbError err, s') => (DbError err, s')
    end.

Notation "'do' x <- m ; k" := (tx_bind m (fun x => k))
  (at level 10, x name, m at level 100, k at level 200).
Notation "m ;; k" := (tx_bind m (fun _ => k))
  (at level 100, k at level 200, right associativity).

(** Every round trip to the server is a point where it may raise. *)
Definition statement (env : Env) : Tx unit :=
  fun s =>
    let s' := mkSession (durable s) (work s) (auto_user s) (auto_booking s)
                        (S (executed s)) (locked s) in
    match fails_at env with
    | Some (k, err) =>
        if (executed s =? k)%nat then (DbError err, s) else (Done tt, s')
    | None => (Done tt, s')
    end.

Definition on_work (f : Tables → Tables) : Tx unit :=
  fun s => (Done tt, mkSession (durable s) (f (work s)) (auto_user s)
                               (auto_booking s) (executed s) (locked s)).

Definition read_work {A : Type} (f : Tables → A) : Tx A :=
  fun s => (Done (f (work s)), s).

(** [conn.commit()], [conn.rollback()] and the closing of the connection,
    which drops whatever was not committed. *)
Definition commit (env : Env) : Tx unit :=
  statement env ;;
  fun s => (Done tt, mkSession (work s) (work s) (auto_user s) (auto_booking s)
                               (executed s) (locked s)).

Definition rollback (s : Session) : Session :=
  mkSession (durable s) (durable s) (auto_user s) (auto_booking s)
            (executed s) (locked s).

Definition open_session (srv : Server) : Session :=
  mkSession (committed srv) (committed srv) (next_user_id srv)
            (next_booking_id srv) 0 [].

Definition close_session (s : Session) : Server :=
  mkServer (durable s) (auto_user s) (auto_booking s).

(** *** The SQL statements of the booking code *)

Definition set_seats (f : Flight) (n : Z) : Flight :=
  mkFlight (flight_id f) (origin f) (destination f) (price f) n.

(** [SELECT available_seats FROM flights WHERE flight_id=%s] with
    [fetchone()]. *)
Definition seats_of (fid : Z) (t : Tables) : option Z :=
  available_seats <$> List.find (fun f => flight_id f =? fid) (flights t).

(** [UPDATE flights SET available_seats=available_seats+delta WHERE
    flight_id=%s] *)
Definition add_seats (delta fid : Z) (t : Tables) : Tables :=
  mkTables
    (map (fun f => if flight_id f =? fid
                   then set_seats f (available_seats f + delta) else f)
         (flights t))
    (users t) (bookings t) (passengers t) (booking_flights t).

(** [SELECT ... FOR UPDATE]: the row is requested for locking, then read. *)
Definition select_for_update (env : Env) (fid : Z) : Tx (option Z) :=
  statement env ;;
  fun s => (Done (seats_of fid (work s)),
            mkSession (durable s) (work s) (auto_user s) (auto_booking s)
                      (executed s) (locked s ++ [fid])).

(** [INSERT INTO users ... ON DUPLICATE KEY UPDATE
    user_id=LAST_INSERT_ID(user_id), first_name=VALUES(first_name)];
    the result is [cursor.lastrowid]. *)
Definition upsert_user (env : Env) (fn ln em : string) : Tx Z :=
  statement env ;;
  fun s =>
    let t := work s in
    match List.find (fun u => bool_decide (email u = em)) (users t) with
    | Some u0 =>
        let us := map (fun u => if bool_decide (email u = em)
                                then mkUser (user_id u) fn (last_name u) (email u)
                                else u) (users t) in
        (Done (user_id u0),
         mkSession (durable s)
                   (mkTables (flights t) us (bookings t) (passengers t)
                             (booking_flights t))
                   (auto_user s) (auto_booking s) (executed s) (locked s))
    | None =>
        let us := users t ++ [mkUser (auto_user s) fn ln em] in
        (Done (auto_user s),
         mkSession (durable s)
                   (mkTables (flights t) us (bookings t) (passengers t)
                             (booking_flights t))
                   (auto_user s + 1) (auto_booking s) (executed s) (locked s))
    end.

(** [INSERT INTO bookings (user_id,total_price,status,travel_purpose)
    VALUES (%s,%s,'CONFIRMED',%s)]; the result is [cursor.lastrowid]. *)
Definition insert_booking (env : Env) (uid total : Z) (purpose : option string)
  : Tx Z :=
  statement env ;;
  fun s =>
    let t := work s in
    (Done (auto_booking s),
     mkSession (durable s)
               (mkTables (flights t) (users t)
                         (bookings t ++ [mkBooking (auto_booking s) uid total
                                                   CONFIRMED purpose])
                         (passengers t) (booking_flights t))
               (auto_user s) (auto_booking s + 1) (executed s) (locked s)).

Definition insert_passengers (env : Env) (rows : list Passenger) : Tx unit :=
  statement env ;;
  on_work (fun t => mkTables (flights t) (users t) (bookings t)
                             (passengers t ++ rows) (booking_flights t)).

Definition insert_booking_flight (env : Env) (row : BookingFlight) : Tx unit :=
  statement env ;;
  on_work (fun t => mkTables (flights t) (users t) (bookings t) (passengers t)
                             (booking_flights t ++ [row])).

(** [SELECT flight_id,num_passengers FROM booking_flights WHERE
    booking_id=%s] with [fetchall()]. *)
Definition select_legs (env : Env) (bid : Z) : Tx (list (Z * Z)) :=
  statement env ;;
  read_work (fun t =>
    map (fun r => (leg_flight_id r, num_passengers r))
        (filter (fun r => leg_booking_id r = bid) (booking_flights t))).

(** [UPDATE bookings SET status='CANCELLED' WHERE booking_id=%s] *)
Definition mark_cancelled (env : Env) (bid : Z) : Tx unit :=
  statement env ;;
  on_work (fun t =>
    mkTables (flights t) (users t)
             (map (fun b => if booking_id b =? bid
                            then mkBooking (booking_id b) (booking_user_id b)
                                           (total_price b) CANCELLED
                                           (travel_purpose b)
                            else b) (bookings t))
             (passengers t) (booking_flights t)).

(* --------------------------------------------------------------------- *)
(** ** Itinerary resolver *)

(** The pairs [(route[i], route[i+1])] for [i in range(len(route) - 1)]. *)
Fixpoint route_pairs (route : list string) : list (string * string) :=
  match route with
  | a :: rest =>
      match rest with
      | b :: _ => (a, b) :: route_pairs rest
      | [] => []
      end
  | [] => []
  end.

Definition is_leg (a b : string) (f : Flight) : bool :=
  bool_decide (origin f = a) && bool_decide (destination f = b).

(** [SELECT * FROM flights WHERE (origin=%s AND destination=%s) OR ...];
    the rows come in table order, and the server compares airport codes the
    way the data frame filter does, by equality. *)
Definition read_legs (pairs : list (string * string)) (t : Tables) : list Flight :=
  List.filter (fun f => existsb (fun p => is_leg p.1 p.2 f) pairs) (flights t).

(** The second loop of [get_flight_details_for_route], with its [break]. *)
Fixpoint resolve_loop (df : list Flight) (pairs : list (string * string))
    (ordered : list Flight) (total : Z) : list Flight * Z * bool :=
  match pairs with
  | [] => (ordered, total, true)
  | (a, b) :: pairs' =>
      match List.filter (is_leg a b) df with
      | [] => (ordered, total, false)
      | leg :: _ =>
          if available_seats leg =? 0 then (ordered, total, false)
          else resolve_loop df pairs' (ordered ++ [leg]) (total + price leg)
      end
  end.

(** [get_flight_details_for_route(route)]; [route] may be [None].  The
    query is taken to be answered whenever the connection is there. *)
Definition get_flight_details_for_route (env : Env) (srv : Server)
    (route : option (list string)) : list Flight * Z * bool :=
  match route with
  | None => ([], 0, true)
  | Some route =>
      if bool_decide (route = []) || (length route <? 2)%nat then ([], 0, true)
      else if negb (connects env) then ([], 0, false)
      else
        let df := read_legs (route_pairs route) (committed srv) in
        if (length df <? length route - 1)%nat then ([], 0, false)
        else resolve_loop df (route_pairs route) [] 0
  end.

(* --------------------------------------------------------------------- *)
(** ** Reads made at start-up and by the search page *)

(** [fetch_all_airports_from_db]: [SELECT DISTINCT origin FROM flights UNION
    SELECT DISTINCT destination FROM flights], a single column whose values
    are then made unique.  SQL fixes no order for the rows; the one below is
    one the server may give. *)
Definition fetch_all_airports_from_db (env : Env) (srv : Server) : list string :=
  if connects env
  then remove_dups (map origin (flights (committed srv))
                    ++ map destination (flights (committed srv)))
  else [].

(** [fetch_all_routes_from_db]: [SELECT DISTINCT origin, destination FROM
    flights WHERE available_seats > 0]; the same remark on order applies. *)
Definition fetch_all_routes_from_db (env : Env) (srv : Server)
  : list (string * string) :=
  if connects env
  then remove_dups
         (map (fun f => (origin f, destination f))
              (List.filter (fun f => 0 <? available_seats f)
                           (flights (committed srv))))
  else [].

(** [get_direct_flights_from_db]: [SELECT * FROM flights WHERE origin = %s
    AND destination = %s AND available_seats > 0]; an empty frame without a
    connection. *)
Definition get_direct_flights_from_db (env : Env) (srv : Server)
    (orig dest : string) : list Flight :=
  if connects env
  then List.filter (fun f => is_leg orig dest f && (0 <? available_seats f))
                   (flights (committed srv))
  else [].

(** [load_data] of [app.py]: the graph and the trie the pages work with. *)
Definition load_data (env : Env) (srv : Server)
  : gmap string (list string) * Trie :=
  (build_graph (fetch_all_routes_from_db env srv),
   build_airport_trie (fetch_all_airports_from_db env srv)).

(* --------------------------------------------------------------------- *)
(** ** Bounded cheapest route *)

(** A price or [float('inf')]. *)
Inductive ExtPrice : Type := Finite (p : Z) | Infinity.

(** The dictionary [best]. *)
Record Best : Type := mkBest {
  best_route : option (list string);
  best_price : ExtPrice
}.

(** [total < best['price']] *)
Definition below (total : Z) (p : ExtPrice) : bool :=
  match p with
  | Finite q => total <? q
  | Infinity => true
  end.

(** The nested function [dfs] of [find_cheapest_route], threading [best].
    [None] stands for an exhausted recursion budget. *)
Fixpoint dfs (fuel : nat) (env : Env) (srv : Server)
    (graph : gmap string (list string)) (destination : string) (max_stops : Z)
    (node : string) (path : list string) (best : Best) : option Best :=
  match fuel with
  | O => None
  | S fuel' =>
      if Z.of_nat (length path) - 1 >? max_stops then Some best
      else if decide (node = destination) then
        let '(_, total, ok) := get_flight_details_for_route env srv (Some path) in
        if ok && below total (best_price best)
        then Some (mkBest (Some path) (Finite total))
        else Some best
      else
        fold_left
          (fun acc nb =>
             match acc with
             | None => None
             | Some b =>
                 if decide (nb ∈ path) then Some b
                 else dfs fuel' env srv graph destination max_stops
                          nb (path ++ [nb]) b
             end)
          (neighbors graph node) (Some best)
  end.

(** [find_cheapest_route(graph, origin, destination, max_stops)].  A call of
    [dfs] at depth [k] holds a path of [k] edges and returns at once when
    [k > max_stops], so [max_stops + 2] levels are all that can be entered. *)
Definition find_cheapest_route (env : Env) (srv : Server)
    (graph : gmap string (list string)) (origin destination : string)
    (max_stops : Z) : option (option (list string) * ExtPrice) :=
  if bool_decide (graph !! origin = None) || bool_decide (graph !! destination = None)
  then Some (None, Finite 0)
  else
    match dfs (Z.to_nat max_stops + 2) env srv graph destination max_stops
              origin [origin] (mkBest None Infinity) with
    | None => None
    | Some best =>
        match best_route best with
        | Some (v :: r) => Some (Some (v :: r), best_price best)
        | _ => Some (None, Finite 0)
        end
    end.

Definition default_max_stops : Z := 3.

(* --------------------------------------------------------------------- *)
(** ** Booking and cancellation *)

(** The argument [user_details] and one element of [passenger_list]. *)
Record UserDetails : Type := mkUserDetails {
  details_first_name : string;
  details_last_name : string;
  details_email : string;
  details_travel_purpose : option string
}.

Record PassengerDetails : Type := mkPassengerDetails {
  pax_first_name : string;
  pax_last_name : string;
  pax_age : Z
}.

(** First loop of [save_booking]: lock and check each leg, stopping at the
    first one that is missing or too full. *)
Fixpoint verify_seats (env : Env) (num_pax : Z) (flight_ids : list Z) : Tx bool :=
  match flight_ids with
  | [] => tx_ret true
  | fid :: rest =>
      do r <- select_for_update env fid;
      match r with
      | None => tx_ret false
      | Some seats =>
          if seats <? num_pax then tx_ret false
          else verify_seats env num_pax rest
      end
  end.

(** Second loop: take the seats. *)
Fixpoint deduct_seats (env : Env) (num_pax : Z) (flight_ids : list Z) : Tx unit :=
  match flight_ids with
  | [] => tx_ret tt
  | fid :: rest =>
      statement env ;; on_work (add_seats (- num_pax) fid) ;;
      deduct_seats env num_pax rest
  end.

(** Third loop: one association row per leg. *)
Fixpoint link_flights (env : Env) (bid num_pax : Z) (flight_ids : list Z) : Tx unit :=
  match flight_ids with
  | [] => tx_ret tt
  | fid :: rest =>
      insert_booking_flight env (mkBookingFlight bid fid num_pax) ;;
      link_flights env bid num_pax rest
  end.

(** The [try] block of [save_booking]; [None] is the early
    "Not enough seats" return, reached after its own [conn.rollback()]. *)
Definition save_booking_try (env : Env) (user_details : UserDetails)
    (passenger_list : list PassengerDetails) (flight_ids : list Z)
    (total_price : Z) : Tx (option Z) :=
  let num_pax := Z.of_nat (length passenger_list) in
  statement env ;;
  do ok <- verify_seats env num_pax flight_ids;
  if ok then
    deduct_seats env num_pax flight_ids ;;
    do uid <- upsert_user env (details_first_name user_details)
                (details_last_name user_details) (details_email user_details);
    do user_id <- (if uid =? 0 then (fun s => (DbError "No result set to fetch from.", s))
                   else tx_ret uid);
    do booking_id <- insert_booking env user_id total_price
                       (details_travel_purpose user_details);
    insert_passengers env
      (map (fun p => mkPassenger booking_id (pax_first_name p)
                                 (pax_last_name p) (pax_age p))
           passenger_list) ;;
    link_flights env booking_id num_pax flight_ids ;;
    commit env ;;
    tx_ret (Some booking_id)
  else
    statement env ;;
    (fun s => (Done None, rollback s)).

(** The session [save_booking] ends with, before the connection is closed;
    [None] when no connection could be made. *)
Definition save_booking_run (env : Env) (srv : Server) (user_details : UserDetails)
    (passenger_list : list PassengerDetails) (flight_ids : list Z)
    (total_price : Z) : option (Outcome (option Z) * Session) :=
  if connects env
  then Some (save_booking_try env user_details passenger_list flight_ids
                              total_price (open_session srv))
  else None.

(** [save_booking]: the pair it returns, and the server afterwards. *)
Definition save_booking (env : Env) (srv : Server) (user_details : UserDetails)
    (passenger_list : list PassengerDetails) (flight_ids : list Z)
    (total_price : Z) : (option Z * string) * Server :=
  match save_booking_run env srv user_details passenger_list flight_ids
                         total_price with
  | None => ((None, "DB failed"), srv)
  | Some (Done (Some booking_id), s) =>
      ((Some booking_id, "Booking successful!"), close_session s)
  | Some (Done None, s) => ((None, "Not enough seats"), close_session s)
  | Some (DbError err, s) =>
      ((None, String.append "DB Error: " err), close_session (rollback s))
  end.

(** The flight rows [save_booking] asked to lock, in the order it asked. *)
Definition save_booking_locks (env : Env) (srv : Server) (user_details : UserDetails)
    (passenger_list : list PassengerDetails) (flight_ids : list Z)
    (total_price : Z) : list Z :=
  match save_booking_run env srv user_details passenger_list flight_ids
                         total_price with
  | None => []
  | Some (_, s) => locked s
  end.

(** The loop of [cancel_booking_in_db] over the fetched rows. *)
Fixpoint restore_seats (env : Env) (rows : list (Z * Z)) : Tx unit :=
  match rows with
  | [] => tx_ret tt
  | (fid, n) :: rest =>
      statement env ;; on_work (add_seats n fid) ;;
      restore_seats env rest
  end.

Definition cancel_booking_try (env : Env) (booking_id : Z) : Tx unit :=
  statement env ;;
  do rows <- select_legs env booking_id;
  restore_seats env rows ;;
  mark_cancelled env booking_id ;;
  commit env.

(** [cancel_booking_in_db]: its result, the server and the module level
    [booking_cache] afterwards. *)
Definition cancel_booking_in_db {V : Type} (env : Env) (srv : Server)
    (booking_cache : gmap string V) (booking_id : Z) (user_email : string)
  : bool * Server * gmap string V :=
  if connects env then
    match cancel_booking_try env booking_id (open_session srv) with
    | (Done _, s) => (true, close_session s, delete user_email booking_cache)
    | (DbError _, s) => (false, close_session (rollback s), booking_cache)
    end
  else (false, srv, booking_cache).

(* --------------------------------------------------------------------- *)
(** ** The bookings of a user and their cache *)

Section user_bookings.

(** Modelled from the spec: the column [booking_date] of [bookings], which
    the server fills in; the type of its values plays no role here. *)
Context {Date : Type} (booking_date : Booking → Date).

(** The dictionary under ['booking_info']. *)
Record BookingInfo : Type := mkBookingInfo {
  info_booking_id : Z;
  info_booking_date : Date;
  info_total_price : Z;
  info_status : Status
}.

(** One dictionary of the list under ['passengers']. *)
Record PassengerInfo : Type := mkPassengerInfo {
  info_first_name : string;
  info_last_name : string;
  info_age : Z
}.

(** One value of [book]. *)
Record Entry : Type := mkEntry {
  booking_info : BookingInfo;
  entry_passengers : list PassengerInfo
}.

(** The dictionary [book], keyed by booking id, in insertion order. *)
Fixpoint book_get (bid : Z) (book : list (Z * Entry)) : option Entry :=
  match book with
  | [] => None
  | (k, e) :: book' => if decide (k = bid) then Some e else book_get bid book'
  end.

Fixpoint book_set (bid : Z) (e : Entry) (book : list (Z * Entry))
  : list (Z * Entry) :=
  match book with
  | [] => [(bid, e)]
  | (k, e') :: book' =>
      if decide (k = bid) then (k, e) :: book' else (k, e') :: book_set bid e book'
  end.

(** The rows of the query: [bookings] joined with [users] on the user id and
    with [passengers] on the booking id, for the given email, ordered by
    booking id.  SQL fixes no order among the rows of one booking. *)
Definition row_le (r1 r2 : Booking * Passenger) : Prop :=
  booking_id r1.1 ≤ booking_id r2.1.

#[local] Instance row_le_dec r1 r2 : Decision (row_le r1 r2).
Proof. unfold row_le. apply _. Defined.

Definition user_booking_rows (t : Tables) (mail : string)
  : list (Booking * Passenger) :=
  merge_sort row_le
    (flat_map (fun b =>
       flat_map (fun u =>
         map (fun p => (b, p))
             (List.filter (fun p => passenger_booking_id p =? booking_id b)
                          (passengers t)))
         (List.filter (fun u => (user_id u =? booking_user_id b)
                                && bool_decide (email u = mail))
                      (users t)))
       (bookings t)).

Definition info_of (b : Booking) : BookingInfo :=
  mkBookingInfo (booking_id b) (booking_date b) (total_price b) (status b).

Definition passenger_info (p : Passenger) : PassengerInfo :=
  mkPassengerInfo (passenger_first_name p) (passenger_last_name p) (age p).

(** One iteration of the loop over [df.iterrows()]. *)
Definition group_step (book : list (Z * Entry)) (row : Booking * Passenger)
  : list (Z * Entry) :=
  let bid := booking_id row.1 in
  let book1 :=
    match book_get bid book with
    | None => book_set bid (mkEntry (info_of row.1) []) book
    | Some _ => book
    end in
  match book_get bid book1 with
  | Some e =>
      book_set bid
        (mkEntry (booking_info e) (entry_passengers e ++ [passenger_info row.2]))
        book1
  | None => book1
  end.

(** [list(book.values())] after the loop. *)
Definition group_rows (rows : list (Booking * Passenger)) : list Entry :=
  map snd (fold_left group_step rows []).

(** [get_user_bookings_from_db]; the module-level [booking_cache] is passed
    in and returned. *)
Definition get_user_bookings_from_db (env : Env) (srv : Server)
    (booking_cache : gmap string (list Entry)) (mail : string)
  : (list Entry * string) * gmap string (list Entry) :=
  match booking_cache !! mail with
  | Some cached => ((cached, "Cache"%string), booking_cache)
  | None =>
      if connects env then
        let df := user_booking_rows (committed srv) mail in
        if bool_decide (df = []) then (([], "None"%string), booking_cache)
        else
          let out := group_rows df in
          ((out, "DB"%string), <[mail := out]> booking_cache)
      else (([], "Error"%string), booking_cache)
  end.

End user_bookings.

(* --------------------------------------------------------------------- *)
(** ** The search page's choice of a route *)

(** The branch of [app.py] that picks the algorithm from the travel purpose:
    the route, and the label stored as [algo_used]. *)
Definition choose_route (env : Env) (srv : Server)
    (graph : gmap string (list string)) (purpose origin dest : string)
  : option (option (list string) * string) :=
  if bool_decide (purpose ∈ ["Business"; "Family Visit"]%string) then
    match bfs_shortest_path graph origin dest with
    | None => None
    | Some route => Some (route, "BFS (Shortest Path)"%string)
    end
  else if bool_decide (purpose ∈ ["Tourism"; "Education"]%string) then
    match find_cheapest_route env srv graph origin dest default_max_stops with
    | None => None
    | Some (Some (v :: r), _) => Some (Some (v :: r), "Cheapest Route"%string)
    | Some (_, _) =>
        match dfs_find_a_path graph origin dest with
        | None => None
        | Some route => Some (route, "DFS (Fallback)"%string)
        end
    end
  else
    match bfs_shortest_path graph origin dest with
    | None => None
    | Some route => Some (route, "BFS (Default)"%string)
    end.

(* ===================================================================== *)
(** * Part II: properties                                                 *)
(* ===================================================================== *)

(* --------------------------------------------------------------------- *)
(** ** Itinerary resolver *)

(** The sum of the prices of a list of legs. *)
Definition total_of (legs : list Flight) : Z :=
  foldr (fun f acc => price f + acc) 0 legs.

Lemma total_of_app (l1 l2 : list Flight) :
  total_of (l1 ++ l2) = total_of l1 + total_of l2.
Proof.
  induction l1 as [|f l1 IH]; simpl; [done|]. rewrite IH. lia.
Qed.

Lemma route_pairs_length (route : list string) :
  length (route_pairs route) = (length route - 1)%nat.
Proof.
  induction route as [|a [|b rest] IH]; simpl in *; try done.
  rewrite IH. lia.
Qed.

(** What the loop adds: the legs it appends and their prices; when it ends
    with [ok] it has appended one leg per pair. *)
Lemma resolve_loop_spec df pairs ordered total legs t ok :
  resolve_loop df pairs ordered total = (legs, t, ok) →
  ∃ new, legs = ordered ++ new ∧ t = total + total_of new ∧
         (ok = true → length new = length pairs).
Proof.
  revert ordered total.
  induction pairs as [|[a b] pairs IH]; intros ordered total; simpl.
  - intros [= <- <- <-]. exists []. rewrite app_nil_r. simpl. split_and!; [done|lia|done].
  - destruct (List.filter (is_leg a b) df) as [|leg rest].
    + intros [= <- <- <-]. exists []. rewrite app_nil_r. simpl. split_and!; [done|lia|done].
    + destruct (available_seats leg =? 0).
      * intros [= <- <- <-]. exists []. rewrite app_nil_r. simpl.
        split_and!; [done|lia|done].
      * intros H. apply IH in H as (new & -> & -> & Hlen).
        exists (leg :: new). rewrite <- app_assoc. simpl.
        split_and!; [done|lia|]. intros Hok. by rewrite Hlen.
Qed.

(** Whatever the resolver returns, its total is the sum of the prices of
    the legs it returns; with [ok] there is one leg per consecutive pair. *)
Lemma get_flight_details_total env srv route legs t ok :
  get_flight_details_for_route env srv route = (legs, t, ok) →
  t = total_of legs ∧
  (ok = true → ∀ r, route = Some r → length legs = (length r - 1)%nat).
Proof.
  unfold get_flight_details_for_route.
  destruct route as [route|]; [|intros [= <- <- <-]; done].
  destruct (bool_decide (route = []) || (length route <? 2)%nat) eqn:Hshort.
  { intros [= <- <- <-]. split; [done|]. intros _ r [= <-].
    apply orb_true_iff in Hshort as [H|H].
    - apply bool_decide_eq_true in H. by subst.
    - apply Nat.ltb_lt in H. simpl. lia. }
  destruct (negb (connects env)); [intros [= <- <- <-]; done|].
  cbv zeta. clear Hshort.
  destruct (_ <? _)%nat; [intros [= <- <- <-]; done|].
  intros H. apply resolve_loop_spec in H as (new & -> & -> & Hlen).
  simpl. split; [lia|]. intros Hok r [= <-].
  rewrite Hlen by done. apply route_pairs_length.
Qed.

(** C10: a route that is [None] or has fewer than two airports resolves to
    no legs, a total of 0 and [ok = True], whatever the datastore holds and
    even when no connection to it can be made. *)
Theorem short_route_resolves_to_nothing (env : Env) (srv : Server)
    (route : option (list string)) :
  (∀ r, route = Some r → (length r < 2)%nat) →
  get_flight_details_for_route env srv route = ([], 0, true).
Proof.
  intros Hshort. unfold get_flight_details_for_route.
  destruct route as [r|]; [|done].
  specialize (Hshort r eq_refl).
  apply Nat.ltb_lt in Hshort. rewrite Hshort.
  by rewrite orb_true_r.
Qed.

Lemma short_route_resolves_to_nothing_witness :
  get_flight_details_for_route (mkEnv false None)
    (mkServer (mkTables [] [] [] [] []) 1 1) (Some ["DEL"%string])
  = ([], 0, true).
Proof.
  apply short_route_resolves_to_nothing.
  intros r [= <-]. simpl. lia.
Defined.

(** The rows the query returns for one of its pairs are all the rows of
    [flights] for that pair, in table order. *)
Lemma read_legs_one_pair pairs t a b :
  (a, b) ∈ pairs →
  List.filter (is_leg a b) (read_legs pairs t) = List.filter (is_leg a b) (flights t).
Proof.
  intros Hin. unfold read_legs.
  induction (flights t) as [|f fs IH]; simpl; [done|].
  destruct (is_leg a b f) eqn:Hleg.
  - assert (existsb (fun p => is_leg p.1 p.2 f) pairs = true) as ->.
    { apply existsb_exists. exists (a, b). split; [by apply list_elem_of_In|done]. }
    simpl. rewrite Hleg. by rewrite IH.
  - destruct (existsb _ pairs); simpl; [rewrite Hleg|]; apply IH.
Qed.

Lemma resolve_loop_not_ok df pairs ordered total a b :
  (a, b) ∈ pairs →
  (∀ f, f ∈ List.filter (is_leg a b) df → available_seats f = 0) →
  (resolve_loop df pairs ordered total).2 = false.
Proof.
  intros Hin Hfull. revert ordered total.
  induction pairs as [|[a' b'] pairs IH]; intros ordered total.
  { by apply elem_of_nil in Hin. }
  simpl. destruct (List.filter (is_leg a' b') df) as [|leg rest] eqn:Hf; [done|].
  destruct (available_seats leg =? 0) eqn:Hz; [done|].
  apply elem_of_cons in Hin as [[= <- <-]|Hin].
  - rewrite Hfull in Hz; [done|]. rewrite Hf. apply elem_of_cons. by left.
  - by apply IH.
Qed.

(** The part of the resolver's contract that the code keeps: a route with a
    consecutive pair for which no row of [flights] has a seat left is never
    reported as resolved. *)
Lemma unresolvable_route_not_ok env srv route a b :
  (2 ≤ length route)%nat →
  (a, b) ∈ route_pairs route →
  (∀ f, f ∈ flights (committed srv) → is_leg a b f = true → available_seats f = 0) →
  (get_flight_details_for_route env srv (Some route)).2 = false.
Proof.
  intros Hlen Hin Hfull. unfold get_flight_details_for_route.
  assert (bool_decide (route = []) || (length route <? 2)%nat = false) as ->.
  { apply orb_false_iff. split.
    - apply bool_decide_eq_false. intros ->. simpl in Hlen. lia.
    - apply Nat.ltb_ge. lia. }
  destruct (negb (connects env)); [done|]. cbv zeta.
  destruct (_ <? _)%nat; [done|].
  apply (resolve_loop_not_ok _ _ _ _ a b); [done|].
  intros f Hf. rewrite read_legs_one_pair in Hf by done.
  apply list_elem_of_In, filter_In in Hf as [Hf Hleg].
  apply Hfull; [by apply list_elem_of_In|done].
Qed.

(** C2, evaluated where it fails: route [A, B, C] with a leg A→B that has
    seats and a leg B→C that is sold out.  The call reports [ok = False] but
    hands back the first leg and its price, where the other failing returns
    of the same function hand back [[], 0, False]. *)
Theorem resolver_returns_partial_on_sold_out_leg :
  get_flight_details_for_route healthy
    (mkServer (mkTables [mkFlight 1 "A" "B" 100 5; mkFlight 2 "B" "C" 50 0]
                        [] [] [] []) 1 1)
    (Some ["A"; "B"; "C"]%string)
  = ([mkFlight 1 "A" "B" 100 5], 100, false).
Proof. reflexivity. Qed.

(** The same happens with a missing middle leg as soon as the first pair is
    served by two rows, which lets the row count pass. *)
Example resolver_returns_partial_on_missing_leg :
  get_flight_details_for_route healthy
    (mkServer (mkTables [mkFlight 1 "A" "B" 100 5; mkFlight 2 "A" "B" 90 5]
                        [] [] [] []) 1 1)
    (Some ["A"; "B"; "C"]%string)
  = ([mkFlight 1 "A" "B" 100 5], 100, false).
Proof. reflexivity. Qed.

(* --------------------------------------------------------------------- *)
(** ** Bounded cheapest route *)

Section cheapest_route.
Variables (env : Env) (srv : Server) (graph : gmap string (list string)).
Variables (start destination : string) (max_stops : Z).

(** What [best] holds at any time: nothing yet, or a simple path from
    [start] to [destination] within the hop bound, together with the total
    that the resolver gave for exactly that path. *)
Definition sound_best (b : Best) : Prop :=
  match best_route b with
  | None => True
  | Some route =>
      NoDup route ∧ Z.of_nat (length route) - 1 ≤ max_stops ∧
      head route = Some start ∧ last route = Some destination ∧
      ∃ legs total,
        get_flight_details_for_route env srv (Some route) = (legs, total, true) ∧
        best_price b = Finite total ∧ total = total_of legs ∧
        length legs = (length route - 1)%nat
  end.

Lemma head_snoc (path : list string) (v nb : string) :
  head path = Some v → head (path ++ [nb]) = Some v.
Proof. by destruct path. Qed.

Lemma dfs_sound fuel node path best b' :
  NoDup path → head path = Some start → last path = Some node →
  sound_best best →
  dfs fuel env srv graph destination max_stops node path best = Some b' →
  sound_best b'.
Proof.
  revert node path best b'.
  induction fuel as [|fuel IH]; intros node path best b' Hnd Hhd Hlast Hbest; [done|].
  cbn [dfs]. destruct (Z.of_nat (length path) - 1 >? max_stops) eqn:Hdeep.
  { by intros [= <-]. }
  destruct (decide (node = destination)) as [->|Hne].
  - destruct (get_flight_details_for_route env srv (Some path))
      as [[legs total] ok] eqn:Hres.
    destruct (ok && below total (best_price best)) eqn:Hupd; intros [= <-]; [|done].
    apply andb_true_iff in Hupd as [-> _].
    unfold sound_best. simpl.
    destruct (get_flight_details_total _ _ _ _ _ _ Hres) as [Htot Hlen].
    split_and!; [done|lia|done|done|].
    exists legs, total. split_and!; [done|done|done|]. by apply Hlen.
  - generalize (neighbors graph node). intros nbs. revert best Hbest.
    induction nbs as [|nb nbs IHn]; intros best Hbest; simpl.
    { by intros [= <-]. }
    destruct (decide (nb ∈ path)) as [Hin|Hnin]; [by apply IHn|].
    destruct (dfs fuel env srv graph destination max_stops nb (path ++ [nb]) best)
      as [b1|] eqn:Hrec.
    + apply IHn. eapply IH; [| | | exact Hbest | exact Hrec].
      * apply NoDup_app. split_and!; [done| |apply NoDup_singleton].
        intros x Hx Hx'. apply list_elem_of_singleton in Hx'. by subst.
      * by apply head_snoc.
      * by rewrite last_snoc.
    + clear. induction nbs as [|? ? IHn]; simpl; [done|apply IHn].
Qed.

(** The recursion budget is never the reason for [dfs] to stop. *)
Lemma dfs_returns fuel node path best :
  (1 ≤ fuel)%nat →
  max_stops + 2 ≤ Z.of_nat fuel + (Z.of_nat (length path) - 1) →
  is_Some (dfs fuel env srv graph destination max_stops node path best).
Proof.
  revert node path best.
  induction fuel as [|fuel IH]; intros node path best Hpos Hfuel; [lia|].
  cbn [dfs]. destruct (Z.of_nat (length path) - 1 >? max_stops) eqn:Hdeep; [done|].
  rewrite Z.gtb_ltb in Hdeep. apply Z.ltb_ge in Hdeep.
  destruct (decide (node = destination)) as [->|Hne].
  - destruct (get_flight_details_for_route env srv (Some path)) as [[legs total] ok].
    by destruct (ok && below total (best_price best)).
  - generalize (neighbors graph node). intros nbs. revert best.
    induction nbs as [|nb nbs IHn]; intros best; simpl; [done|].
    destruct (decide (nb ∈ path)); [apply IHn|].
    destruct (IH nb (path ++ [nb]) best) as [b1 ->]; [lia| |apply IHn].
    rewrite length_app. simpl. lia.
Qed.


End cheapest_route.

(** C6, as the code behaves: in the graph built from A→B, B→D, A→C, C→D the
    airport D starts no route, so it is not a key of the graph and the
    search answers "no route" with price 0.  Once D starts a route as well
    (here D→A), the search returns [A, C, D] at 120, not [A, B, D] at 150. *)
Theorem cheapest_route_scenario :
  let legs := [mkFlight 1 "A" "B" 100 9; mkFlight 2 "B" "D" 50 9;
               mkFlight 3 "A" "C" 60 9; mkFlight 4 "C" "D" 60 9;
               mkFlight 5 "D" "A" 70 9] in
  let srv := mkServer (mkTables legs [] [] [] []) 1 1 in
  let edges := [("A", "B"); ("B", "D"); ("A", "C"); ("C", "D")]%string in
  find_cheapest_route healthy srv (build_graph edges) "A" "D" 3
    = Some (None, Finite 0) ∧
  find_cheapest_route healthy srv (build_graph (edges ++ [("D", "A")%string])) "A" "D" 3
    = Some (Some ["A"; "C"; "D"]%string, Finite 120) ∧
  get_flight_details_for_route healthy srv (Some ["A"; "B"; "D"]%string)
    = ([mkFlight 1 "A" "B" 100 9; mkFlight 2 "B" "D" 50 9], 150, true).
Proof. vm_compute. done. Qed.

(** C6 as stated does not hold: with exactly the four edges of the scenario
    and every leg available, no route is returned. *)
Lemma cheapest_route_scenario_no_route :
  find_cheapest_route healthy
    (mkServer (mkTables [mkFlight 1 "A" "B" 100 9; mkFlight 2 "B" "D" 50 9;
                         mkFlight 3 "A" "C" 60 9; mkFlight 4 "C" "D" 60 9]
                        [] [] [] []) 1 1)
    (build_graph [("A", "B"); ("B", "D"); ("A", "C"); ("C", "D")]%string)
    "A" "D" default_max_stops
  ≠ Some (Some ["A"; "C"; "D"]%string, Finite 120).
Proof. vm_compute. discriminate. Qed.

(* --------------------------------------------------------------------- *)
(** ** Transactions: what an error can and cannot leave behind *)

(** [m] never touches the committed tables. *)
Definition keeps_durable {A : Type} (m : Tx A) : Prop :=
  ∀ s, durable (m s).2 = durable s.

(** [m], run against a datastore that may raise, either does exactly what
    [mh] does against one that does not, or raises with the committed tables
    as they were. *)
Definition refines {A : Type} (m mh : Tx A) : Prop :=
  ∀ s, m s = mh s ∨ ∃ err s', m s = (DbError err, s') ∧ durable s' = durable s.

Definition safe {A : Type} (m mh : Tx A) : Prop :=
  refines m mh ∧ keeps_durable mh.

Lemma keeps_durable_ret {A : Type} (a : A) : keeps_durable (tx_ret a).
Proof. by intros s. Qed.

Lemma keeps_durable_bind {A B : Type} (m : Tx A) (k : A → Tx B) :
  keeps_durable m → (∀ a, keeps_durable (k a)) → keeps_durable (tx_bind m k).
Proof.
  intros Hm Hk s. unfold tx_bind. specialize (Hm s).
  destruct (m s) as [[a|err] s1]; simpl in *; [|done].
  by rewrite Hk.
Qed.

Lemma refines_refl {A : Type} (m : Tx A) : refines m m.
Proof. intros s. by left. Qed.

Lemma refines_bind {A B : Type} (m mh : Tx A) (k kh : A → Tx B) :
  safe m mh → (∀ a, refines (k a) (kh a)) →
  refines (tx_bind m k) (tx_bind mh kh).
Proof.
  intros [Hm Hd] Hk s. unfold tx_bind.
  specialize (Hd s).
  destruct (Hm s) as [->|(err & s' & -> & Hs')]; [|right; by exists err, s'].
  destruct (mh s) as [[a|err] s1]; simpl in *; [|by left].
  destruct (Hk a s1) as [->|(err & s' & -> & Hs')]; [by left|].
  right. exists err, s'. split; [done|congruence].
Qed.

Lemma safe_bind {A B : Type} (m mh : Tx A) (k kh : A → Tx B) :
  safe m mh → (∀ a, safe (k a) (kh a)) → safe (tx_bind m k) (tx_bind mh kh).
Proof.
  intros Hm Hk. split.
  - apply refines_bind; [done|]. intros a. apply Hk.
  - apply keeps_durable_bind; [apply Hm|]. intros a. apply Hk.
Qed.

Lemma safe_pure {A : Type} (m : Tx A) : keeps_durable m → safe m m.
Proof. intros H. split; [apply refines_refl|done]. Qed.

Lemma safe_statement env : safe (statement env) (statement healthy).
Proof.
  split; [|by intros s].
  intros s. unfold statement. simpl.
  destruct (fails_at env) as [[k err]|]; [|by left].
  destruct (executed s =? k)%nat; [|by left].
  right. by exists err, s.
Qed.

Lemma safe_select_for_update env fid :
  safe (select_for_update env fid) (select_for_update healthy fid).
Proof.
  apply safe_bind; [apply safe_statement|]. intros _. by apply safe_pure.
Qed.

Lemma safe_upsert_user env fn ln em :
  safe (upsert_user env fn ln em) (upsert_user healthy fn ln em).
Proof.
  apply safe_bind; [apply safe_statement|]. intros _. apply safe_pure.
  intros s. simpl. by destruct (List.find _ (users (work s))).
Qed.

Lemma safe_insert_booking env uid total purpose :
  safe (insert_booking env uid total purpose) (insert_booking healthy uid total purpose).
Proof.
  apply safe_bind; [apply safe_statement|]. intros _. by apply safe_pure.
Qed.

Lemma safe_insert_passengers env rows :
  safe (insert_passengers env rows) (insert_passengers healthy rows).
Proof.
  apply safe_bind; [apply safe_statement|]. intros _. by apply safe_pure.
Qed.

Lemma safe_insert_booking_flight env row :
  safe (insert_booking_flight env row) (insert_booking_flight healthy row).
Proof.
  apply safe_bind; [apply safe_statement|]. intros _. by apply safe_pure.
Qed.

Lemma safe_select_legs env bid :
  safe (select_legs env bid) (select_legs healthy bid).
Proof.
  apply safe_bind; [apply safe_statement|]. intros _. by apply safe_pure.
Qed.

Lemma safe_mark_cancelled env bid :
  safe (mark_cancelled env bid) (mark_cancelled healthy bid).
Proof.
  apply safe_bind; [apply safe_statement|]. intros _. by apply safe_pure.
Qed.

Lemma safe_verify_seats env n fids :
  safe (verify_seats env n fids) (verify_seats healthy n fids).
Proof.
  induction fids as [|fid fids IH]; simpl; [by apply safe_pure|].
  apply safe_bind; [apply safe_select_for_update|].
  intros [seats|]; [|by apply safe_pure].
  destruct (seats <? n); [by apply safe_pure|done].
Qed.

Lemma safe_deduct_seats env n fids :
  safe (deduct_seats env n fids) (deduct_seats healthy n fids).
Proof.
  induction fids as [|fid fids IH]; simpl; [by apply safe_pure|].
  apply safe_bind; [apply safe_statement|]. intros _.
  apply safe_bind; [by apply safe_pure|done].
Qed.

Lemma safe_link_flights env bid n fids :
  safe (link_flights env bid n fids) (link_flights healthy bid n fids).
Proof.
  induction fids as [|fid fids IH]; simpl; [by apply safe_pure|].
  apply safe_bind; [apply safe_insert_booking_flight|done].
Qed.

Lemma safe_restore_seats env rows :
  safe (restore_seats env rows) (restore_seats healthy rows).
Proof.
  induction rows as [|[fid n] rows IH]; simpl; [by apply safe_pure|].
  apply safe_bind; [apply safe_statement|]. intros _.
  apply safe_bind; [by apply safe_pure|done].
Qed.

(** A commit either happens as in the healthy run or raises before anything
    became durable. *)
Lemma refines_commit_ret {A : Type} env (a : A) :
  refines (commit env ;; tx_ret a) (commit healthy ;; tx_ret a).
Proof.
  intros s. unfold commit, tx_bind, statement. simpl.
  destruct (fails_at env) as [[k err]|]; [|by left].
  destruct (executed s =? k)%nat; [|by left].
  right. by exists err, s.
Qed.

Lemma refines_commit env : refines (commit env) (commit healthy).
Proof.
  intros s. unfold commit, tx_bind, statement. simpl.
  destruct (fails_at env) as [[k err]|]; [|by left].
  destruct (executed s =? k)%nat; [|by left].
  right. by exists err, s.
Qed.

Lemma save_booking_try_refines env user_details passenger_list flight_ids total :
  refines (save_booking_try env user_details passenger_list flight_ids total)
          (save_booking_try healthy user_details passenger_list flight_ids total).
Proof.
  unfold save_booking_try.
  apply refines_bind; [apply safe_statement|]. intros _.
  apply refines_bind; [apply safe_verify_seats|]. intros [|].
  - apply refines_bind; [apply safe_deduct_seats|]. intros _.
    apply refines_bind; [apply safe_upsert_user|]. intros uid.
    apply refines_bind; [by destruct (uid =? 0); apply safe_pure|]. intros user_id.
    apply refines_bind; [apply safe_insert_booking|]. intros bid.
    apply refines_bind; [apply safe_insert_passengers|]. intros _.
    apply refines_bind; [apply safe_link_flights|]. intros _.
    apply refines_commit_ret.
  - apply refines_bind; [apply safe_statement|]. intros _.
    apply refines_refl.
Qed.

Lemma cancel_booking_try_refines env booking_id :
  refines (cancel_booking_try env booking_id) (cancel_booking_try healthy booking_id).
Proof.
  unfold cancel_booking_try.
  apply refines_bind; [apply safe_statement|]. intros _.
  apply refines_bind; [apply safe_select_legs|]. intros rows.
  apply refines_bind; [apply safe_restore_seats|]. intros _.
  apply refines_bind; [apply safe_mark_cancelled|]. intros _.
  apply refines_commit.
Qed.

(* --------------------------------------------------------------------- *)
(** ** Transactions against a datastore that answers *)

(** The leg [fid] exists and has at least [n] seats. *)
Definition enough (t : Tables) (n fid : Z) : bool :=
  match seats_of fid t with
  | Some seats => negb (seats <? n)
  | None => false
  end.

(** How many legs the first loop of [save_booking] looks at. *)
Fixpoint checked (t : Tables) (n : Z) (fids : list Z) : nat :=
  match fids with
  | [] => 0
  | fid :: rest => if enough t n fid then S (checked t n rest) else 1
  end.

(** Seat changes [(flight id, delta)] applied one after the other. *)
Definition apply_deltas (t : Tables) (rows : list (Z * Z)) : Tables :=
  foldl (fun t r => add_seats r.2 r.1 t) t rows.

(** The sum of the deltas that [rows] hold for flight [fid]. *)
Definition credit (rows : list (Z * Z)) (fid : Z) : Z :=
  foldr (fun r acc => if r.1 =? fid then r.2 + acc else acc) 0 rows.

Lemma statement_healthy s :
  statement healthy s =
    (Done tt, mkSession (durable s) (work s) (auto_user s) (auto_booking s)
                        (S (executed s)) (locked s)).
Proof. reflexivity. Qed.

Lemma verify_seats_healthy n fids s :
  verify_seats healthy n fids s =
    (Done (forallb (enough (work s) n) fids),
     mkSession (durable s) (work s) (auto_user s) (auto_booking s)
               (checked (work s) n fids + executed s)
               (locked s ++ take (checked (work s) n fids) fids)).
Proof.
  revert s. induction fids as [|fid fids IH]; intros [d w au ab e lk]; simpl.
  { unfold tx_ret. by rewrite app_nil_r. }
  unfold tx_bind, select_for_update, tx_bind. simpl.
  unfold enough. destruct (seats_of fid w) as [seats|]; simpl; [|done].
  destruct (seats <? n); simpl; [done|].
  rewrite IH. simpl. rewrite <- app_assoc. simpl.
  by rewrite Nat.add_succ_r.
Qed.

Lemma deduct_seats_healthy n fids s :
  deduct_seats healthy n fids s =
    (Done tt,
     mkSession (durable s)
               (apply_deltas (work s) (map (fun fid => (fid, - n)) fids))
               (auto_user s) (auto_booking s)
               (length fids + executed s) (locked s)).
Proof.
  revert s. induction fids as [|fid fids IH]; intros [d w au ab e lk]; simpl; [done|].
  unfold tx_bind. simpl. unfold tx_bind in IH. rewrite IH. simpl.
  by rewrite Nat.add_succ_r.
Qed.

Lemma restore_seats_healthy rows s :
  restore_seats healthy rows s =
    (Done tt,
     mkSession (durable s) (apply_deltas (work s) rows)
               (auto_user s) (auto_booking s)
               (length rows + executed s) (locked s)).
Proof.
  revert s. induction rows as [|[fid n] rows IH]; intros [d w au ab e lk]; simpl; [done|].
  unfold tx_bind. simpl. unfold tx_bind in IH. rewrite IH. simpl.
  by rewrite Nat.add_succ_r.
Qed.

Lemma link_flights_healthy bid n fids s :
  link_flights healthy bid n fids s =
    (Done tt,
     mkSession (durable s)
               (mkTables (flights (work s)) (users (work s)) (bookings (work s))
                         (passengers (work s))
                         (booking_flights (work s)
                            ++ map (fun fid => mkBookingFlight bid fid n) fids))
               (auto_user s) (auto_booking s)
               (length fids + executed s) (locked s)).
Proof.
  revert s. induction fids as [|fid fids IH]; intros [d [fl us bs ps bfs] au ab e lk]; simpl.
  { by rewrite app_nil_r. }
  unfold tx_bind, insert_booking_flight, tx_bind. simpl.
  rewrite IH. simpl. rewrite <- app_assoc. simpl.
  by rewrite Nat.add_succ_r.
Qed.

(** The deltas add up per flight; nothing but [available_seats] changes. *)
Lemma apply_deltas_spec t rows :
  apply_deltas t rows =
    mkTables
      (map (fun f => set_seats f (available_seats f + credit rows (flight_id f)))
           (flights t))
      (users t) (bookings t) (passengers t) (booking_flights t).
Proof.
  revert t. induction rows as [|[fid n] rows IH]; intros [fl us bs ps bfs]; simpl.
  - f_equal. induction fl as [|[i o d p a] fl IHf]; simpl; [done|].
    rewrite <- IHf. unfold set_seats. simpl. f_equal. f_equal. lia.
  - unfold apply_deltas in *. simpl. rewrite IH. unfold add_seats. simpl.
    f_equal. rewrite map_map. apply map_ext. intros [i o d p a]. simpl.
    destruct (i =? fid) eqn:Hi; simpl.
    + apply Z.eqb_eq in Hi as ->. rewrite Z.eqb_refl.
      unfold set_seats. simpl. f_equal. lia.
    + rewrite Z.eqb_sym, Hi. done.
Qed.

Lemma credit_deduct n fids fid :
  credit (map (fun fid => (fid, - n)) fids) fid
  = - (n * Z.of_nat (count_occ Z.eq_dec fids fid)).
Proof.
  induction fids as [|x fids IH]; simpl; [lia|].
  destruct (Z.eq_dec x fid) as [->|Hne].
  - rewrite Z.eqb_refl, IH. lia.
  - apply Z.eqb_neq in Hne. rewrite Hne. apply IH.
Qed.

(** The [users] table after the INSERT ... ON DUPLICATE KEY UPDATE of
    [save_booking], and the user id the booking is filed under: a known
    e-mail address keeps its row and id (with the first name overwritten), an
    unknown one gets a new row numbered by the table's counter. *)
Definition users_after (us : list User) (fresh : Z) (d : UserDetails) : list User :=
  match List.find (fun u => bool_decide (email u = details_email d)) us with
  | Some _ =>
      map (fun u => if bool_decide (email u = details_email d)
                    then mkUser (user_id u) (details_first_name d)
                                (last_name u) (email u)
                    else u) us
  | None =>
      us ++ [mkUser fresh (details_first_name d) (details_last_name d)
                    (details_email d)]
  end.

Definition user_id_after (us : list User) (fresh : Z) (d : UserDetails) : Z :=
  match List.find (fun u => bool_decide (email u = details_email d)) us with
  | Some u => user_id u
  | None => fresh
  end.

Definition user_counter_after (us : list User) (fresh : Z) (d : UserDetails) : Z :=
  match List.find (fun u => bool_decide (email u = details_email d)) us with
  | Some u => fresh
  | None => fresh + 1
  end.

(** The tables of a completed booking [bid] for user [uid]: every flight
    row loses the passenger count once for each time its id is listed, and
    the header, the passengers and one association row per listed leg are
    added. *)
Definition booked_tables (t : Tables) (fresh_user uid bid : Z)
    (d : UserDetails) (pax : list PassengerDetails) (fids : list Z)
    (total : Z) : Tables :=
  let n := Z.of_nat (length pax) in
  mkTables
    (map (fun f => set_seats f (available_seats f
                     - n * Z.of_nat (count_occ Z.eq_dec fids (flight_id f))))
         (flights t))
    (users_after (users t) fresh_user d)
    (bookings t ++ [mkBooking bid uid total CONFIRMED (details_travel_purpose d)])
    (passengers t
       ++ map (fun p => mkPassenger bid (pax_first_name p) (pax_last_name p)
                                    (pax_age p)) pax)
    (booking_flights t ++ map (fun fid => mkBookingFlight bid fid n) fids).

Lemma save_booking_healthy_refused srv d pax fids total :
  forallb (enough (committed srv) (Z.of_nat (length pax))) fids = false →
  save_booking healthy srv d pax fids total = ((None, "Not enough seats"), srv).
Proof.
  intros Hno. unfold save_booking, save_booking_run, save_booking_try. simpl.
  unfold tx_bind at 1. rewrite statement_healthy.
  unfold tx_bind at 1. rewrite verify_seats_healthy. simpl.
  rewrite Hno. unfold tx_bind. simpl. by destruct srv.
Qed.

Lemma save_booking_healthy_booked srv d pax fids total :
  forallb (enough (committed srv) (Z.of_nat (length pax))) fids = true →
  user_id_after (users (committed srv)) (next_user_id srv) d ≠ 0 →
  save_booking healthy srv d pax fids total =
    ((Some (next_booking_id srv), "Booking successful!"),
     mkServer
       (booked_tables (committed srv) (next_user_id srv)
          (user_id_after (users (committed srv)) (next_user_id srv) d)
          (next_booking_id srv) d pax fids total)
       (user_counter_after (users (committed srv)) (next_user_id srv) d)
       (next_booking_id srv + 1)).
Proof.
  intros Hyes Huid. unfold save_booking, save_booking_run, save_booking_try. simpl.
  unfold tx_bind at 1. rewrite statement_healthy.
  unfold tx_bind at 1. rewrite verify_seats_healthy. simpl.
  rewrite Hyes.
  unfold tx_bind at 1. rewrite deduct_seats_healthy. simpl.
  rewrite apply_deltas_spec. simpl.
  unfold user_id_after, user_counter_after, booked_tables, users_after in *.
  unfold tx_bind at 1. unfold upsert_user. unfold tx_bind at 1.
  rewrite statement_healthy. simpl.
  destruct (List.find _ (users (committed srv))) as [u0|] eqn:Hfind.
  - unfold tx_bind at 1. apply Z.eqb_neq in Huid. rewrite Huid.
    unfold tx_ret at 1. unfold tx_bind at 1. unfold insert_booking, tx_bind at 1.
    rewrite statement_healthy. simpl.
    unfold tx_bind at 1. unfold insert_passengers, tx_bind at 1.
    rewrite statement_healthy. simpl.
    unfold tx_bind at 1. rewrite link_flights_healthy. simpl.
    unfold tx_bind, commit, tx_bind. simpl. unfold close_session. simpl.
    f_equal. f_equal. f_equal.
    apply map_ext. intros f. by rewrite credit_deduct.
  - unfold tx_bind at 1. apply Z.eqb_neq in Huid. rewrite Huid.
    unfold tx_ret at 1. unfold tx_bind at 1. unfold insert_booking, tx_bind at 1.
    rewrite statement_healthy. simpl.
    unfold tx_bind at 1. unfold insert_passengers, tx_bind at 1.
    rewrite statement_healthy. simpl.
    unfold tx_bind at 1. rewrite link_flights_healthy. simpl.
    unfold tx_bind, commit, tx_bind. simpl. unfold close_session. simpl.
    f_equal. f_equal. f_equal.
    apply map_ext. intros f. by rewrite credit_deduct.
Qed.

Lemma enough_all t n fids :
  forallb (enough t n) fids = true ↔
  ∀ fid, fid ∈ fids → ∃ seats, seats_of fid t = Some seats ∧ n ≤ seats.
Proof.
  rewrite forallb_forall. unfold enough. split.
  - intros H fid Hin. apply list_elem_of_In, H in Hin.
    destruct (seats_of fid t) as [seats|]; [|done].
    exists seats. split; [done|]. apply negb_true_iff, Z.ltb_ge in Hin. lia.
  - intros H fid Hin. apply list_elem_of_In, H in Hin as (seats & -> & Hle).
    apply negb_true_iff, Z.ltb_ge. lia.
Qed.

Lemma enough_not_all t n fids :
  (∃ fid, fid ∈ fids ∧ ∀ seats, seats_of fid t = Some seats → seats < n) →
  forallb (enough t n) fids = false.
Proof.
  intros (fid & Hin & Hfew). apply not_true_iff_false. intros Hall.
  destruct (proj1 (enough_all t n fids) Hall fid Hin) as (seats & Hs & Hle).
  specialize (Hfew seats Hs). lia.
Qed.

(** Whatever the datastore does, [save_booking] ends as it does against a
    datastore that answers, or it returns no booking id and the committed
    tables are what they were. *)
Lemma save_booking_outcomes env srv d pax fids total :
  save_booking env srv d pax fids total = save_booking healthy srv d pax fids total
  ∨ ((save_booking env srv d pax fids total).1.1 = None ∧
     committed (save_booking env srv d pax fids total).2 = committed srv).
Proof.
  unfold save_booking, save_booking_run.
  destruct (connects env); [|by right]. simpl.
  destruct (save_booking_try_refines env d pax fids total (open_session srv))
    as [->|(err & s' & -> & Hs')]; [by left|].
  right. simpl. by rewrite Hs'.
Qed.

(** A user id of 0 makes [cursor.lastrowid or cursor.fetchone()[0]] fetch
    from a statement without a result set, which raises. *)
Lemma save_booking_healthy_no_key srv d pax fids total :
  forallb (enough (committed srv) (Z.of_nat (length pax))) fids = true →
  user_id_after (users (committed srv)) (next_user_id srv) d = 0 →
  ∃ msg counter,
    save_booking healthy srv d pax fids total =
      ((None, msg), mkServer (committed srv) counter (next_booking_id srv)).
Proof.
  intros Hall Hz. unfold save_booking, save_booking_run, save_booking_try. simpl.
  unfold tx_bind at 1. rewrite statement_healthy.
  unfold tx_bind at 1. rewrite verify_seats_healthy. simpl.
  rewrite Hall.
  unfold tx_bind at 1. rewrite deduct_seats_healthy. simpl.
  rewrite apply_deltas_spec. simpl.
  unfold user_id_after in Hz.
  unfold tx_bind at 1. unfold upsert_user. unfold tx_bind at 1.
  rewrite statement_healthy. simpl. revert Hz.
  destruct (List.find _ (users (committed srv))) as [u0|]; intros Hz;
    unfold tx_bind at 1; rewrite Hz; unfold tx_bind; simpl; eauto.
Qed.

Lemma save_booking_healthy_atomic srv d pax fids total :
  ((save_booking healthy srv d pax fids total).1.1 = None ∧
   committed (save_booking healthy srv d pax fids total).2 = committed srv)
  ∨ ((save_booking healthy srv d pax fids total).1
       = (Some (next_booking_id srv), "Booking successful!") ∧
     committed (save_booking healthy srv d pax fids total).2
       = booked_tables (committed srv) (next_user_id srv)
           (user_id_after (users (committed srv)) (next_user_id srv) d)
           (next_booking_id srv) d pax fids total).
Proof.
  destruct (forallb (enough (committed srv) (Z.of_nat (length pax))) fids) eqn:Hall.
  - destruct (decide (user_id_after (users (committed srv)) (next_user_id srv) d = 0))
      as [Hz|Hnz].
    + left. destruct (save_booking_healthy_no_key srv d pax fids total Hall Hz)
        as (msg & counter & ->). done.
    + right. by rewrite save_booking_healthy_booked.
  - left. by rewrite save_booking_healthy_refused.
Qed.

(** C1: [save_booking] is all or nothing.  Whatever the datastore does
    (no connection, an error raised by any statement), the call either
    returns no booking id and leaves the committed tables as they were, or
    returns the new id with "Booking successful!" and commits everything at
    once: the seats taken from every listed leg, the user created or reused,
    the CONFIRMED header, all passenger rows and all leg rows.  Against a
    datastore that answers: if a listed leg has fewer seats than passengers
    (or no row), the result is no id with "Not enough seats" and nothing at
    all has changed; if every listed leg has enough seats, the booking goes
    through.  A leg listed [k] times gives up the passenger count [k] times. *)
Theorem save_booking_all_or_nothing (env : Env) (srv : Server) (d : UserDetails)
    (pax : list PassengerDetails) (fids : list Z) (total : Z) :
  let n := Z.of_nat (length pax) in
  let t := committed srv in
  let uid := user_id_after (users t) (next_user_id srv) d in
  let booked :=
    booked_tables t (next_user_id srv) uid (next_booking_id srv) d pax fids total in
  let r := save_booking env srv d pax fids total in
  ((r.1.1 = None ∧ committed r.2 = t)
   ∨ (r.1 = (Some (next_booking_id srv), "Booking successful!") ∧
      committed r.2 = booked))
  ∧ (connects env = true → fails_at env = None →
     (∃ fid, fid ∈ fids ∧ ∀ seats, seats_of fid t = Some seats → seats < n) →
     r = ((None, "Not enough seats"), srv))
  ∧ (connects env = true → fails_at env = None →
     (∀ fid, fid ∈ fids → ∃ seats, seats_of fid t = Some seats ∧ n ≤ seats) →
     uid ≠ 0 →
     r.1 = (Some (next_booking_id srv), "Booking successful!") ∧
     committed r.2 = booked).
Proof.
  intros n t uid booked r. split_and!.
  - subst r. destruct (save_booking_outcomes env srv d pax fids total) as [->|H].
    + apply save_booking_healthy_atomic.
    + by left.
  - intros Hc Hf Hfew. subst r. destruct env as [c f]. simpl in *. subst c f.
    apply save_booking_healthy_refused. by apply enough_not_all.
  - intros Hc Hf Hall Huid. subst r. destruct env as [c f]. simpl in *. subst c f.
    fold healthy. rewrite save_booking_healthy_booked; [done| |done].
    by apply enough_all.
Qed.

Lemma save_booking_all_or_nothing_witness :
  let srv := mkServer (mkTables [mkFlight 10 "A" "B" 100 5; mkFlight 11 "B" "C" 50 4;
                                 mkFlight 12 "C" "D" 70 2]
                                [] [] [] []) 1 1 in
  let d := mkUserDetails "Ann" "Lee" "ann@example.org" None in
  let pax := [mkPassengerDetails "Ann" "Lee" 30; mkPassengerDetails "Bo" "Lee" 31;
              mkPassengerDetails "Cy" "Lee" 5] in
  (save_booking healthy srv d pax [10; 11] 450).1 = (Some 1, "Booking successful!") ∧
  map available_seats
      (flights (committed (save_booking healthy srv d pax [10; 11] 450).2)) = [2; 1; 2] ∧
  save_booking healthy srv d pax [10; 11; 12] 660 = ((None, "Not enough seats"), srv).
Proof.
  intros srv d pax.
  destruct (save_booking_all_or_nothing healthy srv d pax [10; 11] 450)
    as (_ & _ & Hok).
  destruct (save_booking_all_or_nothing healthy srv d pax [10; 11; 12] 660)
    as (_ & Hno & _).
  destruct Hok as [Hid Htab]; [done|done| |done|].
  { intros fid Hin. repeat (apply elem_of_cons in Hin as [->|Hin]).
    - exists 5. split; [done|]. simpl. lia.
    - exists 4. split; [done|]. simpl. lia.
    - by apply elem_of_nil in Hin. }
  split_and!.
  - exact Hid.
  - rewrite Htab. reflexivity.
  - apply Hno; [reflexivity|reflexivity|].
    exists 12. split; [repeat constructor|].
    intros seats [= <-]. simpl. lia.
Defined.

(* --------------------------------------------------------------------- *)
(** ** The order in which [save_booking] locks the legs *)

Definition keeps_locked {A : Type} (m : Tx A) : Prop :=
  ∀ s, locked (m s).2 = locked s.

Lemma keeps_locked_bind {A B : Type} (m : Tx A) (k : A → Tx B) :
  keeps_locked m → (∀ a, keeps_locked (k a)) → keeps_locked (tx_bind m k).
Proof.
  intros Hm Hk s. unfold tx_bind. specialize (Hm s).
  destruct (m s) as [[a|err] s1]; simpl in *; [|done].
  by rewrite Hk.
Qed.

Lemma keeps_locked_statement env : keeps_locked (statement env).
Proof.
  intros s. unfold statement.
  destruct (fails_at env) as [[k err]|]; [|done].
  by destruct (executed s =? k)%nat.
Qed.

Lemma keeps_locked_deduct_seats env n fids : keeps_locked (deduct_seats env n fids).
Proof.
  induction fids as [|fid fids IH]; simpl; [done|].
  apply keeps_locked_bind; [apply keeps_locked_statement|]. intros _.
  by apply keeps_locked_bind.
Qed.

Lemma keeps_locked_link_flights env bid n fids :
  keeps_locked (link_flights env bid n fids).
Proof.
  induction fids as [|fid fids IH]; simpl; [done|].
  apply keeps_locked_bind; [|done].
  by apply keeps_locked_bind; [apply keeps_locked_statement|].
Qed.

(** The first loop asks for the legs one by one, from the front of the list;
    when it ends well it has asked for all of them. *)
Lemma verify_seats_locks env n fids s out s' :
  verify_seats env n fids s = (out, s') →
  ∃ k, locked s' = locked s ++ take k fids ∧
       (out = Done true → locked s' = locked s ++ fids).
Proof.
  revert s. induction fids as [|fid fids IH]; intros s; simpl.
  { intros [= <- <-]. exists 0%nat. simpl. by rewrite app_nil_r. }
  unfold tx_bind, select_for_update, tx_bind.
  pose proof (keeps_locked_statement env s) as Hst.
  destruct (statement env s) as [[[]|err] s1]; simpl in *.
  2:{ intros [= <- <-]. exists 0%nat. simpl. rewrite app_nil_r. by rewrite Hst. }
  destruct (seats_of fid (work s1)) as [seats|].
  2:{ intros [= <- <-]. exists 1%nat. simpl. by rewrite Hst. }
  destruct (seats <? n).
  { intros [= <- <-]. exists 1%nat. simpl. by rewrite Hst. }
  intros Hrec. apply IH in Hrec as (k & Hk & Hall). simpl in *.
  exists (S k). simpl. split; [by rewrite Hk, Hst, <- app_assoc|].
  intros Hd. by rewrite (Hall Hd), Hst, <- app_assoc.
Qed.

Lemma save_booking_try_locks env d pax fids total s out s' :
  save_booking_try env d pax fids total s = (out, s') →
  ∃ k, locked s' = locked s ++ take k fids ∧
       (∀ bid, out = Done (Some bid) → locked s' = locked s ++ fids).
Proof.
  unfold save_booking_try.
  set (n := Z.of_nat (length pax)).
  set (rest := fun ok : bool => if ok then _ else _).
  assert (∀ ok, keeps_locked (rest ok)) as Hrest.
  { intros [|]; subst rest; cbv beta iota.
    - apply keeps_locked_bind; [apply keeps_locked_deduct_seats|]. intros _.
      apply keeps_locked_bind.
      { apply keeps_locked_bind; [apply keeps_locked_statement|]. intros _ s0.
        simpl. by destruct (List.find _ (users (work s0))). }
      intros uid. apply keeps_locked_bind; [by destruct (uid =? 0)|]. intros user_id.
      apply keeps_locked_bind.
      { by apply keeps_locked_bind; [apply keeps_locked_statement|]. }
      intros bid. apply keeps_locked_bind.
      { by apply keeps_locked_bind; [apply keeps_locked_statement|]. }
      intros _. apply keeps_locked_bind; [apply keeps_locked_link_flights|]. intros _.
      apply keeps_locked_bind; [|done].
      by apply keeps_locked_bind; [apply keeps_locked_statement|].
    - by apply keeps_locked_bind; [apply keeps_locked_statement|]. }
  assert (∀ bid s0, (rest false s0).1 ≠ Done (Some bid)) as Hfalse.
  { intros bid s0. subst rest. cbv beta iota. unfold tx_bind, statement.
    destruct (fails_at env) as [[k err]|]; [|done].
    by destruct (executed s0 =? k)%nat. }
  clearbody rest.
  unfold tx_bind.
  pose proof (keeps_locked_statement env s) as Hst.
  destruct (statement env s) as [[[]|err] s1]; simpl in *.
  2:{ intros [= <- <-]. exists 0%nat. simpl. rewrite app_nil_r. done. }
  destruct (verify_seats env n fids s1) as [[ok|err] s2] eqn:Hver.
  - apply verify_seats_locks in Hver as (k & Hk & Hall).
    intros Hrun. pose proof (Hrest ok s2) as Hl. rewrite Hrun in Hl. simpl in Hl.
    exists k. rewrite Hl. split; [by rewrite Hk, Hst|].
    intros bid ->. destruct ok.
    + rewrite <- Hst. by apply Hall.
    + exfalso. apply (Hfalse bid s2). by rewrite Hrun.
  - apply verify_seats_locks in Hver as (k & Hk & Hall).
    intros [= <- <-]. exists k. rewrite Hk, Hst. done.
Qed.

(** C8, as the code behaves: the legs are locked and checked in the order
    of the list passed in.  The rows requested [FOR UPDATE] are always a
    prefix of [flight_ids], in that order, and the whole of it whenever a
    booking id is returned. *)
Theorem save_booking_locks_in_list_order (env : Env) (srv : Server)
    (d : UserDetails) (pax : list PassengerDetails) (fids : list Z) (total : Z) :
  save_booking_locks env srv d pax fids total `prefix_of` fids ∧
  ∀ bid, (save_booking env srv d pax fids total).1.1 = Some bid →
         save_booking_locks env srv d pax fids total = fids.
Proof.
  unfold save_booking_locks, save_booking, save_booking_run.
  destruct (connects env); [|split; [apply prefix_nil|done]].
  destruct (save_booking_try env d pax fids total (open_session srv))
    as [out s] eqn:Hrun.
  apply save_booking_try_locks in Hrun as (k & Hk & Hall). simpl in *.
  split; [rewrite Hk; apply prefix_take|].
  destruct out as [[bid|]|err]; simpl; [|done|done].
  intros _ _. by apply (Hall bid).
Qed.

(** C8 as stated does not hold: asked for legs 11 then 10, [save_booking]
    locks 11 first, which is not ascending order. *)
Lemma save_booking_locks_not_ascending :
  let srv := mkServer (mkTables [mkFlight 10 "A" "B" 100 5; mkFlight 11 "B" "C" 50 5]
                                [] [] [] []) 1 1 in
  let d := mkUserDetails "Ann" "Lee" "ann@example.org" None in
  let pax := [mkPassengerDetails "Ann" "Lee" 30] in
  save_booking_locks healthy srv d pax [11; 10] 150 = [11; 10] ∧
  ¬ Sorted Z.le (save_booking_locks healthy srv d pax [11; 10] 150).
Proof.
  intros srv d pax. split; [reflexivity|].
  change (¬ Sorted Z.le [11; 10]).
  intros H. inversion H as [|? ? _ Hd]; subst.
  inversion Hd as [|? ? Hle]; subst. lia.
Qed.

(* --------------------------------------------------------------------- *)
(** ** Cancellation *)

(** The passenger count recorded in [booking_flights] for booking [bid] on
    flight [fid] (summed, should several rows associate the two). *)
Definition recorded (t : Tables) (bid fid : Z) : Z :=
  foldr (fun r acc =>
           if bool_decide (leg_booking_id r = bid) && (leg_flight_id r =? fid)
           then num_passengers r + acc else acc)
        0 (booking_flights t).

Definition cancel_row (bid : Z) (b : Booking) : Booking :=
  if booking_id b =? bid
  then mkBooking (booking_id b) (booking_user_id b) (total_price b) CANCELLED
                 (travel_purpose b)
  else b.

(** The tables after a cancellation of [bid] that went through. *)
Definition cancelled_tables (t : Tables) (bid : Z) : Tables :=
  mkTables
    (map (fun f => set_seats f (available_seats f + recorded t bid (flight_id f)))
         (flights t))
    (users t) (map (cancel_row bid) (bookings t)) (passengers t)
    (booking_flights t).

Lemma credit_recorded t bid fid :
  credit (map (fun r => (leg_flight_id r, num_passengers r))
              (filter (fun r => leg_booking_id r = bid) (booking_flights t))) fid
  = recorded t bid fid.
Proof.
  unfold recorded. induction (booking_flights t) as [|r rows IH]; simpl; [done|].
  rewrite filter_cons. destruct (decide (leg_booking_id r = bid)) as [Hb|Hb].
  - rewrite bool_decide_eq_true_2 by done. simpl. by rewrite IH.
  - rewrite bool_decide_eq_false_2 by done. simpl. apply IH.
Qed.

Lemma cancel_healthy {V : Type} srv (cache : gmap string V) bid email :
  cancel_booking_in_db healthy srv cache bid email =
    (true,
     mkServer (cancelled_tables (committed srv) bid)
              (next_user_id srv) (next_booking_id srv),
     delete email cache).
Proof.
  unfold cancel_booking_in_db, cancel_booking_try. simpl.
  unfold tx_bind at 1. rewrite statement_healthy.
  unfold tx_bind at 1. unfold select_legs, tx_bind at 1.
  rewrite statement_healthy. simpl.
  unfold tx_bind at 1. rewrite restore_seats_healthy. simpl.
  rewrite apply_deltas_spec.
  unfold tx_bind, mark_cancelled, commit, tx_bind. simpl.
  unfold close_session, cancelled_tables. simpl.
  do 3 f_equal. f_equal. apply map_ext. intros f. by rewrite credit_recorded.
Qed.

(** Whatever the datastore does, a cancellation ends as it does against a
    datastore that answers, or it returns [False] with the committed tables
    and the cache as they were. *)
Lemma cancel_outcomes {V : Type} env srv (cache : gmap string V) bid email :
  cancel_booking_in_db env srv cache bid email
    = cancel_booking_in_db healthy srv cache bid email
  ∨ ∃ srv', cancel_booking_in_db env srv cache bid email = (false, srv', cache) ∧
            committed srv' = committed srv.
Proof.
  unfold cancel_booking_in_db.
  destruct (connects env); [|right; by exists srv]. simpl.
  destruct (cancel_booking_try_refines env bid (open_session srv))
    as [->|(err & s' & -> & Hs')]; [by left|].
  right. eexists. split; [done|]. simpl. by rewrite Hs'.
Qed.

Lemma set_seats_same f : set_seats f (available_seats f) = f.
Proof. by destruct f. Qed.

(** Cancelling a booking that was just made gives every flight row back
    what the booking took, provided the booking's id was not already in use
    in [booking_flights]. *)
Lemma cancelled_booked_flights t fresh_user uid bid d pax fids total :
  (∀ r, r ∈ booking_flights t → leg_booking_id r ≠ bid) →
  flights (cancelled_tables
             (booked_tables t fresh_user uid bid d pax fids total) bid)
  = flights t.
Proof.
  intros Hfresh. unfold cancelled_tables, recorded, booked_tables. simpl.
  rewrite map_map. rewrite <- (map_id (flights t)) at 2.
  apply map_ext. intros f. simpl.
  rewrite foldr_app.
  set (n := Z.of_nat (length pax)).
  assert (foldr (fun r acc =>
            if bool_decide (leg_booking_id r = bid) && (leg_flight_id r =? flight_id f)
            then num_passengers r + acc else acc) 0
            (map (fun fid => mkBookingFlight bid fid n) fids)
          = n * Z.of_nat (count_occ Z.eq_dec fids (flight_id f))) as ->.
  { induction fids as [|x fids IH]; simpl; [lia|].
    rewrite bool_decide_eq_true_2 by done. simpl.
    destruct (Z.eq_dec x (flight_id f)) as [->|Hne].
    - rewrite Z.eqb_refl, IH. lia.
    - apply Z.eqb_neq in Hne. rewrite Hne. apply IH. }
  assert (∀ acc, foldr (fun r acc =>
            if bool_decide (leg_booking_id r = bid) && (leg_flight_id r =? flight_id f)
            then num_passengers r + acc else acc) acc (booking_flights t) = acc) as ->.
  { intros acc. induction (booking_flights t) as [|r rows IH]; simpl; [done|].
    rewrite bool_decide_eq_false_2; simpl.
    - apply IH. intros r' Hr'. apply Hfresh. by right.
    - apply Hfresh. by left. }
  replace (available_seats f - n * Z.of_nat (count_occ Z.eq_dec fids (flight_id f))
           + n * Z.of_nat (count_occ Z.eq_dec fids (flight_id f)))
    with (available_seats f) by lia.
  by destruct f.
Qed.

Lemma save_booking_success_inv env srv d pax fids total bid msg srv' :
  save_booking env srv d pax fids total = ((Some bid, msg), srv') →
  bid = next_booking_id srv ∧
  committed srv' =
    booked_tables (committed srv) (next_user_id srv)
      (user_id_after (users (committed srv)) (next_user_id srv) d)
      (next_booking_id srv) d pax fids total.
Proof.
  intros Hrun.
  assert (save_booking healthy srv d pax fids total = ((Some bid, msg), srv')) as Hh.
  { destruct (save_booking_outcomes env srv d pax fids total) as [<-|[Hnone _]]; [done|].
    by rewrite Hrun in Hnone. }
  destruct (save_booking_healthy_atomic srv d pax fids total) as [[Hnone _]|[Hid Htab]].
  - by rewrite Hh in Hnone.
  - rewrite Hh in Hid, Htab. simpl in *. by injection Hid as -> _.
Qed.

Lemma cancel_success_inv {V : Type} env srv (cache cache' : gmap string V)
    bid email srv' :
  cancel_booking_in_db env srv cache bid email = (true, srv', cache') →
  committed srv' = cancelled_tables (committed srv) bid.
Proof.
  intros Hrun.
  destruct (cancel_outcomes env srv cache bid email) as [Hh|(srv1 & Hf & _)].
  - rewrite Hrun, cancel_healthy in Hh. by injection Hh as -> _.
  - rewrite Hrun in Hf. by injection Hf.
Qed.

Lemma cancel_row_status bid b b' :
  b' = cancel_row bid b → booking_id b' = bid → status b' = CANCELLED.
Proof.
  intros -> Hid. unfold cancel_row in *.
  destruct (booking_id b =? bid) eqn:Hb; [done|].
  apply Z.eqb_neq in Hb. done.
Qed.

(** C3: cancelling a CONFIRMED booking (against a datastore that answers)
    succeeds, adds to every flight row exactly the passenger count recorded
    for it under this booking in [booking_flights], and turns the booking's
    status into CANCELLED.  Hence, when the booking is one that
    [save_booking] has just made, from tables in which its id was not in use
    yet, cancelling it puts every flight row back to what it was before the
    booking. *)
Theorem cancel_restores_booked_seats {V : Type} (srv : Server)
    (cache : gmap string V) (email : string) (b : Booking) :
  b ∈ bookings (committed srv) → status b = CONFIRMED →
  let bid := booking_id b in
  let r := cancel_booking_in_db healthy srv cache bid email in
  r.1.1 = true ∧
  flights (committed r.1.2)
    = map (fun f => set_seats f (available_seats f
                                 + recorded (committed srv) bid (flight_id f)))
          (flights (committed srv)) ∧
  mkBooking bid (booking_user_id b) (total_price b) CANCELLED (travel_purpose b)
    ∈ bookings (committed r.1.2) ∧
  (∀ b', b' ∈ bookings (committed r.1.2) → booking_id b' = bid →
         status b' = CANCELLED) ∧
  (∀ env1 env2 srv0 d pax fids total msg srv2 cache2,
     (∀ row, row ∈ booking_flights (committed srv0) →
             leg_booking_id row ≠ next_booking_id srv0) →
     save_booking env1 srv0 d pax fids total = ((Some bid, msg), srv) →
     cancel_booking_in_db env2 srv cache bid email = (true, srv2, cache2) →
     flights (committed srv2) = flights (committed srv0)).
Proof.
  intros Hin Hst bid r. subst r. rewrite cancel_healthy. simpl.
  split_and!; [done|done| | |].
  - apply list_elem_of_fmap. exists b. split; [|done].
    unfold cancel_row. fold bid. by rewrite Z.eqb_refl.
  - intros b' Hb' Hid. apply list_elem_of_fmap in Hb' as (b0 & Hb0 & _).
    by eapply cancel_row_status.
  - intros env1 env2 srv0 d pax fids total msg srv2 cache2 Hfresh Hbook Hcancel.
    apply save_booking_success_inv in Hbook as [Hbid Htab].
    apply cancel_success_inv in Hcancel. rewrite Hcancel, Htab, Hbid.
    by apply cancelled_booked_flights.
Qed.

Lemma cancel_restores_booked_seats_witness :
  let srv0 := mkServer (mkTables [mkFlight 10 "A" "B" 100 5; mkFlight 11 "B" "C" 50 4]
                                 [] [] [] []) 1 1 in
  let d := mkUserDetails "Ann" "Lee" "ann@example.org" None in
  let pax := [mkPassengerDetails "Ann" "Lee" 30; mkPassengerDetails "Bo" "Lee" 31;
              mkPassengerDetails "Cy" "Lee" 5] in
  let srv := (save_booking healthy srv0 d pax [10; 11] 450).2 in
  map available_seats (flights (committed srv)) = [2; 1] ∧
  (cancel_booking_in_db healthy srv (∅ : gmap string nat) 1 "ann@example.org").1.1
    = true ∧
  flights (committed
    (cancel_booking_in_db healthy srv (∅ : gmap string nat) 1 "ann@example.org").1.2)
    = flights (committed srv0).
Proof.
  intros srv0 d pax srv.
  destruct (cancel_restores_booked_seats srv (∅ : gmap string nat)
              "ann@example.org" (mkBooking 1 1 450 CONFIRMED None))
    as (Hok & _ & _ & _ & Hround).
  { vm_compute. repeat constructor. }
  { reflexivity. }
  split_and!.
  - reflexivity.
  - exact Hok.
  - apply (Hround healthy healthy srv0 d pax [10; 11] 450 "Booking successful!"
                   _ (delete "ann@example.org" (∅ : gmap string nat))).
    + intros row Hrow. vm_compute in Hrow. inversion Hrow.
    + vm_compute. reflexivity.
    + vm_compute. reflexivity.
Defined.

(** [cancel_booking_in_db] never reads the status.  Called for a booking
    that is already CANCELLED (against a datastore that answers) it succeeds
    again, leaves the booking as it is, and adds the recorded passenger
    counts to the flight rows once more. *)
Theorem cancel_of_cancelled_credits_again {V : Type} (srv : Server)
    (cache : gmap string V) (email : string) (b : Booking) :
  b ∈ bookings (committed srv) → status b = CANCELLED →
  let bid := booking_id b in
  let r := cancel_booking_in_db healthy srv cache bid email in
  r.1.1 = true ∧
  flights (committed r.1.2)
    = map (fun f => set_seats f (available_seats f
                                 + recorded (committed srv) bid (flight_id f)))
          (flights (committed srv)) ∧
  b ∈ bookings (committed r.1.2).
Proof.
  intros Hin Hst bid r. subst r. rewrite cancel_healthy. simpl.
  split_and!; [done|done|].
  apply list_elem_of_fmap. exists b. split; [|done].
  unfold cancel_row. fold bid. rewrite Z.eqb_refl. destruct b. simpl in *. by subst.
Qed.

Lemma cancel_of_cancelled_credits_again_witness :
  let srv := mkServer (mkTables [mkFlight 10 "A" "B" 100 5]
                                [mkUser 1 "Ann" "Lee" "ann@example.org"]
                                [mkBooking 1 1 300 CANCELLED None]
                                [mkPassenger 1 "Ann" "Lee" 30]
                                [mkBookingFlight 1 10 3]) 2 2 in
  map available_seats
    (flights (committed
       (cancel_booking_in_db healthy srv (∅ : gmap string nat) 1
                             "ann@example.org").1.2))
  = [8].
Proof.
  intros srv.
  destruct (cancel_of_cancelled_credits_again srv (∅ : gmap string nat)
              "ann@example.org" (mkBooking 1 1 300 CANCELLED None))
    as (_ & Hfl & _).
  { vm_compute. repeat constructor. }
  { reflexivity. }
  etransitivity; [exact (f_equal (map available_seats) Hfl)|].
  vm_compute. reflexivity.
Defined.

(** At a concrete state: a second cancellation of a CANCELLED booking is
    accepted and is no no-op; the three seats recorded for the booking are
    added to flight 10 again, taking it from 5 to 8. *)
Lemma cancel_twice_credits_twice :
  let srv := mkServer (mkTables [mkFlight 10 "A" "B" 100 5]
                                [mkUser 1 "Ann" "Lee" "ann@example.org"]
                                [mkBooking 1 1 300 CANCELLED None]
                                [mkPassenger 1 "Ann" "Lee" 30]
                                [mkBookingFlight 1 10 3]) 2 2 in
  let r := cancel_booking_in_db healthy srv (∅ : gmap string nat) 1
                                "ann@example.org" in
  r.1.1 = true ∧
  map status (bookings (committed srv)) = [CANCELLED] ∧
  map available_seats (flights (committed srv)) = [5] ∧
  map available_seats (flights (committed r.1.2)) = [8].
Proof. intros srv r. split_and!; reflexivity. Qed.

(** C4: the code credits the seats of a cancelled booking a second time.
    One passenger is booked on flight 10 (5 seats, then 4), the booking is
    cancelled (5 again, status CANCELLED), and [cancel_booking_in_db] is
    called once more for the same id, as the bookings page does when its
    list still shows the booking as CONFIRMED: the call returns [True] and
    the flight has 6 seats, one more than it ever had. *)
Lemma cancel_twice_after_booking :
  let srv := mkServer (mkTables [mkFlight 10 "A" "B" 100 5] [] [] [] []) 1 1 in
  let d := mkUserDetails "Ann" "Lee" "ann@example.org" None in
  let pax := [mkPassengerDetails "Ann" "Lee" 30] in
  let booked := save_booking healthy srv d pax [10] 100 in
  let once := cancel_booking_in_db healthy booked.2 (∅ : gmap string nat) 1
                                   "ann@example.org" in
  let twice := cancel_booking_in_db healthy once.1.2 once.2 1 "ann@example.org" in
  booked.1.1 = Some 1 ∧
  map available_seats (flights (committed booked.2)) = [4] ∧
  once.1.1 = true ∧
  map available_seats (flights (committed once.1.2)) = [5] ∧
  map status (bookings (committed once.1.2)) = [CANCELLED] ∧
  twice.1.1 = true ∧
  map status (bookings (committed twice.1.2)) = [CANCELLED] ∧
  map available_seats (flights (committed twice.1.2)) = [6].
Proof. intros srv d pax booked once twice. split_and!; vm_compute; reflexivity. Qed.

(* --------------------------------------------------------------------- *)
(** ** Booking ids are never reused *)

(** The premise of the book-then-cancel round trip: no association row
    carries an id that the [bookings] counter has yet to hand out. *)
Definition ids_fresh (srv : Server) : Prop :=
  ∀ row, row ∈ booking_flights (committed srv) →
         leg_booking_id row < next_booking_id srv.

Definition counter_grows {A : Type} (m : Tx A) : Prop :=
  ∀ s, auto_booking s ≤ auto_booking (m s).2.

(** Steps that leave the counter alone. *)
Ltac counter_untouched := let s := fresh "s" in intros s; simpl; lia.

Lemma counter_grows_bind {A B : Type} (m : Tx A) (k : A → Tx B) :
  counter_grows m → (∀ a, counter_grows (k a)) → counter_grows (tx_bind m k).
Proof.
  intros Hm Hk s. unfold tx_bind. specialize (Hm s).
  destruct (m s) as [[a|err] s1]; simpl in *; [|done].
  specialize (Hk a s1). lia.
Qed.

Lemma counter_grows_statement env : counter_grows (statement env).
Proof.
  intros s. unfold statement.
  destruct (fails_at env) as [[k err]|]; [|simpl; lia].
  destruct (executed s =? k)%nat; simpl; lia.
Qed.

Lemma counter_grows_after_statement {A : Type} env (m : Tx A) :
  counter_grows m → counter_grows (statement env ;; m).
Proof. intros Hm. apply counter_grows_bind; [apply counter_grows_statement|done]. Qed.

Lemma counter_grows_verify_seats env n fids : counter_grows (verify_seats env n fids).
Proof.
  induction fids as [|fid fids IH]; simpl; [counter_untouched|].
  apply counter_grows_bind.
  { apply counter_grows_after_statement. counter_untouched. }
  intros [seats|]; [|counter_untouched].
  destruct (seats <? n); [counter_untouched|done].
Qed.

Lemma counter_grows_deduct_seats env n fids : counter_grows (deduct_seats env n fids).
Proof.
  induction fids as [|fid fids IH]; simpl; [counter_untouched|].
  apply counter_grows_after_statement.
  apply counter_grows_bind; [counter_untouched|done].
Qed.

Lemma counter_grows_link_flights env bid n fids :
  counter_grows (link_flights env bid n fids).
Proof.
  induction fids as [|fid fids IH]; simpl; [counter_untouched|].
  apply counter_grows_bind; [|done].
  apply counter_grows_after_statement. counter_untouched.
Qed.

Lemma counter_grows_restore_seats env rows : counter_grows (restore_seats env rows).
Proof.
  induction rows as [|[fid n] rows IH]; simpl; [counter_untouched|].
  apply counter_grows_after_statement.
  apply counter_grows_bind; [counter_untouched|done].
Qed.

Lemma counter_grows_save_booking_try env d pax fids total :
  counter_grows (save_booking_try env d pax fids total).
Proof.
  unfold save_booking_try. apply counter_grows_after_statement.
  apply counter_grows_bind; [apply counter_grows_verify_seats|]. intros [|].
  - apply counter_grows_bind; [apply counter_grows_deduct_seats|]. intros _.
    apply counter_grows_bind.
    { apply counter_grows_after_statement. intros s. simpl.
      destruct (List.find _ (users (work s))); simpl; lia. }
    intros uid. apply counter_grows_bind.
    { destruct (uid =? 0); counter_untouched. }
    intros user_id. apply counter_grows_bind.
    { apply counter_grows_after_statement. counter_untouched. }
    intros bid. apply counter_grows_bind.
    { apply counter_grows_after_statement. counter_untouched. }
    intros _. apply counter_grows_bind; [apply counter_grows_link_flights|]. intros _.
    apply counter_grows_bind; [|intros _; counter_untouched].
    apply counter_grows_after_statement. counter_untouched.
  - apply counter_grows_after_statement. counter_untouched.
Qed.

Lemma counter_grows_cancel_booking_try env bid :
  counter_grows (cancel_booking_try env bid).
Proof.
  unfold cancel_booking_try. apply counter_grows_after_statement.
  apply counter_grows_bind.
  { apply counter_grows_after_statement. counter_untouched. }
  intros rows.
  apply counter_grows_bind; [apply counter_grows_restore_seats|]. intros _.
  apply counter_grows_bind.
  { apply counter_grows_after_statement. counter_untouched. }
  intros _. apply counter_grows_after_statement. counter_untouched.
Qed.

Lemma ids_fresh_empty n m : ids_fresh (mkServer (mkTables [] [] [] [] []) n m).
Proof. by intros row ?%elem_of_nil. Qed.

Lemma save_booking_counter env srv d pax fids total :
  next_booking_id srv ≤ next_booking_id (save_booking env srv d pax fids total).2.
Proof.
  unfold save_booking, save_booking_run.
  destruct (connects env); [|simpl; lia].
  pose proof (counter_grows_save_booking_try env d pax fids total (open_session srv))
    as Hgrow.
  destruct (save_booking_try env d pax fids total (open_session srv))
    as [[[bid|]|err] s]; simpl in *; lia.
Qed.

Lemma cancel_counter {V : Type} env srv (cache : gmap string V) bid email :
  next_booking_id srv
  ≤ next_booking_id (cancel_booking_in_db env srv cache bid email).1.2.
Proof.
  unfold cancel_booking_in_db.
  destruct (connects env); [|simpl; lia].
  pose proof (counter_grows_cancel_booking_try env bid (open_session srv)) as Hgrow.
  destruct (cancel_booking_try env bid (open_session srv)) as [[[]|err] s];
    simpl in *; lia.
Qed.

(** Freshness holds in every state the two transactions can reach, whatever
    the datastore does in between. *)
Lemma ids_fresh_save_booking env srv d pax fids total :
  ids_fresh srv → ids_fresh (save_booking env srv d pax fids total).2.
Proof.
  intros Hfresh row Hrow.
  pose proof (save_booking_counter env srv d pax fids total) as Hgrow.
  destruct (save_booking_outcomes env srv d pax fids total) as [Heq|[_ Hsame]].
  - rewrite Heq in *.
    destruct (forallb (enough (committed srv) (Z.of_nat (length pax))) fids) eqn:Hall.
    + destruct (decide (user_id_after (users (committed srv)) (next_user_id srv) d = 0))
        as [Hz|Hnz].
      * destruct (save_booking_healthy_no_key srv d pax fids total Hall Hz)
          as (msg & counter & Hh).
        rewrite Hh in *. simpl in *. by apply Hfresh.
      * rewrite (save_booking_healthy_booked srv d pax fids total Hall Hnz) in *.
        simpl in *. apply elem_of_app in Hrow as [Hrow|Hrow].
        -- specialize (Hfresh row Hrow). lia.
        -- apply list_elem_of_fmap in Hrow as (fid & -> & _). simpl. lia.
    + rewrite (save_booking_healthy_refused srv d pax fids total Hall) in *.
      simpl in *. by apply Hfresh.
  - rewrite Hsame in Hrow. specialize (Hfresh row Hrow). lia.
Qed.

Lemma ids_fresh_cancel {V : Type} env srv (cache : gmap string V) bid email :
  ids_fresh srv → ids_fresh (cancel_booking_in_db env srv cache bid email).1.2.
Proof.
  intros Hfresh row Hrow.
  pose proof (cancel_counter env srv cache bid email) as Hgrow.
  destruct (cancel_outcomes env srv cache bid email) as [Heq|(srv' & Heq & Hsame)].
  - rewrite Heq, cancel_healthy in *. simpl in *. by apply Hfresh.
  - rewrite Heq in *. simpl in *. rewrite Hsame in Hrow.
    specialize (Hfresh row Hrow). lia.
Qed.

(* --------------------------------------------------------------------- *)
(** ** Airport trie *)

Lemma TrieNode_ind (P : TrieNode → Prop) :
  (∀ cs e w, Forall (fun p => P p.2) cs → P (mkTrieNode cs e w)) →
  ∀ n, P n.
Proof.
  intros Hnode. fix IH 1. intros [cs e w]. apply Hnode.
  revert cs. fix IHcs 1. intros [|[c ch] cs]; constructor.
  - apply IH.
  - apply IHcs.
Qed.

(** No node has two children under the same character. *)
#[local] Unset Elimination Schemes.
Inductive keys_ok : TrieNode → Prop :=
  | keys_ok_node cs e w :
      NoDup (map fst cs) → Forall (fun p => keys_ok p.2) cs →
      keys_ok (mkTrieNode cs e w).
#[local] Set Elimination Schemes.

(** A word ends at the node reached from [n] along [path], and that node
    stores [x]. *)
Definition ends_at (n : TrieNode) (path : string) (x : option string) : Prop :=
  ∃ m, descend n path = Some m ∧ is_end_of_word m = true ∧ word m = x.

(** *** Strings *)

Lemma append_cons (x : ascii) (a b : string) :
  String.append (String x a) b = String x (String.append a b).
Proof. reflexivity. Qed.

Lemma append_assoc (a b c : string) :
  String.append (String.append a b) c = String.append a (String.append b c).
Proof.
  induction a as [|x a IH]; [done|]. rewrite !append_cons. by rewrite IH.
Qed.

Lemma append_nil_r (a : string) : String.append a EmptyString = a.
Proof. induction a as [|x a IH]; [done|]. rewrite append_cons. by rewrite IH. Qed.

Lemma append_inj_r (a b c : string) :
  String.append a b = String.append a c → b = c.
Proof.
  induction a as [|x a IH]; [done|]. rewrite !append_cons.
  intros [= H]. by apply IH.
Qed.

Lemma append_length (a b : string) :
  String.length (String.append a b) = (String.length a + String.length b)%nat.
Proof.
  induction a as [|x a IH]; [done|]. rewrite append_cons. simpl. by rewrite IH.
Qed.

Lemma append_cons_ne (a : string) (c : ascii) (b : string) :
  String.append a (String c b) ≠ a.
Proof.
  intros H. apply (f_equal String.length) in H.
  rewrite append_length in H. simpl in H. lia.
Qed.

Lemma prefix_append (p w : string) :
  String.prefix p w = true ↔ ∃ r, w = String.append p r.
Proof.
  revert w. induction p as [|c p IH]; intros w; simpl.
  - split; [intros _; by exists w|by destruct w].
  - destruct w as [|c' w]; [split; [done|by intros [r Hr]]|]. simpl.
    destruct (ascii_dec c c') as [->|Hne].
    + rewrite IH. split; intros [r Hr]; exists r.
      * by rewrite Hr.
      * rewrite append_cons in Hr. by injection Hr.
    + split; [done|]. intros [r Hr]. rewrite append_cons in Hr.
      injection Hr as Hc _. by destruct Hne.
Qed.

(** *** The dictionary of children *)

Lemma dict_get_set_eq {V : Type} c (v : V) d : dict_get c (dict_set c v d) = Some v.
Proof.
  induction d as [|[c' v'] d IH]; simpl.
  - by rewrite decide_True.
  - destruct (decide (c' = c)); simpl.
    + by rewrite decide_True.
    + by rewrite decide_False.
Qed.

Lemma dict_get_set_ne {V : Type} c c' (v : V) d :
  c ≠ c' → dict_get c' (dict_set c v d) = dict_get c' d.
Proof.
  intros Hne. induction d as [|[c0 v0] d IH]; simpl.
  - by rewrite decide_False.
  - destruct (decide (c0 = c)) as [->|]; simpl.
    + by rewrite !decide_False.
    + by rewrite IH.
Qed.

Lemma dict_get_elem {V : Type} c (v : V) d : dict_get c d = Some v → (c, v) ∈ d.
Proof.
  induction d as [|[c' v'] d IH]; simpl; [done|].
  destruct (decide (c' = c)) as [->|].
  - intros [= ->]. by left.
  - intros H. right. by apply IH.
Qed.

Lemma dict_get_unique {V : Type} c (v : V) d :
  NoDup (map fst d) → (c, v) ∈ d → dict_get c d = Some v.
Proof.
  induction d as [|[c' v'] d IH]; simpl; [by intros _ H%elem_of_nil|].
  intros Hnd Hin. apply NoDup_cons in Hnd as [Hnotin Hnd].
  apply elem_of_cons in Hin as [[= <- <-]|Hin].
  - by rewrite decide_True.
  - destruct (decide (c' = c)) as [->|]; [|by apply IH].
    destruct Hnotin. apply list_elem_of_fmap. by exists (c, v).
Qed.

Lemma dict_set_elem {V : Type} c (v : V) d c' v' :
  (c', v') ∈ dict_set c v d → (c' = c ∧ v' = v) ∨ (c', v') ∈ d.
Proof.
  induction d as [|[c0 v0] d IH]; simpl.
  - intros [[= -> ->]|H%elem_of_nil]%elem_of_cons; [by left|done].
  - destruct (decide (c0 = c)) as [->|].
    + intros [[= -> ->]|H]%elem_of_cons; [by left|]. right. by right.
    + intros [[= -> ->]|H]%elem_of_cons; [right; by left|].
      destruct (IH H) as [?|?]; [by left|]. right. by right.
Qed.

Lemma dict_set_keys {V : Type} c (v : V) d :
  NoDup (map fst d) → NoDup (map fst (dict_set c v d)).
Proof.
  induction d as [|[c0 v0] d IH]; simpl.
  - intros _. apply NoDup_singleton.
  - intros [Hnotin Hnd]%NoDup_cons.
    destruct (decide (c0 = c)) as [->|Hne]; simpl.
    + by apply NoDup_cons.
    + apply NoDup_cons. split; [|by apply IH].
      intros Hin. apply list_elem_of_fmap in Hin as ([c1 v1] & -> & Hin).
      apply dict_set_elem in Hin as [[-> _]|Hin]; [done|].
      apply Hnotin. apply list_elem_of_fmap. by exists (c1, v1).
Qed.

(** *** What [_collect_all_words] gathers *)

Lemma collect_fold_acc (cs : list (ascii * TrieNode)) (acc : list (option string)) :
  Forall (fun p => ∀ acc, collect_all_words p.2 acc
                          = acc ++ collect_all_words p.2 []) cs →
  fold_left (fun acc child => collect_all_words child.2 acc) cs acc
  = acc ++ fold_left (fun acc child => collect_all_words child.2 acc) cs [].
Proof.
  intros Hcs. revert acc. induction Hcs as [|p cs Hp Hcs IH]; intros acc; simpl.
  - by rewrite app_nil_r.
  - rewrite IH. rewrite (IH (collect_all_words p.2 [])).
    rewrite Hp. by rewrite app_assoc.
Qed.

Lemma collect_all_words_acc (n : TrieNode) (acc : list (option string)) :
  collect_all_words n acc = acc ++ collect_all_words n [].
Proof.
  revert acc. induction n as [cs e w IH] using TrieNode_ind. intros acc. simpl.
  rewrite collect_fold_acc by done.
  rewrite (collect_fold_acc cs (if e then [w] else [])) by done.
  destruct e; simpl; [|done]. by rewrite <- app_assoc.
Qed.

Lemma collect_all_words_node cs e w :
  collect_all_words (mkTrieNode cs e w) []
  = (if e then [w] else []) ++ flat_map (fun p => collect_all_words p.2 []) cs.
Proof.
  simpl. rewrite collect_fold_acc.
  2:{ apply Forall_forall. intros p _ acc. apply collect_all_words_acc. }
  f_equal.
  induction cs as [|p cs IH]; simpl; [done|].
  rewrite collect_fold_acc.
  2:{ apply Forall_forall. intros q _ acc. apply collect_all_words_acc. }
  by rewrite IH.
Qed.

Lemma ends_at_nil n x :
  ends_at n EmptyString x ↔ is_end_of_word n = true ∧ word n = x.
Proof.
  unfold ends_at. simpl. split.
  - by intros (m & [= <-] & ?).
  - intros [? ?]. by exists n.
Qed.

Lemma ends_at_cons n c path x :
  ends_at n (String c path) x ↔
  ∃ child, dict_get c (children n) = Some child ∧ ends_at child path x.
Proof.
  unfold ends_at. simpl. destruct (dict_get c (children n)) as [child|].
  - split.
    + intros (m & ? & ?). exists child. split; [done|]. by exists m.
    + by intros (ch & [= <-] & ?).
  - split; [by intros (m & ? & ?)|by intros (ch & ? & ?)].
Qed.

(** With distinct keys, the collected list holds exactly what is stored at
    the word ends below the node. *)
Lemma collect_all_words_elem n x :
  keys_ok n →
  x ∈ collect_all_words n [] ↔ ∃ path, ends_at n path x.
Proof.
  induction n as [cs e w IH] using TrieNode_ind. intros Hok.
  inversion Hok as [? ? ? Hnd Hcs]; subst.
  rewrite collect_all_words_node, elem_of_app. split.
  - intros [Hx|Hx].
    + exists EmptyString. apply ends_at_nil. simpl.
      destruct e; [|by apply elem_of_nil in Hx].
      apply list_elem_of_singleton in Hx. by subst.
    + apply list_elem_of_In, in_flat_map in Hx as ([c ch] & Hin & Hx).
      apply list_elem_of_In in Hin, Hx.
      rewrite Forall_forall in IH, Hcs.
      apply (IH _ Hin) in Hx as [path Hpath]; [|by apply (Hcs _ Hin)].
      exists (String c path). apply ends_at_cons. exists ch. split; [|done].
      by apply dict_get_unique.
  - intros [[|c path] Hpath].
    + apply ends_at_nil in Hpath as [He Hw]. simpl in *. subst. left. by left.
    + apply ends_at_cons in Hpath as (ch & Hget & Hpath). simpl in Hget.
      apply dict_get_elem in Hget. right.
      apply list_elem_of_In, in_flat_map. exists (c, ch).
      split; [by apply list_elem_of_In|]. apply list_elem_of_In.
      rewrite Forall_forall in IH, Hcs.
      apply (IH _ Hget); [by apply (Hcs _ Hget)|]. by exists path.
Qed.

(** Every word end below [n] stores the path to it, prefixed by [pre]. *)
Definition labelled (pre : string) (n : TrieNode) : Prop :=
  ∀ path x, ends_at n path x → x = Some (String.append pre path).

Lemma NoDup_flat_map_keys {B : Type} (f : ascii * TrieNode → list B)
    (cs : list (ascii * TrieNode)) :
  NoDup (map fst cs) →
  (∀ p, p ∈ cs → NoDup (f p)) →
  (∀ p q x, p ∈ cs → q ∈ cs → x ∈ f p → x ∈ f q → p.1 = q.1) →
  NoDup (flat_map f cs).
Proof.
  induction cs as [|p cs IH]; simpl; [intros; apply NoDup_nil_2|].
  intros [Hnotin Hnd]%NoDup_cons Hf Hdisj.
  apply NoDup_app. split_and!.
  - apply Hf. by left.
  - intros x Hp Hx. apply list_elem_of_In, in_flat_map in Hx as (q & Hq & Hx).
    apply list_elem_of_In in Hq, Hx.
    apply Hnotin. apply list_elem_of_fmap. exists q. split; [|done].
    apply (Hdisj p q x); [by left|by right|done|done].
  - apply IH; [done| |].
    + intros q Hq. apply Hf. by right.
    + intros q1 q2 x H1 H2. apply Hdisj; by right.
Qed.

Lemma collect_all_words_NoDup pre n :
  keys_ok n → labelled pre n → NoDup (collect_all_words n []).
Proof.
  revert pre. induction n as [cs e w IH] using TrieNode_ind. intros pre Hok Hlab.
  inversion Hok as [? ? ? Hnd Hcs]; subst.
  rewrite Forall_forall in IH, Hcs.
  assert (∀ c ch, (c, ch) ∈ cs →
            labelled (String.append pre (String c EmptyString)) ch) as Hchild.
  { intros c ch Hin path x Hx. rewrite append_assoc. rewrite append_cons. simpl.
    apply Hlab. apply ends_at_cons. exists ch. split; [|done].
    by apply dict_get_unique. }
  assert (∀ c ch x, (c, ch) ∈ cs → x ∈ collect_all_words ch [] →
            ∃ path, x = Some (String.append pre (String c path))) as Hform.
  { intros c ch x Hin Hx.
    apply collect_all_words_elem in Hx as [path Hpath]; [|by apply (Hcs _ Hin)].
    exists path. apply (Hchild c ch Hin) in Hpath.
    by rewrite append_assoc, append_cons in Hpath. }
  rewrite collect_all_words_node. apply NoDup_app. split_and!.
  - destruct e; [apply NoDup_singleton|apply NoDup_nil_2].
  - intros x Hx Hx'. destruct e; [|by apply elem_of_nil in Hx].
    apply list_elem_of_singleton in Hx. subst x.
    assert (w = Some (String.append pre EmptyString)) as Hw.
    { apply Hlab. by apply ends_at_nil. }
    rewrite append_nil_r in Hw.
    apply list_elem_of_In, in_flat_map in Hx' as ([c ch] & Hin & Hx').
    apply list_elem_of_In in Hin, Hx'.
    destruct (Hform c ch w Hin Hx') as [path Hpath].
    rewrite Hw in Hpath. injection Hpath as Hpath.
    symmetry in Hpath. by apply append_cons_ne in Hpath.
  - apply NoDup_flat_map_keys; [done| |].
    + intros [c ch] Hin. apply (IH _ Hin (String.append pre (String c EmptyString))).
      * by apply (Hcs _ Hin).
      * by apply Hchild.
    + intros [c1 ch1] [c2 ch2] x H1 H2 Hx1 Hx2. simpl.
      destruct (Hform _ _ _ H1 Hx1) as [p1 ->].
      destruct (Hform _ _ _ H2 Hx2) as [p2 Hp2].
      injection Hp2 as Hp2. apply append_inj_r in Hp2. by injection Hp2.
Qed.

(** *** What [insert] changes *)

Lemma keys_ok_new_node : keys_ok new_node.
Proof. constructor; [apply NoDup_nil_2|constructor]. Qed.

Lemma keys_ok_insert_from n rest w : keys_ok n → keys_ok (insert_from n rest w).
Proof.
  revert n. induction rest as [|c rest IH]; intros [cs e wd] Hok;
    inversion Hok as [? ? ? Hnd Hcs]; subst; simpl.
  - by constructor.
  - constructor; [by apply dict_set_keys|].
    apply Forall_forall. intros [c' ch'] Hin.
    rewrite Forall_forall in Hcs.
    apply dict_set_elem in Hin as [[-> ->]|Hin]; [|by apply (Hcs _ Hin)].
    simpl. apply IH. destruct (dict_get c cs) as [ch|] eqn:Hget; simpl.
    + apply dict_get_elem in Hget. by apply (Hcs _ Hget).
    + apply keys_ok_new_node.
Qed.

Lemma keys_ok_descend n path m : keys_ok n → descend n path = Some m → keys_ok m.
Proof.
  revert n. induction path as [|c path IH]; intros [cs e wd] Hok; simpl.
  - by intros [= <-].
  - destruct (dict_get c cs) as [ch|] eqn:Hget; [|done].
    apply IH. inversion Hok as [? ? ? Hnd Hcs]; subst.
    rewrite Forall_forall in Hcs. apply dict_get_elem in Hget.
    by apply (Hcs _ Hget).
Qed.

Lemma ends_at_new_node path x : ¬ ends_at new_node path x.
Proof.
  destruct path as [|c path].
  - by intros [? ?]%ends_at_nil.
  - by intros (ch & ? & ?)%ends_at_cons.
Qed.

(** After inserting [w] along [rest], a word ends at [rest] and stores [w];
    every other word end is as before. *)
Lemma ends_at_insert_from n rest w path x :
  ends_at (insert_from n rest w) path x ↔
  (path = rest ∧ x = Some w) ∨ (path ≠ rest ∧ ends_at n path x).
Proof.
  revert n path. induction rest as [|c rest IH]; intros [cs e wd] path; simpl.
  - destruct path as [|c' path].
    + rewrite ends_at_nil. simpl. split.
      * intros [_ <-]. by left.
      * by intros [[_ ->]|[? _]].
    + rewrite !ends_at_cons. simpl. split.
      * intros H. right. by split.
      * by intros [[? _]|[_ ?]].
  - destruct path as [|c' path].
    + rewrite !ends_at_nil. simpl. split.
      * intros H. right. by split.
      * by intros [[? _]|[_ ?]].
    + rewrite !ends_at_cons. simpl.
      destruct (decide (c = c')) as [<-|Hne].
      * rewrite dict_get_set_eq. split.
        -- intros (ch & [= <-] & Hch). apply IH in Hch as [[-> ->]|[Hp Hch]].
           ++ by left.
           ++ right. split; [congruence|].
              destruct (dict_get c cs) as [ch|]; simpl in *.
              ** by exists ch.
              ** by apply ends_at_new_node in Hch.
        -- intros [[[= ->] ->]|[Hp (ch & Hget & Hch)]].
           ++ eexists. split; [done|]. apply IH. by left.
           ++ eexists. split; [done|]. apply IH. right.
              split; [congruence|]. rewrite Hget. done.
      * rewrite dict_get_set_ne by done. split.
        -- intros H. right. split; [congruence|done].
        -- intros [[[= ? _] _]|[_ ?]]; done.
Qed.

Lemma descend_app n p path :
  descend n (String.append p path) = descend n p ≫= (fun m => descend m path).
Proof.
  revert n. induction p as [|c p IH]; intros n; [done|].
  rewrite append_cons. simpl. destruct (dict_get c (children n)); [apply IH|done].
Qed.

(** The trie holds exactly the words [ws]: its keys are distinct and a word
    ends at a path exactly when the path is one of [ws], which is then what
    is stored there. *)
Definition trie_holds (t : Trie) (ws : list string) : Prop :=
  keys_ok (root t) ∧
  ∀ path x, ends_at (root t) path x ↔ x = Some path ∧ path ∈ ws.

Lemma trie_holds_insert t ws w :
  trie_holds t ws → trie_holds (insert t w) (ws ++ [w]).
Proof.
  intros [Hok Hends]. split; [by apply keys_ok_insert_from|].
  intros path x. simpl. rewrite ends_at_insert_from, Hends, elem_of_app,
    list_elem_of_singleton.
  destruct (decide (path = w)) as [->|Hne]; split.
  - intros [[_ ->]|[? _]]; [auto|done].
  - intros [-> _]. by left.
  - intros [[? _]|[_ [? ?]]]; [done|auto].
  - intros [-> [?|?]]; [right; auto|done].
Qed.

Lemma build_airport_trie_holds airports :
  trie_holds (build_airport_trie airports) airports.
Proof.
  unfold build_airport_trie.
  assert (∀ t ws0, trie_holds t ws0 →
            trie_holds (fold_left insert airports t) (ws0 ++ airports)) as Hgen.
  { induction airports as [|w ws IH]; intros t ws0 Ht; simpl.
    - by rewrite app_nil_r.
    - rewrite (cons_middle w ws0 ws), app_assoc. apply IH.
      by apply trie_holds_insert. }
  apply (Hgen (mkTrie new_node) []). split; [apply keys_ok_new_node|].
  intros path x. split.
  - by intros ?%ends_at_new_node.
  - by intros [_ ?%elem_of_nil].
Qed.

(** C9: whatever the order (and repetitions) in which the airport codes are
    inserted, [get_suggestions(p)] lists exactly the inserted codes that
    start with [p]: every entry is such a code, every such code is listed,
    none is listed twice, so there are as many entries as there are distinct
    such codes; the list for one insertion order is a rearrangement of the
    list for any other; and the empty prefix lists every inserted code. *)
Theorem get_suggestions_exact (airports : list string) (p : string) :
  let r := get_suggestions (build_airport_trie airports) p in
  NoDup r ∧
  (∀ x, x ∈ r ↔ ∃ w, x = Some w ∧ w ∈ airports ∧ String.prefix p w = true) ∧
  length r
    = length (remove_dups (filter (fun w => String.prefix p w = true) airports)) ∧
  (∀ airports', airports ≡ₚ airports' →
     r ≡ₚ get_suggestions (build_airport_trie airports') p) ∧
  (∀ w, w ∈ airports →
     Some w ∈ get_suggestions (build_airport_trie airports) EmptyString).
Proof.
  assert (∀ ws q,
    NoDup (get_suggestions (build_airport_trie ws) q) ∧
    ∀ x, x ∈ get_suggestions (build_airport_trie ws) q ↔
         ∃ w, x = Some w ∧ w ∈ ws ∧ String.prefix q w = true) as Hmain.
  { intros ws q. unfold get_suggestions.
    destruct (build_airport_trie_holds ws) as [Hok Hends].
    destruct (descend (root (build_airport_trie ws)) q) as [m|] eqn:Hm.
    - assert (keys_ok m) as Hokm by by eapply keys_ok_descend.
      assert (∀ path x, ends_at m path x ↔
                        ends_at (root (build_airport_trie ws)) (String.append q path) x)
        as Hsub.
      { intros path x. unfold ends_at. rewrite descend_app, Hm. done. }
      split.
      + apply (collect_all_words_NoDup q); [done|].
        intros path x Hx. apply Hsub, Hends in Hx. tauto.
      + intros x. rewrite collect_all_words_elem by done. split.
        * intros [path Hx]. apply Hsub, Hends in Hx as [-> Hin].
          eexists. split_and!; [done|done|]. apply prefix_append. by eexists.
        * intros (w & -> & Hin & [path ->]%prefix_append).
          exists path. apply Hsub, Hends. done.
    - split; [apply NoDup_nil_2|]. intros x. split; [by intros ?%elem_of_nil|].
      intros (w & -> & Hin & [path ->]%prefix_append).
      assert (ends_at (root (build_airport_trie ws)) (String.append q path)
                      (Some (String.append q path))) as (m & Hd & _).
      { by apply Hends. }
      rewrite descend_app, Hm in Hd. done. }
  intros r. subst r.
  destruct (Hmain airports p) as [Hnd Hin].
  split_and!; [done|done| | |].
  - rewrite <- (length_fmap Some (remove_dups _)). apply Permutation_length.
    apply NoDup_Permutation; [done| |].
    + apply (NoDup_fmap_2 _), NoDup_remove_dups.
    + intros x. rewrite Hin, list_elem_of_fmap. split.
      * intros (w & -> & Hw & Hp). exists w. split; [done|].
        apply elem_of_remove_dups, list_elem_of_filter. done.
      * intros (w & -> & Hw). apply elem_of_remove_dups, list_elem_of_filter in Hw.
        exists w. tauto.
  - intros airports' Hperm. destruct (Hmain airports' p) as [Hnd' Hin'].
    apply NoDup_Permutation; [done|done|].
    intros x. rewrite Hin, Hin'.
    split; intros (w & -> & Hw & Hp); exists w; split_and!; try done.
    + by rewrite <- Hperm.
    + by rewrite Hperm.
  - intros w Hw. destruct (Hmain airports EmptyString) as [_ Hin0].
    apply Hin0. exists w. split_and!; [done|done|by destruct w].
Qed.

(* --------------------------------------------------------------------- *)
(** ** Breadth-first search *)

(** [walk E u k v]: [k] edges of [E] lead from [u] to [v]. *)
Inductive walk (E : string → string → Prop) : string → nat → string → Prop :=
  | walk_here u : walk E u 0 u
  | walk_step u v w k : E u v → walk E v k w → walk E u (S k) w.

Lemma walk_app E u v w a b :
  walk E u a v → walk E v b w → walk E u (a + b) w.
Proof.
  induction 1 as [|u v' w' k He Hw IH]; intros Hvw; simpl; [done|].
  eapply walk_step; [done|]. by apply IH.
Qed.

Lemma walk_snoc E u v w k : walk E u k v → E v w → walk E u (S k) w.
Proof.
  intros Huv Hvw. replace (S k) with (k + 1)%nat by lia.
  eapply walk_app; [done|]. eapply walk_step; [done|]. constructor.
Qed.

Lemma walk_iff (E1 E2 : string → string → Prop) u k v :
  (∀ a b, E1 a b → E2 a b) → walk E1 u k v → walk E2 u k v.
Proof.
  intros HE. induction 1; [constructor|]. eapply walk_step; [by apply HE|done].
Qed.

(** The edges of a graph as [neighbors] sees them. *)
Definition edge (graph : gmap string (list string)) (u v : string) : Prop :=
  v ∈ neighbors graph u.

(** [path_to graph start p v]: the list [p] starts at [start], ends at [v]
    and moves along edges of the graph. *)
Inductive path_to (graph : gmap string (list string)) (start : string)
  : list string → string → Prop :=
  | path_start : path_to graph start [start] start
  | path_snoc p u v :
      path_to graph start p u → edge graph u v → path_to graph start (p ++ [v]) v.

Lemma path_to_last graph start p v : path_to graph start p v → last p = Some v.
Proof. destruct 1; [done|]. by rewrite last_snoc. Qed.

Lemma path_to_head graph start p v : path_to graph start p v → head p = Some start.
Proof. induction 1 as [|p u v Hp IH He]; [done|]. by destruct p. Qed.

Lemma path_to_walk graph start p v :
  path_to graph start p v →
  ∃ m, length p = S m ∧ walk (edge graph) start m v.
Proof.
  induction 1 as [|p u v Hp (m & Hlen & Hw) He].
  - exists 0%nat. split; [done|constructor].
  - exists (S m). rewrite length_app, Hlen. simpl. split; [lia|].
    by eapply walk_snoc.
Qed.

Lemma route_pairs_snoc (p : list string) (u v : string) :
  last p = Some u → route_pairs (p ++ [v]) = route_pairs p ++ [(u, v)].
Proof.
  induction p as [|a [|b p] IH]; [done| |].
  - by intros [= ->].
  - intros Hlast. change (route_pairs ((a :: b :: p) ++ [v]))
      with ((a, b) :: route_pairs ((b :: p) ++ [v])).
    rewrite IH by done. done.
Qed.

Lemma path_to_pairs graph start p v :
  path_to graph start p v → Forall (fun e => edge graph e.1 e.2) (route_pairs p).
Proof.
  induction 1 as [|p u v Hp IH He]; [constructor|].
  rewrite (route_pairs_snoc p u v) by by eapply path_to_last.
  apply Forall_app. split; [done|]. by constructor.
Qed.

(** *** The inner loop *)

Lemma bfs_visit_fold path nbs queue visited :
  ∃ new,
    fold_left (bfs_visit path) nbs (queue, visited)
      = (queue ++ map (fun n => path ++ [n]) new, visited ∪ list_to_set new) ∧
    NoDup new ∧
    (∀ n, n ∈ new → n ∈ nbs ∧ n ∉ visited) ∧
    (∀ n, n ∈ nbs → n ∈ visited ∨ n ∈ new).
Proof.
  revert queue visited. induction nbs as [|nb nbs IH]; intros queue visited; simpl.
  { exists []. simpl. rewrite app_nil_r, union_empty_r_L.
    split_and!; [done|constructor|by intros n ?%elem_of_nil|by intros n ?%elem_of_nil]. }
  unfold bfs_visit at 2. simpl. destruct (decide (nb ∈ visited)) as [Hin|Hnin].
  - destruct (IH queue visited) as (new & -> & Hnd & Hnew & Hcov).
    exists new. split_and!; [done|done| |].
    + intros n Hn. destruct (Hnew n Hn). split; [by right|done].
    + intros n [->|Hn]%elem_of_cons; [by left|by apply Hcov].
  - destruct (IH (queue ++ [path ++ [nb]]) ({[nb]} ∪ visited))
      as (new & -> & Hnd & Hnew & Hcov).
    exists (nb :: new). split_and!.
    + simpl. rewrite <- app_assoc. simpl. f_equal.
      apply set_eq. intros x. rewrite !elem_of_union, elem_of_singleton. tauto.
    + apply NoDup_cons. split; [|done]. intros Hn. apply Hnew in Hn as [_ Hn].
      apply Hn, elem_of_union. left. by apply elem_of_singleton.
    + intros n [->|Hn]%elem_of_cons; [split; [by left|done]|].
      destruct (Hnew n Hn) as [? Hv]. split; [by right|].
      intros Hv'. apply Hv, elem_of_union. by right.
    + intros n [->|Hn]%elem_of_cons; [right; by left|].
      destruct (Hcov n Hn) as [Hv|Hv]; [|right; by right].
      apply elem_of_union in Hv as [->%elem_of_singleton|Hv];
        [right; by left|by left].
Qed.

Lemma neighbors_in_nodes graph u v : edge graph u v → v ∈ graph_nodes graph.
Proof.
  unfold edge, neighbors, graph_nodes. intros Hv.
  destruct (graph !! u) as [ns|] eqn:Hu; simpl in Hv; [|by apply elem_of_nil in Hv].
  apply elem_of_list_to_set, list_elem_of_bind. exists (u, ns). split.
  - simpl. by right.
  - by apply elem_of_map_to_list.
Qed.

Lemma key_in_nodes graph u : is_Some (graph !! u) → u ∈ graph_nodes graph.
Proof.
  intros [ns Hu]. unfold graph_nodes.
  apply elem_of_list_to_set, list_elem_of_bind. exists (u, ns). split.
  - simpl. by left.
  - by apply elem_of_map_to_list.
Qed.

(** *** The invariant of the [while] loop *)

(** The queue holds the paths of one length followed by the paths one
    longer. *)
Definition levelled (queue : list (list string)) : Prop :=
  ∃ L l1 l2, queue = l1 ++ l2 ∧
             Forall (fun p => length p = L) l1 ∧
             Forall (fun p => length p = S L) l2.

Lemma levelled_head p0 rest :
  levelled (p0 :: rest) →
  ∀ p, p ∈ rest → (length p0 ≤ length p ≤ S (length p0))%nat.
Proof.
  intros (L & l1 & l2 & Hq & H1 & H2) p Hp.
  rewrite Forall_forall in H1, H2.
  destruct l1 as [|q l1]; simpl in Hq.
  - subst l2. rewrite (H2 p0), (H2 p); [lia|by right|by left].
  - injection Hq as <- ->. rewrite (H1 p0) by by left.
    apply elem_of_app in Hp as [Hp|Hp].
    + rewrite (H1 p); [lia|by right].
    + rewrite (H2 p); [lia|done].
Qed.

Lemma levelled_push p0 rest new :
  levelled (p0 :: rest) →
  Forall (fun p => length p = S (length p0)) new →
  levelled (rest ++ new).
Proof.
  intros (L & l1 & l2 & Hq & H1 & H2) Hnew.
  destruct l1 as [|q l1]; simpl in Hq.
  - subst l2. apply Forall_cons in H2 as [Hp0 H2].
    exists (S L), rest, new. split_and!; [done|done|].
    eapply Forall_impl; [exact Hnew|]. simpl. intros p ->. by rewrite Hp0.
  - injection Hq as <- ->. apply Forall_cons in H1 as [Hp0 H1].
    exists L, l1, (l2 ++ new). split_and!; [by rewrite app_assoc|done|].
    apply Forall_app. split; [done|].
    eapply Forall_impl; [exact Hnew|]. simpl. intros p ->. by rewrite Hp0.
Qed.

Section bfs_correct.
Variables (graph : gmap string (list string)) (start destination : string).

Record bfs_inv (queue : list (list string)) (visited : gset string) : Prop := {
  inv_paths : ∀ p, p ∈ queue → ∃ v, path_to graph start p v;
  inv_levels : levelled queue;
  inv_visited : ∀ v, v ∈ visited →
    (∃ q, q ∈ queue ∧ last q = Some v) ∨
    (∃ m, walk (edge graph) start m v ∧ ∀ p, p ∈ queue → (S m ≤ length p)%nat);
  inv_frontier : ∀ k, walk (edge graph) start k destination →
    ∃ p v j, p ∈ queue ∧ last p = Some v ∧
             walk (edge graph) v j destination ∧ (length p + j ≤ S k)%nat
}.

Lemma bfs_inv_start : bfs_inv [[start]] {[start]}.
Proof.
  split.
  - intros p ->%list_elem_of_singleton. exists start. constructor.
  - exists 1%nat, [[start]], []. split_and!; [done|by constructor|constructor].
  - intros v ->%elem_of_singleton. left. exists [start]. split; [by left|done].
  - intros k Hk. exists [start], start, k. split_and!; [by left|done|done|simpl; lia].
Qed.

Lemma bfs_inv_step p0 rest visited node new :
  bfs_inv (p0 :: rest) visited →
  last p0 = Some node → node ≠ destination →
  (∀ n, n ∈ new → n ∈ neighbors graph node ∧ n ∉ visited) →
  (∀ n, n ∈ neighbors graph node → n ∈ visited ∨ n ∈ new) →
  bfs_inv (rest ++ map (fun n => p0 ++ [n]) new) (visited ∪ list_to_set new).
Proof.
  intros [Hpaths Hlev Hvis Hfront] Hlast Hne Hnew Hcov.
  assert (path_to graph start p0 node) as Hp0.
  { destruct (Hpaths p0) as [v Hv]; [by left|].
    pose proof (path_to_last _ _ _ _ Hv) as Hl. rewrite Hlast in Hl.
    by injection Hl as ->. }
  destruct (path_to_walk _ _ _ _ Hp0) as (m0 & Hlen0 & Hw0).
  pose proof (levelled_head _ _ Hlev) as Hbounds.
  assert (∀ p, p ∈ map (fun n => p0 ++ [n]) new → length p = S (length p0)) as Hnewlen.
  { intros p (n & -> & _)%list_elem_of_fmap. rewrite length_app. simpl. lia. }
  split.
  - intros p [Hp|Hp]%elem_of_app.
    + apply Hpaths. by right.
    + apply list_elem_of_fmap in Hp as (n & -> & Hn). exists n.
      eapply path_snoc; [exact Hp0|]. by apply Hnew.
  - apply (levelled_push p0); [done|]. apply Forall_forall. exact Hnewlen.
  - intros v [Hv|Hv]%elem_of_union.
    + destruct (Hvis v Hv) as [(q & Hq & Hql)|(m & Hw & Hm)].
      * apply elem_of_cons in Hq as [->|Hq].
        -- right. rewrite Hlast in Hql. injection Hql as <-.
           exists m0. split; [done|]. intros p [Hp|Hp]%elem_of_app.
           ++ specialize (Hbounds p Hp). lia.
           ++ rewrite (Hnewlen p Hp). lia.
        -- left. exists q. split; [|done]. apply elem_of_app. by left.
      * right. exists m. split; [done|]. intros p [Hp|Hp]%elem_of_app.
        -- apply Hm. by right.
        -- rewrite (Hnewlen p Hp). specialize (Hm p0). etrans; [apply Hm; by left|lia].
    + apply elem_of_list_to_set in Hv. left. exists (p0 ++ [v]). split.
      * apply elem_of_app. right. apply list_elem_of_fmap. by exists v.
      * apply last_snoc.
  - assert (∀ N p v j,
      p ∈ p0 :: rest → last p = Some v → walk (edge graph) v j destination →
      (length p + j < N)%nat →
      ∃ p' v' j', p' ∈ rest ++ map (fun n => p0 ++ [n]) new ∧ last p' = Some v' ∧
                  walk (edge graph) v' j' destination ∧
                  (length p' + j' ≤ length p + j)%nat) as Hclaim.
    { induction N as [|N IH]; [lia|]. intros p v j Hp Hl Hw HN.
      apply elem_of_cons in Hp as [->|Hp].
      2:{ exists p, v, j. split_and!; [|done|done|lia]. apply elem_of_app. by left. }
      rewrite Hlast in Hl. injection Hl as <-.
      inversion Hw as [|u n w' j' He Hw']; subst; [done|].
      destruct (Hcov n He) as [Hv|Hn].
      - destruct (Hvis n Hv) as [(q & Hq & Hql)|(m & Hwm & Hm)].
        + apply elem_of_cons in Hq as [->|Hq].
          * destruct (IH p0 n j') as (p' & v' & j2 & ? & ? & ? & ?);
              [by left|done|done|lia|].
            exists p', v', j2. split_and!; [done|done|done|lia].
          * exists q, n, j'. split_and!; [|done|done|].
            -- apply elem_of_app. by left.
            -- specialize (Hbounds q Hq). lia.
        + assert (S m ≤ length p0)%nat as Hm0 by (apply Hm; by left).
          destruct (Hfront (m + j')%nat) as (p2 & v2 & j2 & Hp2 & Hl2 & Hw2 & Hb2).
          { by eapply walk_app. }
          destruct (IH p2 v2 j2) as (p' & v' & j3 & ? & ? & ? & ?);
            [done|done|done|lia|].
          exists p', v', j3. split_and!; [done|done|done|lia].
      - exists (p0 ++ [n]), n, j'. split_and!; [| |done|].
        + apply elem_of_app. right. apply list_elem_of_fmap. by exists n.
        + apply last_snoc.
        + rewrite length_app. simpl. lia. }
    intros k Hk. destruct (Hfront k Hk) as (p & v & j & Hp & Hl & Hw & Hb).
    destruct (Hclaim (S (length p + j)) p v j) as (p' & v' & j' & ? & ? & ? & ?);
      [done|done|done|lia|].
    exists p', v', j'. split_and!; [done|done|done|lia].
Qed.

(** The loop returns within its budget, with a shortest path when there is
    a path and with [None] when there is none. *)
Lemma bfs_loop_spec fuel queue visited :
  bfs_inv queue visited →
  visited ⊆ graph_nodes graph →
  (length queue + size (graph_nodes graph ∖ visited) < fuel)%nat →
  ∃ r, bfs_loop fuel graph destination queue visited = Some r ∧
       match r with
       | Some p =>
           path_to graph start p destination ∧
           ∀ k, walk (edge graph) start k destination → (length p ≤ S k)%nat
       | None => ∀ k, ¬ walk (edge graph) start k destination
       end.
Proof.
  revert queue visited. induction fuel as [|fuel IH]; intros queue visited Hinv Hsub Hfuel;
    [lia|].
  cbn [bfs_loop]. destruct queue as [|p0 rest].
  { exists None. split; [done|]. intros k Hk.
    destruct (inv_frontier _ _ Hinv k Hk) as (p & ? & ? & Hp & _).
    by apply elem_of_nil in Hp. }
  destruct (inv_paths _ _ Hinv p0) as [node Hp0]; [by left|].
  rewrite (path_to_last _ _ _ _ Hp0).
  destruct (decide (node = destination)) as [->|Hne].
  { exists (Some p0). split; [done|]. split; [done|]. intros k Hk.
    destruct (inv_frontier _ _ Hinv k Hk) as (p & v & j & Hp & _ & _ & Hb).
    apply elem_of_cons in Hp as [->|Hp]; [lia|].
    pose proof (levelled_head _ _ (inv_levels _ _ Hinv) p Hp). lia. }
  destruct (bfs_visit_fold p0 (neighbors graph node) rest visited)
    as (new & -> & Hnd & Hnew & Hcov).
  cbn [fst snd]. apply IH.
  - eapply bfs_inv_step; [exact Hinv|by eapply path_to_last|done|done|done].
  - intros v [Hv|Hv]%elem_of_union; [by apply Hsub|].
    apply elem_of_list_to_set in Hv. eapply neighbors_in_nodes. by apply Hnew.
  - assert (list_to_set new ⊆ graph_nodes graph ∖ visited) as Hnewsub.
    { intros v Hv. apply elem_of_list_to_set in Hv. apply elem_of_difference.
      split; [|by apply Hnew]. eapply neighbors_in_nodes. by apply Hnew. }
    assert (graph_nodes graph ∖ (visited ∪ list_to_set new)
            = (graph_nodes graph ∖ visited) ∖ list_to_set new) as ->.
    { apply set_eq. intros v. rewrite !elem_of_difference, elem_of_union. tauto. }
    rewrite size_difference by done.
    pose proof (subseteq_size _ _ Hnewsub) as Hle.
    rewrite size_list_to_set in * by done.
    rewrite length_app, length_map. simpl in Hfuel. lia.
Qed.

End bfs_correct.

(** *** The graph that [build_graph] makes *)

(** The destinations listed for [u], in the order of the routes. *)
Definition dests (routes : list (string * string)) (u : string) : list string :=
  (filter (fun r => r.1 = u) routes).*2.

Lemma add_route_lookup graph r u :
  add_route graph r !! u
  = if decide (u = r.1) then Some (neighbors graph u ++ [r.2]) else graph !! u.
Proof.
  unfold add_route, neighbors. destruct (decide (u = r.1)) as [->|Hne].
  - destruct (graph !! r.1) as [ns|] eqn:Hr.
    + rewrite lookup_alter, decide_True by done. by rewrite Hr.
    + rewrite lookup_alter, decide_True by done. by rewrite lookup_insert_eq.
  - destruct (graph !! r.1) as [ns|] eqn:Hr.
    + by rewrite lookup_alter, decide_False.
    + rewrite lookup_alter, decide_False by done. by rewrite lookup_insert_ne.
Qed.

Lemma build_graph_lookup routes u :
  neighbors (build_graph routes) u = dests routes u ∧
  (build_graph routes !! u = None ↔ dests routes u = []).
Proof.
  unfold build_graph, dests.
  induction routes as [|r routes [IHn IHk]] using rev_ind; [done|].
  rewrite fold_left_app. simpl. rewrite filter_app, fmap_app.
  unfold neighbors at 1. rewrite add_route_lookup.
  rewrite filter_cons, filter_nil.
  destruct (decide (u = r.1)) as [->|Hne].
  - rewrite decide_True by done. simpl. rewrite IHn. split; [done|].
    split; [done|]. intros H. by apply app_eq_nil in H as [_ ?].
  - rewrite decide_False by done. simpl. rewrite app_nil_r. done.
Qed.

Lemma build_graph_edge routes u v :
  edge (build_graph routes) u v ↔ (u, v) ∈ routes.
Proof.
  unfold edge. rewrite (proj1 (build_graph_lookup routes u)). unfold dests.
  rewrite list_elem_of_fmap. split.
  - intros ([a b] & -> & [Ha Hin]%list_elem_of_filter). simpl in *. by subst.
  - intros Hin. exists (u, v). split; [done|]. by apply list_elem_of_filter.
Qed.

Lemma build_graph_key routes u :
  build_graph routes !! u ≠ None ↔ ∃ v, (u, v) ∈ routes.
Proof.
  rewrite (proj2 (build_graph_lookup routes u)). unfold dests. split.
  - intros Hne. destruct (filter (fun r => r.1 = u) routes) as [|[a b] l] eqn:Hf; [done|].
    assert ((a, b) ∈ filter (fun r => r.1 = u) routes) as Hin by (rewrite Hf; by left).
    apply list_elem_of_filter in Hin as [Ha Hin]. simpl in Ha. subst. by exists b.
  - intros [v Hin] Hnil.
    assert ((u, v) ∈ filter (fun r : string * string => r.1 = u) routes) as Hf
      by by apply list_elem_of_filter.
    destruct (filter (fun r => r.1 = u) routes); [by apply elem_of_nil in Hf|done].
Qed.

(** C5, as the code behaves: an airport is in the graph only if some route
    departs from it.  For every list of routes, [bfs_shortest_path] on the
    graph built from it always returns.  It returns a path only when routes
    depart from both the origin and the destination; the path then runs from
    the origin to the destination along routes and has the least number of
    edges among all such walks.  It returns [None] exactly when no route
    departs from the origin, or none departs from the destination (even if
    the destination can be reached), or the destination cannot be reached. *)
Theorem bfs_shortest_path_correct (routes : list (string * string))
    (start destination : string) :
  let flies := fun a b => (a, b) ∈ routes in
  let departs := fun a => ∃ b, (a, b) ∈ routes in
  ∃ r, bfs_shortest_path (build_graph routes) start destination = Some r ∧
       match r with
       | Some p =>
           departs start ∧ departs destination ∧
           head p = Some start ∧ last p = Some destination ∧
           Forall (fun e => e ∈ routes) (route_pairs p) ∧
           walk flies start (length p - 1) destination ∧
           ∀ k, walk flies start k destination → (length p - 1 ≤ k)%nat
       | None => True
       end ∧
       (r = None ↔
        ¬ departs start ∨ ¬ departs destination ∨
        ∀ k, ¬ walk flies start k destination).
Proof.
  intros flies departs. unfold bfs_shortest_path.
  set (graph := build_graph routes).
  assert (∀ u k v, walk flies u k v ↔ walk (edge graph) u k v) as Hwalk.
  { intros u k v. split; apply walk_iff; intros a b; apply build_graph_edge. }
  destruct (bool_decide (graph !! start = None)) eqn:Hs.
  { apply bool_decide_eq_true in Hs. exists None. split_and!; [done|done|].
    split; [|done]. intros _. left. intros Hd.
    by apply build_graph_key in Hd. }
  destruct (bool_decide (graph !! destination = None)) eqn:Hd.
  { apply bool_decide_eq_true in Hd. exists None. split_and!; [done|done|].
    split; [|done]. intros _. right. left. intros Hdep.
    by apply build_graph_key in Hdep. }
  apply bool_decide_eq_false in Hs, Hd. cbn [orb].
  destruct (bfs_loop_spec graph start destination (S (size (graph_nodes graph)))
              [[start]] {[start]}) as (r & -> & Hr).
  - apply bfs_inv_start.
  - intros v ->%elem_of_singleton. apply key_in_nodes.
    by apply not_eq_None_Some.
  - assert (start ∈ graph_nodes graph) as Hin
      by (apply key_in_nodes; by apply not_eq_None_Some).
    simpl. rewrite size_difference by (by apply singleton_subseteq_l).
    rewrite size_singleton.
    assert (size (graph_nodes graph) ≠ 0)%nat as Hpos; [|lia].
    intros Hz. apply size_empty_inv, leibniz_equiv in Hz.
    rewrite Hz in Hin. by apply elem_of_empty in Hin.
  - exists r. split; [done|]. destruct r as [p|].
    + destruct Hr as [Hp Hmin]. split.
      * split_and!.
        -- by apply build_graph_key.
        -- by apply build_graph_key.
        -- by eapply path_to_head.
        -- by eapply path_to_last.
        -- eapply Forall_impl; [by eapply path_to_pairs|].
           intros [a b] He. by apply build_graph_edge.
        -- destruct (path_to_walk _ _ _ _ Hp) as (m & Hlen & Hw).
           rewrite Hlen. simpl. rewrite Nat.sub_0_r. by apply Hwalk.
        -- intros k Hk. apply Hwalk, Hmin in Hk. lia.
      * split; [done|]. intros [Hno|[Hno|Hno]].
        -- destruct Hno. by apply build_graph_key.
        -- destruct Hno. by apply build_graph_key.
        -- destruct (path_to_walk _ _ _ _ Hp) as (m & _ & Hw).
           apply Hwalk in Hw. by apply Hno in Hw.
    + split; [done|]. split; [|done]. intros _. right. right.
      intros k Hk. apply Hwalk in Hk. by apply Hr in Hk.
Qed.

(** C5 as stated does not hold: with the single route A→B, the airport B
    occurs only as a destination and is one edge away from A, yet the search
    from A to B returns [None]. *)
Lemma bfs_misses_destination_only_airport :
  bfs_shortest_path (build_graph [("A", "B")]%string) "A" "B" = Some None ∧
  walk (fun a b => (a, b) ∈ [("A", "B")]%string) "A" 1 "B".
Proof.
  split; [vm_compute; reflexivity|].
  eapply walk_step; [by left|constructor].
Qed.

(* --------------------------------------------------------------------- *)
(** ** Depth-first search *)

Lemma dfs_push_fold path (visited : gset string) ns stack :
  fold_left (dfs_push path visited) (rev ns) stack
  = map (fun n => (n, path ++ [n])) (filter (fun n => n ∉ visited) ns) ++ stack.
Proof.
  induction ns as [|a ns IH]; simpl; [done|].
  rewrite fold_left_app, IH. simpl. unfold dfs_push at 1.
  rewrite filter_cons. by destruct (decide (a ∈ visited)); destruct (decide (a ∉ visited)).
Qed.

(** [reach_fresh graph visited u v]: edges lead from [u] to [v] through
    airports that are not in [visited] (the first one, [u], may be). *)
Inductive reach_fresh (graph : gmap string (list string)) (visited : gset string)
  : string → string → Prop :=
  | reach_here u : reach_fresh graph visited u u
  | reach_step u x v :
      edge graph u x → x ∉ visited → reach_fresh graph visited x v →
      reach_fresh graph visited u v.

Lemma walk_reach_fresh graph u k v :
  walk (edge graph) u k v → reach_fresh graph ∅ u v.
Proof.
  induction 1 as [|u x v k He Hw IH]; [constructor|].
  eapply reach_step; [done| |done]. apply not_elem_of_empty.
Qed.

Lemma reach_fresh_walk graph visited u v :
  reach_fresh graph visited u v → ∃ k, walk (edge graph) u k v.
Proof.
  induction 1 as [|u x v He Hx Hr [k IH]]; [exists 0%nat; constructor|].
  exists (S k). by eapply walk_step.
Qed.

(** Marking one more airport [c]: either the walk did not pass through [c]
    after its start, or what follows its last visit of [c] is a walk from a
    neighbour of [c]. *)
Lemma reach_fresh_mark graph visited c u v :
  reach_fresh graph visited u v → c ≠ v →
  reach_fresh graph ({[c]} ∪ visited) u v ∨
  ∃ x, edge graph c x ∧ (x ∉ {[c]} ∪ visited) ∧
       reach_fresh graph ({[c]} ∪ visited) x v.
Proof.
  intros Hr Hcv. induction Hr as [|u x v He Hx Hr IH]; [left; constructor|].
  destruct (IH Hcv) as [Hfresh|Hvia]; [|by right].
  destruct (decide (x = c)) as [->|Hxc].
  - inversion Hfresh as [|? y ? Hey Hy Hrest]; subst; [done|].
    right. by exists y.
  - left. eapply reach_step; [done| |done].
    rewrite elem_of_union, elem_of_singleton. tauto.
Qed.

(** The adjacency entries of the airports not yet marked. *)
Definition unexplored (graph : gmap string (list string)) (visited : gset string)
  : nat :=
  sum_list (map (fun kv => if decide (kv.1 ∈ visited) then 0%nat else length kv.2)
                (map_to_list graph)).

Lemma unexplored_list_other (l : list (string * list string)) (visited : gset string) c :
  c ∉ (l.*1) →
  sum_list (map (fun kv => if decide (kv.1 ∈ {[c]} ∪ visited) then 0%nat
                           else length kv.2) l)
  = sum_list (map (fun kv => if decide (kv.1 ∈ visited) then 0%nat
                             else length kv.2) l).
Proof.
  induction l as [|[k ns] l IH]; simpl; [done|].
  intros Hc. apply not_elem_of_cons in Hc as [Hck Hc]. rewrite IH by done.
  f_equal. destruct (decide (k ∈ visited)) as [Hk|Hk].
  - rewrite decide_True; [done|]. apply elem_of_union. by right.
  - rewrite decide_False; [done|].
    rewrite elem_of_union, elem_of_singleton. intros [?|?]; [by subst|done].
Qed.

Lemma unexplored_list_mark (l : list (string * list string)) (visited : gset string) c :
  NoDup l.*1 → c ∉ visited →
  (sum_list (map (fun kv => if decide (kv.1 ∈ {[c]} ∪ visited) then 0%nat
                            else length kv.2) l)
   + length (default [] ((list_to_map l : gmap string (list string)) !! c))
   = sum_list (map (fun kv => if decide (kv.1 ∈ visited) then 0%nat
                              else length kv.2) l))%nat.
Proof.
  intros Hnd Hc. induction l as [|[k ns] l IH]; simpl; [done|].
  apply NoDup_cons in Hnd as [Hk Hnd]. destruct (decide (k = c)) as [->|Hkc].
  - rewrite lookup_insert_eq. simpl. rewrite unexplored_list_other by done.
    rewrite decide_True by (apply elem_of_union; left; by apply elem_of_singleton).
    rewrite decide_False by done. lia.
  - rewrite lookup_insert_ne by done. rewrite <- IH by done.
    destruct (decide (k ∈ visited)) as [Hkv|Hkv].
    + rewrite decide_True; [lia|]. apply elem_of_union. by right.
    + rewrite decide_False; [lia|].
      rewrite elem_of_union, elem_of_singleton. intros [?|?]; [by subst|done].
Qed.

Lemma unexplored_mark graph (visited : gset string) c :
  c ∉ visited →
  (unexplored graph ({[c]} ∪ visited) + length (neighbors graph c)
   = unexplored graph visited)%nat.
Proof.
  intros Hc. unfold unexplored, neighbors.
  rewrite <- (list_to_map_to_list graph) at 2.
  apply unexplored_list_mark; [apply NoDup_fst_map_to_list|done].
Qed.

Lemma unexplored_all graph : unexplored graph ∅ = edge_count graph.
Proof.
  unfold unexplored, edge_count. f_equal.
Qed.

Lemma filter_none {A : Type} (P : A → Prop) `{∀ x, Decision (P x)} (l : list A) :
  (∀ x, x ∈ l → ¬ P x) → filter P l = [].
Proof.
  induction l as [|a l IH]; [done|]. intros Hl. rewrite filter_cons.
  rewrite decide_False by (apply Hl; by left).
  apply IH. intros x Hx. apply Hl. by right.
Qed.

Section dfs_correct.
Variables (graph : gmap string (list string)) (start destination : string).

(** What holds of the stack (top first) and the marked airports at the head
    of the [while] loop: every entry carries a duplicate-free path from the
    origin to its airport, all of it marked except perhaps its end; below an
    entry whose airport is marked, each neighbour of that airport is marked
    or waits higher up; and if the destination can be reached at all, it can
    be reached from some entry through unmarked airports. *)
Record dfs_inv (stack : list (string * list string)) (visited : gset string)
  : Prop := {
  dinv_paths : ∀ n p, (n, p) ∈ stack →
    path_to graph start p n ∧ NoDup p ∧ ∀ x, x ∈ p → x = n ∨ x ∈ visited;
  dinv_order : ∀ above c p below,
    stack = above ++ (c, p) :: below → c ∈ visited →
    ∀ nb, edge graph c nb → nb ∈ visited ∨ nb ∈ above.*1;
  dinv_reach : (∃ k, walk (edge graph) start k destination) →
    ∃ n p, (n, p) ∈ stack ∧ reach_fresh graph visited n destination
}.

Lemma dfs_inv_start : dfs_inv [(start, [start])] ∅.
Proof.
  split.
  - intros n p [= -> ->]%list_elem_of_singleton. split_and!.
    + constructor.
    + apply NoDup_singleton.
    + intros x ->%list_elem_of_singleton. by left.
  - intros above c p below _ Hc. by apply elem_of_empty in Hc.
  - intros [k Hk]. exists start, [start]. split; [by left|].
    by eapply walk_reach_fresh.
Qed.

Lemma dfs_inv_step c pc rest visited :
  dfs_inv ((c, pc) :: rest) visited → c ≠ destination →
  dfs_inv (map (fun n => (n, pc ++ [n]))
               (filter (fun n => n ∉ {[c]} ∪ visited) (neighbors graph c)) ++ rest)
          ({[c]} ∪ visited).
Proof.
  intros [Hpaths Horder Hreach] Hne.
  destruct (Hpaths c pc) as (Hpc & Hndc & Hmarked); [by left|].
  assert (∀ n, edge graph c n → n ∉ {[c]} ∪ visited →
               (n, pc ++ [n]) ∈ map (fun n => (n, pc ++ [n]))
                 (filter (fun n => n ∉ {[c]} ∪ visited) (neighbors graph c)))
    as Hpushed.
  { intros n He Hn. apply list_elem_of_fmap. exists n. split; [done|].
    by apply list_elem_of_filter. }
  split.
  - intros n p [Hin|Hin]%elem_of_app.
    + apply list_elem_of_fmap in Hin as (n' & [= -> ->] & [Hfresh He]%list_elem_of_filter).
      split_and!.
      * by eapply path_snoc.
      * apply NoDup_app. split_and!; [done| |apply NoDup_singleton].
        intros x Hx ->%list_elem_of_singleton. apply Hfresh.
        rewrite elem_of_union, elem_of_singleton.
        destruct (Hmarked _ Hx); [by left|by right].
      * intros x [Hx|Hx]%elem_of_app;
          [|apply list_elem_of_singleton in Hx; by left].
        right. rewrite elem_of_union, elem_of_singleton.
        destruct (Hmarked _ Hx); [by left|by right].
    + destruct (Hpaths n p) as (? & ? & Hm); [by right|]. split_and!; [done|done|].
      intros x Hx. destruct (Hm x Hx); [by left|right]. apply elem_of_union. by right.
  - intros above d p below Hsplit Hd nb He.
    destruct (decide (nb ∈ {[c]} ∪ visited)) as [|Hnb]; [by left|]. right.
    apply app_eq_app in Hsplit as [l [[Hnew Hrest]|[Habove Hrest]]].
    + destruct l as [|e l]; simpl in Hrest.
      * rewrite app_nil_r in Hnew. subst above.
        apply elem_of_union in Hd as [->%elem_of_singleton|Hd].
        -- apply list_elem_of_fmap. eexists. split; [|by apply Hpushed]. done.
        -- destruct (Horder [(c, pc)] d p below) with (nb := nb) as [Hv|Hv];
             [by rewrite <- Hrest|done|done| |].
           ++ destruct Hnb. apply elem_of_union. by right.
           ++ simpl in Hv. apply list_elem_of_singleton in Hv. subst nb.
              destruct Hnb. apply elem_of_union. left. by apply elem_of_singleton.
      * injection Hrest as <- _.
        assert ((d, p) ∈ map (fun n => (n, pc ++ [n]))
                  (filter (fun n => n ∉ {[c]} ∪ visited) (neighbors graph c))) as Hin.
        { rewrite Hnew. apply elem_of_app. right. by left. }
        apply list_elem_of_fmap in Hin as (n' & [= -> ->] & [Hfresh _]%list_elem_of_filter).
        done.
    + subst above. rewrite fmap_app. apply elem_of_app.
      apply elem_of_union in Hd as [->%elem_of_singleton|Hd].
      * left. apply list_elem_of_fmap. eexists. split; [|by apply Hpushed]. done.
      * destruct (Horder ((c, pc) :: l) d p below) with (nb := nb) as [Hv|Hv];
          [by rewrite Hrest|done|done| |].
        -- destruct Hnb. apply elem_of_union. by right.
        -- simpl in Hv. apply elem_of_cons in Hv as [->|Hv]; [|by right].
           destruct Hnb. apply elem_of_union. left. by apply elem_of_singleton.
  - intros Hk. destruct (Hreach Hk) as (n & p & Hin & Hr).
    destruct (reach_fresh_mark _ _ c _ _ Hr Hne) as [Hfresh|(x & He & Hx & Hrx)].
    + apply elem_of_cons in Hin as [[= -> ->]|Hin].
      * inversion Hfresh as [|? y ? Hey Hy Hrest]; subst; [done|].
        exists y, (pc ++ [y]). split; [|done]. apply elem_of_app. left.
        by apply Hpushed.
      * exists n, p. split; [|done]. apply elem_of_app. by right.
    + exists x, (pc ++ [x]). split; [|done]. apply elem_of_app. left.
      by apply Hpushed.
Qed.

(** The loop returns within its budget: a duplicate-free path to the
    destination when the destination can be reached, [None] otherwise. *)
Lemma dfs_path_loop_spec fuel stack visited :
  dfs_inv stack visited →
  (length stack + unexplored graph visited < fuel)%nat →
  ∃ r, dfs_path_loop fuel graph destination stack visited = Some r ∧
       match r with
       | Some p => path_to graph start p destination ∧ NoDup p
       | None => ∀ k, ¬ walk (edge graph) start k destination
       end.
Proof.
  revert stack visited. induction fuel as [|fuel IH]; intros stack visited Hinv Hfuel;
    [lia|].
  cbn [dfs_path_loop]. destruct stack as [|[c pc] rest].
  { exists None. split; [done|]. intros k Hk.
    destruct (dinv_reach _ _ Hinv) as (n & p & Hin & _); [by exists k|].
    by apply elem_of_nil in Hin. }
  destruct (decide (c = destination)) as [->|Hne].
  { exists (Some pc). split; [done|].
    destruct (dinv_paths _ _ Hinv destination pc) as (? & ? & _); [by left|]. done. }
  cbv zeta. rewrite dfs_push_fold. apply IH; [by apply dfs_inv_step|].
  rewrite length_app, length_map. simpl in Hfuel.
  destruct (decide (c ∈ visited)) as [Hc|Hc].
  - assert ({[c]} ∪ visited = visited) as Hsame.
    { apply set_eq. intros x. rewrite elem_of_union, elem_of_singleton.
      split; [intros [->|?]; done|by right]. }
    rewrite Hsame. rewrite filter_none; [simpl; lia|].
    intros nb Hnb Hfresh.
    destruct (dinv_order _ _ Hinv [] c pc rest) with (nb := nb) as [Hv|Hv];
      [done|done|done|done|by apply elem_of_nil in Hv].
  - pose proof (unexplored_mark graph visited c Hc) as Hpot.
    pose proof (length_filter (fun n => n ∉ {[c]} ∪ visited) (neighbors graph c)).
    lia.
Qed.

End dfs_correct.

Lemma dfs_find_a_path_cases (graph : gmap string (list string))
    (start goal : string) :
  ∃ r, dfs_find_a_path graph start goal = Some r ∧
       match r with
       | Some p => path_to graph start p goal ∧ NoDup p ∧
                   graph !! start ≠ None ∧ graph !! goal ≠ None
       | None => graph !! start = None ∨ graph !! goal = None ∨
                 ∀ k, ¬ walk (edge graph) start k goal
       end.
Proof.
  unfold dfs_find_a_path.
  destruct (bool_decide (graph !! start = None)) eqn:Hs.
  { apply bool_decide_eq_true in Hs. exists None. split; [done|]. by left. }
  destruct (bool_decide (graph !! goal = None)) eqn:Hd.
  { apply bool_decide_eq_true in Hd. exists None. split; [done|]. right. by left. }
  apply bool_decide_eq_false in Hs, Hd. cbn [orb].
  destruct (dfs_path_loop_spec graph start goal (S (S (edge_count graph)))
              [(start, [start])] ∅) as (r & -> & Hr).
  - apply dfs_inv_start.
  - rewrite unexplored_all. simpl. lia.
  - exists r. split; [done|]. destruct r as [p|]; [|by right; right].
    destruct Hr. done.
Qed.

(** [dfs_find_a_path] always returns.  A path it returns starts at the
    origin, ends at the destination, follows edges of the graph and visits
    no airport twice.  It returns [None] exactly when the origin or the
    destination is not a key of the graph or the destination cannot be
    reached from the origin. *)
Theorem dfs_find_a_path_correct (graph : gmap string (list string))
    (start destination : string) :
  ∃ r, dfs_find_a_path graph start destination = Some r ∧
       match r with
       | Some p =>
           head p = Some start ∧ last p = Some destination ∧ NoDup p ∧
           Forall (fun e => edge graph e.1 e.2) (route_pairs p)
       | None => True
       end ∧
       (r = None ↔
        graph !! start = None ∨ graph !! destination = None ∨
        ∀ k, ¬ walk (edge graph) start k destination).
Proof.
  unfold dfs_find_a_path.
  destruct (bool_decide (graph !! start = None)) eqn:Hs.
  { apply bool_decide_eq_true in Hs. exists None. split_and!; [done|done|].
    split; [|done]. intros _. by left. }
  destruct (bool_decide (graph !! destination = None)) eqn:Hd.
  { apply bool_decide_eq_true in Hd. exists None. split_and!; [done|done|].
    split; [|done]. intros _. right. by left. }
  apply bool_decide_eq_false in Hs, Hd. cbn [orb].
  destruct (dfs_path_loop_spec graph start destination (S (S (edge_count graph)))
              [(start, [start])] ∅) as (r & -> & Hr).
  - apply dfs_inv_start.
  - rewrite unexplored_all. simpl. lia.
  - exists r. split; [done|]. destruct r as [p|].
    + destruct Hr as [Hp Hnd]. split.
      * split_and!; [by eapply path_to_head|by eapply path_to_last|done|].
        by eapply path_to_pairs.
      * split; [done|]. intros [Hno|[Hno|Hno]]; [done|done|].
        destruct (path_to_walk _ _ _ _ Hp) as (m & _ & Hw). by apply Hno in Hw.
    + split; [done|]. split; [|done]. intros _. right. by right.
Qed.

(** [bfs_shortest_path] on any graph, not only one made by [build_graph]. *)
Lemma bfs_shortest_path_on_graph (graph : gmap string (list string))
    (start destination : string) :
  ∃ r, bfs_shortest_path graph start destination = Some r ∧
       match r with
       | Some p =>
           path_to graph start p destination ∧
           ∀ k, walk (edge graph) start k destination → (length p ≤ S k)%nat
       | None =>
           graph !! start = None ∨ graph !! destination = None ∨
           ∀ k, ¬ walk (edge graph) start k destination
       end.
Proof.
  unfold bfs_shortest_path.
  destruct (bool_decide (graph !! start = None)) eqn:Hs.
  { apply bool_decide_eq_true in Hs. exists None. split; [done|]. by left. }
  destruct (bool_decide (graph !! destination = None)) eqn:Hd.
  { apply bool_decide_eq_true in Hd. exists None. split; [done|]. right. by left. }
  apply bool_decide_eq_false in Hs, Hd. cbn [orb].
  assert (start ∈ graph_nodes graph) as Hin
    by (apply key_in_nodes; by apply not_eq_None_Some).
  destruct (bfs_loop_spec graph start destination (S (size (graph_nodes graph)))
              [[start]] {[start]}) as (r & -> & Hr).
  - apply bfs_inv_start.
  - by intros v ->%elem_of_singleton.
  - simpl. rewrite size_difference by (by apply singleton_subseteq_l).
    rewrite size_singleton.
    assert (size (graph_nodes graph) ≠ 0)%nat as Hpos; [|lia].
    intros Hz. apply size_empty_inv, leibniz_equiv in Hz.
    rewrite Hz in Hin. by apply elem_of_empty in Hin.
  - exists r. split; [done|]. destruct r as [p|]; [done|]. right. by right.
Qed.

(** The two path searches agree on whether there is a path, and the
    breadth-first one is never the longer of the two. *)
Theorem bfs_no_longer_than_dfs (graph : gmap string (list string))
    (start destination : string) :
  ∃ rb rd,
    bfs_shortest_path graph start destination = Some rb ∧
    dfs_find_a_path graph start destination = Some rd ∧
    (rb = None ↔ rd = None) ∧
    ∀ q p, rb = Some q → rd = Some p → (length q ≤ length p)%nat.
Proof.
  destruct (bfs_shortest_path_on_graph graph start destination) as (rb & Hb & Hrb).
  destruct (dfs_find_a_path_cases graph start destination) as (rd & Hd & Hrd).
  exists rb, rd. split_and!; [done|done| |].
  - split.
    + intros ->. destruct rd as [p|]; [|done]. destruct Hrd as (Hp & _ & Hs & Hg).
      destruct (path_to_walk _ _ _ _ Hp) as (m & _ & Hw).
      destruct Hrb as [?|[?|Hno]]; [done|done|]. by apply Hno in Hw.
    + intros ->. destruct rb as [q|]; [|done]. destruct Hrb as [Hq _].
      destruct (path_to_walk _ _ _ _ Hq) as (m & _ & Hw).
      assert (graph !! start ≠ None ∧ graph !! destination ≠ None) as [Hs Hdk].
      { unfold bfs_shortest_path in Hb.
        destruct (bool_decide (graph !! start = None)) eqn:H1; [done|].
        destruct (bool_decide (graph !! destination = None)) eqn:H2; [done|].
        by apply bool_decide_eq_false in H1, H2. }
      destruct Hrd as [?|[?|Hno]]; [done|done|]. by apply Hno in Hw.
  - intros q p -> ->. destruct Hrb as [_ Hmin]. destruct Hrd as (Hp & _).
    destruct (path_to_walk _ _ _ _ Hp) as (m & -> & Hw). by apply Hmin.
Qed.

(* --------------------------------------------------------------------- *)
(** ** The cheapest route is the cheapest candidate *)

(** [follows graph u ext v]: the airports [ext] continue a path from [u]
    along edges and end it at [v]. *)
Fixpoint follows (graph : gmap string (list string)) (u : string)
    (ext : list string) (v : string) : Prop :=
  match ext with
  | [] => u = v
  | x :: ext' => edge graph u x ∧ follows graph x ext' v
  end.

(** The price [p] is a number and at most [t]. *)
Definition at_most (p : ExtPrice) (t : Z) : Prop :=
  match p with
  | Finite q => q ≤ t
  | Infinity => False
  end.

(** A finite price never comes without a route. *)
Definition priced (b : Best) : Prop :=
  best_price b = Infinity ∨ ∃ v r, best_route b = Some (v :: r).

Lemma follows_end graph u x ext v : follows graph u (x :: ext) v → v ∈ x :: ext.
Proof.
  revert u x. induction ext as [|y ext IH]; intros u x; simpl.
  - intros [_ ->]. by left.
  - intros [_ H]. right. by eapply IH.
Qed.

Lemma route_follows graph start destination q :
  head q = Some start → last q = Some destination →
  Forall (fun e => edge graph e.1 e.2) (route_pairs q) →
  ∃ ext, q = start :: ext ∧ follows graph start ext destination.
Proof.
  destruct q as [|a q]; [done|]. intros [= ->] Hlast Hpairs.
  exists q. split; [done|]. revert start Hlast Hpairs.
  induction q as [|b q IH]; intros start Hlast Hpairs.
  - by injection Hlast.
  - change (route_pairs (start :: b :: q)) with ((start, b) :: route_pairs (b :: q))
      in Hpairs.
    apply Forall_cons in Hpairs as [He Hpairs]. split; [done|]. by apply IH.
Qed.

Section cheapest_optimal.
Variables (env : Env) (srv : Server) (graph : gmap string (list string)).
Variables (destination : string) (max_stops : Z).

(** The loop over the neighbours inside [dfs], as it stands after one
    unfolding. *)
Definition dfs_children (fuel : nat) (path : list string)
    (nbs : list string) (acc : option Best) : option Best :=
  fold_left
    (fun acc nb =>
       match acc with
       | None => None
       | Some b =>
           if decide (nb ∈ path) then Some b
           else dfs fuel env srv graph destination max_stops nb (path ++ [nb]) b
       end) nbs acc.

Lemma dfs_children_none fuel path nbs : dfs_children fuel path nbs None = None.
Proof. induction nbs as [|nb nbs IH]; [done|apply IH]. Qed.

Lemma dfs_unfold fuel node path best :
  dfs (S fuel) env srv graph destination max_stops node path best =
    if Z.of_nat (length path) - 1 >? max_stops then Some best
    else if decide (node = destination) then
      let '(_, total, ok) := get_flight_details_for_route env srv (Some path) in
      if ok && below total (best_price best)
      then Some (mkBest (Some path) (Finite total))
      else Some best
    else dfs_children fuel path (neighbors graph node) (Some best).
Proof. reflexivity. Qed.

(** Whatever [dfs] does to [best], the price only goes down and a finite
    price keeps its route. *)
Lemma dfs_improves fuel node path best b' :
  path ≠ [] →
  dfs fuel env srv graph destination max_stops node path best = Some b' →
  (∀ t, at_most (best_price best) t → at_most (best_price b') t) ∧
  (priced best → priced b').
Proof.
  revert node path best b'.
  induction fuel as [|fuel IH]; intros node path best b' Hpath; [done|].
  rewrite dfs_unfold. destruct (Z.of_nat (length path) - 1 >? max_stops).
  { by intros [= <-]. }
  destruct (decide (node = destination)) as [->|Hne].
  - destruct (get_flight_details_for_route env srv (Some path)) as [[legs total] ok].
    destruct (ok && below total (best_price best)) eqn:Hupd; intros [= <-]; [|done].
    apply andb_true_iff in Hupd as [_ Hbelow]. split.
    + intros t Ht. simpl. destruct (best_price best) as [p|]; [|done].
      simpl in *. apply Z.ltb_lt in Hbelow. lia.
    + intros _. right. destruct path as [|v r]; [done|]. by exists v, r.
  - generalize (neighbors graph node). intros nbs. revert best.
    induction nbs as [|nb nbs IHn]; intros best; simpl.
    { by intros [= <-]. }
    destruct (decide (nb ∈ path)); [apply IHn|].
    destruct (dfs fuel env srv graph destination max_stops nb (path ++ [nb]) best)
      as [b1|] eqn:Hrec; [|by rewrite dfs_children_none].
    intros Hfold. apply IH in Hrec as [Hmono1 Hpriced1]; [|by destruct path].
    apply IHn in Hfold as [Hmono2 Hpriced2]. split; [|tauto].
    intros t Ht. by apply Hmono2, Hmono1.
Qed.

Lemma dfs_children_improves fuel path nbs best b' :
  path ≠ [] →
  dfs_children fuel path nbs (Some best) = Some b' →
  ∀ t, at_most (best_price best) t → at_most (best_price b') t.
Proof.
  intros Hpath. revert best. induction nbs as [|nb nbs IHn]; intros best; simpl.
  { by intros [= <-]. }
  destruct (decide (nb ∈ path)); [apply IHn|].
  destruct (dfs fuel env srv graph destination max_stops nb (path ++ [nb]) best)
    as [b1|] eqn:Hrec; [|by rewrite dfs_children_none].
  intros Hfold t Ht. apply (IHn b1 Hfold).
  apply dfs_improves in Hrec as [Hmono _]; [|by destruct path]. by apply Hmono.
Qed.

(** Every duplicate-free continuation of [path] to the destination within
    the hop bound is put to the resolver, and if it resolves its total is
    not below the final best price. *)
Lemma dfs_covers fuel node path ext best b' legs total :
  last path = Some node → NoDup (path ++ ext) →
  follows graph node ext destination →
  Z.of_nat (length (path ++ ext)) - 1 ≤ max_stops →
  get_flight_details_for_route env srv (Some (path ++ ext)) = (legs, total, true) →
  dfs fuel env srv graph destination max_stops node path best = Some b' →
  at_most (best_price b') total.
Proof.
  revert node path ext best b'.
  induction fuel as [|fuel IH]; intros node path ext best b' Hlast Hnd Hext Hlen Hres;
    [done|].
  assert (path ≠ []) as Hpath by (by destruct path).
  assert (node ∈ path) as Hnode.
  { apply last_Some in Hlast as [l ->]. apply elem_of_app. right. by left. }
  rewrite dfs_unfold.
  assert ((Z.of_nat (length path) - 1 >? max_stops) = false) as ->.
  { rewrite Z.gtb_ltb. apply Z.ltb_ge. rewrite length_app in Hlen. lia. }
  destruct (decide (node = destination)) as [->|Hne].
  - destruct ext as [|x ext].
    2:{ apply follows_end in Hext. apply NoDup_app in Hnd as (_ & Hdisj & _).
        by destruct (Hdisj destination Hnode). }
    rewrite app_nil_r in Hres. rewrite Hres. simpl.
    destruct (below total (best_price best)) eqn:Hbelow; intros [= <-]; simpl; [lia|].
    destruct (best_price best) as [p|]; [|done]. simpl in *.
    apply Z.ltb_ge in Hbelow. lia.
  - destruct ext as [|x ext]; [done|]. destruct Hext as [He Hext].
    assert (x ∉ path) as Hx.
    { intros Hin. apply NoDup_app in Hnd as (_ & Hdisj & _).
      apply (Hdisj x Hin). by left. }
    unfold edge in He. revert He. generalize (neighbors graph node). intros nbs He.
    revert best. induction nbs as [|nb nbs IHn]; intros best;
      [by apply elem_of_nil in He|].
    simpl. destruct (decide (nb ∈ path)) as [Hin|Hnin].
    { apply IHn. apply elem_of_cons in He as [->|He]; [done|done]. }
    destruct (dfs fuel env srv graph destination max_stops nb (path ++ [nb]) best)
      as [b1|] eqn:Hrec; [|by rewrite dfs_children_none].
    destruct (decide (nb = x)) as [->|Hnx].
    + intros Hfold. eapply dfs_children_improves; [done|exact Hfold|].
      eapply (IH x (path ++ [x]) ext); [apply last_snoc| | | | |exact Hrec].
      * by rewrite <- app_assoc.
      * done.
      * by rewrite <- app_assoc.
      * by rewrite <- app_assoc.
    + apply IHn. apply elem_of_cons in He as [->|He]; [done|done].
Qed.

End cheapest_optimal.

(** [find_cheapest_route] is the cheapest of its candidates, once its guard
    is passed: when the origin and the destination are both keys of the
    graph (a route departs from each), then for every duplicate-free path
    from the origin to the destination along edges of the graph, with at
    most [max_stops] edges, that the resolver accepts, a route is returned
    and its price is not above that path's total. *)
Theorem find_cheapest_route_optimal (env : Env) (srv : Server)
    (graph : gmap string (list string)) (start destination : string)
    (max_stops : Z) (q : list string) (legs : list Flight) (total : Z) :
  graph !! start ≠ None → graph !! destination ≠ None →
  head q = Some start → last q = Some destination → NoDup q →
  Forall (fun e => edge graph e.1 e.2) (route_pairs q) →
  Z.of_nat (length q) - 1 ≤ max_stops →
  get_flight_details_for_route env srv (Some q) = (legs, total, true) →
  ∃ r price,
    find_cheapest_route env srv graph start destination max_stops
      = Some (Some r, Finite price) ∧
    price ≤ total.
Proof.
  intros Hs Hd Hhd Hlast Hnd Hpairs Hlen Hres.
  destruct (route_follows graph start destination q Hhd Hlast Hpairs)
    as (ext & -> & Hext).
  unfold find_cheapest_route.
  rewrite !bool_decide_eq_false_2 by done. cbn [orb].
  destruct (dfs_returns env srv graph destination max_stops
              (Z.to_nat max_stops + 2) start [start] (mkBest None Infinity))
    as [best Hdfs]; [lia|simpl; lia|].
  rewrite Hdfs.
  pose proof (dfs_covers env srv graph destination max_stops _ start [start] ext
                _ _ legs total eq_refl Hnd Hext Hlen Hres Hdfs) as Hbest.
  apply dfs_improves in Hdfs as [_ Hpriced]; [|done].
  destruct (best_price best) as [p|] eqn:Hp; [|done].
  destruct Hpriced as [Hinf|(v & r & Hr)]; [by left|by rewrite Hp in Hinf|].
  rewrite Hr. by exists (v :: r), p.
Qed.

Lemma find_cheapest_route_optimal_witness :
  let srv := mkServer (mkTables [mkFlight 1 "A" "B" 100 9; mkFlight 2 "B" "D" 50 9;
                                 mkFlight 3 "A" "C" 60 9; mkFlight 4 "C" "D" 60 9;
                                 mkFlight 5 "D" "A" 70 9] [] [] [] []) 1 1 in
  let graph := build_graph [("A", "B"); ("B", "D"); ("A", "C"); ("C", "D");
                            ("D", "A")]%string in
  ∃ r price,
    find_cheapest_route healthy srv graph "A" "D" 3 = Some (Some r, Finite price) ∧
    price ≤ 150.
Proof.
  intros srv graph.
  apply (find_cheapest_route_optimal healthy srv graph "A" "D" 3
           ["A"; "B"; "D"]%string
           [mkFlight 1 "A" "B" 100 9; mkFlight 2 "B" "D" 50 9] 150).
  - vm_compute. discriminate.
  - vm_compute. discriminate.
  - reflexivity.
  - reflexivity.
  - repeat constructor; vm_compute; intros H; inversion H; subst;
      repeat match goal with H : _ ∈ _ |- _ => inversion H; clear H; subst end.
  - repeat constructor; vm_compute; repeat constructor.
  - simpl. lia.
  - vm_compute. reflexivity.
Defined.

(* --------------------------------------------------------------------- *)
(** ** When the resolver accepts a route *)

(** The row the resolver uses for the leg from [a] to [b]: the first one in
    [flights] for that pair. *)
Definition first_leg (t : Tables) (a b : string) : option Flight :=
  head (List.filter (is_leg a b) (flights t)).

(** The pair can be resolved: its first row exists and has a seat count
    other than 0. *)
Definition leg_open (t : Tables) (p : string * string) : Prop :=
  ∃ f, first_leg t p.1 p.2 = Some f ∧ available_seats f ≠ 0.

Lemma first_leg_in t a b f :
  first_leg t a b = Some f → In f (flights t) ∧ is_leg a b f = true.
Proof.
  unfold first_leg. intros Hf. apply filter_In.
  destruct (List.filter (is_leg a b) (flights t)); [done|].
  injection Hf as ->. by left.
Qed.

Lemma first_leg_ends t a b f :
  first_leg t a b = Some f → (origin f, destination f) = (a, b).
Proof.
  intros [_ Hf]%first_leg_in. unfold is_leg in Hf.
  apply andb_true_iff in Hf as [Ho Hd].
  apply bool_decide_eq_true in Ho, Hd. by subst.
Qed.

Lemma first_legs_ends t pairs legs :
  Some <$> legs = map (fun p => first_leg t p.1 p.2) pairs →
  map (fun f => (origin f, destination f)) legs = pairs.
Proof.
  revert legs. induction pairs as [|[a b] pairs IH]; intros [|f legs]; simpl; try done.
  intros [= Hf Hrest]. symmetry in Hf. apply first_leg_ends in Hf.
  rewrite Hf. f_equal. by apply IH.
Qed.

(** The loop, when every pair it is given can be resolved. *)
Lemma resolve_loop_open t df pairs ordered total :
  (∀ p, p ∈ pairs →
        List.filter (is_leg p.1 p.2) df = List.filter (is_leg p.1 p.2) (flights t)) →
  (∀ p, p ∈ pairs → leg_open t p) →
  ∃ new,
    resolve_loop df pairs ordered total = (ordered ++ new, total + total_of new, true) ∧
    Some <$> new = map (fun p => first_leg t p.1 p.2) pairs.
Proof.
  revert ordered total. induction pairs as [|[a b] pairs IH]; intros ordered total Hdf Hopen.
  { exists []. simpl. rewrite app_nil_r, Z.add_0_r. done. }
  destruct (Hopen (a, b)) as (f & Hf & Hseats); [by left|].
  assert (List.filter (is_leg a b) df = List.filter (is_leg a b) (flights t)) as Hab
    by (apply (Hdf (a, b)); by left).
  simpl. rewrite Hab. unfold first_leg in Hf. simpl in Hf.
  destruct (List.filter (is_leg a b) (flights t)) as [|leg rest] eqn:Hfilter; [done|].
  injection Hf as ->. apply Z.eqb_neq in Hseats. rewrite Hseats.
  destruct (IH (ordered ++ [f]) (total + price f)) as (new & -> & Hnew).
  - intros p Hp. apply Hdf. by right.
  - intros p Hp. apply Hopen. by right.
  - exists (f :: new). split.
    + rewrite <- app_assoc. simpl. f_equal. f_equal. lia.
    + change (Some f :: (Some <$> new)
              = first_leg t a b :: map (fun p => first_leg t p.1 p.2) pairs).
      rewrite Hnew. f_equal. unfold first_leg. by rewrite Hfilter.
Qed.

(** The loop, when one of its pairs cannot be resolved. *)
Lemma resolve_loop_closed t df pairs ordered total p :
  (∀ q, q ∈ pairs →
        List.filter (is_leg q.1 q.2) df = List.filter (is_leg q.1 q.2) (flights t)) →
  p ∈ pairs → ¬ leg_open t p →
  (resolve_loop df pairs ordered total).2 = false.
Proof.
  intros Hdf Hp Hclosed. revert ordered total Hdf Hp.
  induction pairs as [|[a b] pairs IH]; intros ordered total Hdf Hp.
  { by apply elem_of_nil in Hp. }
  assert (List.filter (is_leg a b) df = List.filter (is_leg a b) (flights t)) as Hab
    by (apply (Hdf (a, b)); by left).
  simpl. rewrite Hab.
  destruct (List.filter (is_leg a b) (flights t)) as [|leg rest] eqn:Hfilter; [done|].
  destruct (available_seats leg =? 0) eqn:Hz; [done|].
  apply elem_of_cons in Hp as [->|Hp].
  - destruct Hclosed. exists leg. unfold first_leg. simpl. rewrite Hfilter.
    split; [done|]. by apply Z.eqb_neq.
  - apply IH; [|done]. intros q Hq. apply Hdf. by right.
Qed.

(** With no pair repeated, the query returns at least one row per pair as
    soon as every pair has a row. *)
Lemma read_legs_enough t pairs :
  NoDup pairs →
  (∀ p, p ∈ pairs → is_Some (first_leg t p.1 p.2)) →
  (length pairs ≤ length (read_legs pairs t))%nat.
Proof.
  intros Hnd Hrows.
  assert (∃ firsts, Some <$> firsts = map (fun p => first_leg t p.1 p.2) pairs)
    as [firsts Hfirsts].
  { clear Hnd. induction pairs as [|p pairs IH]; [by exists []|].
    destruct (Hrows p) as [f Hf]; [by left|].
    destruct IH as [firsts Hfirsts]; [intros q Hq; apply Hrows; by right|].
    exists (f :: firsts). rewrite fmap_cons. simpl. rewrite Hf. f_equal.
    exact Hfirsts. }
  assert (length firsts = length pairs) as <-.
  { rewrite <- (length_fmap Some), Hfirsts. apply length_map. }
  pose proof (first_legs_ends _ _ _ Hfirsts) as Hends.
  apply NoDup_incl_length.
  - rewrite <- Hends in Hnd.
    apply NoDup_ListNoDup. exact (NoDup_fmap_1 _ _ Hnd).
  - intros f Hf. apply list_elem_of_In in Hf.
    assert (Some f ∈ map (fun p => first_leg t p.1 p.2) pairs) as Hin.
    { rewrite <- Hfirsts. by apply list_elem_of_fmap_2. }
    apply list_elem_of_fmap in Hin as ([a b] & Hfab & Hp). simpl in Hfab.
    symmetry in Hfab. apply first_leg_in in Hfab as [Hfl Hleg].
    unfold read_legs. apply filter_In. split; [done|].
    apply existsb_exists. exists (a, b). split; [by apply list_elem_of_In|done].
Qed.

(** Sufficiency, shared by the results below: when every consecutive pair of
    the route has an open first row, the resolver accepts the route. *)
Lemma resolver_open_accepts (env : Env) (srv : Server) (route : list string) :
  connects env = true → (2 ≤ length route)%nat → NoDup (route_pairs route) →
  (∀ p, p ∈ route_pairs route → leg_open (committed srv) p) →
  let r := get_flight_details_for_route env srv (Some route) in
  r.2 = true ∧
  Some <$> r.1.1
  = map (fun p => first_leg (committed srv) p.1 p.2) (route_pairs route) ∧
  r.1.2 = total_of r.1.1.
Proof.
  intros Hconn Hlen Hnd Hopen r. set (t := committed srv) in *.
  assert (∀ p, p ∈ route_pairs route →
            List.filter (is_leg p.1 p.2) (read_legs (route_pairs route) t)
            = List.filter (is_leg p.1 p.2) (flights t)) as Hdf.
  { intros [a b] Hp. by apply read_legs_one_pair. }
  assert (bool_decide (route = []) || (length route <? 2)%nat = false) as Hshort.
  { apply orb_false_iff. split.
    - apply bool_decide_eq_false. intros ->. simpl in Hlen. lia.
    - apply Nat.ltb_ge. lia. }
  subst r. unfold get_flight_details_for_route.
  rewrite Hshort, Hconn. cbv zeta. simpl negb. cbv iota.
  assert ((length (read_legs (route_pairs route) (committed srv))
           <? length route - 1)%nat = false) as ->.
  { apply Nat.ltb_ge. rewrite <- route_pairs_length. apply read_legs_enough; [done|].
    intros p Hp. destruct (Hopen p Hp) as (f & Hf & _). exists f. exact Hf. }
  destruct (resolve_loop_open t (read_legs (route_pairs route) t)
              (route_pairs route) [] 0 Hdf Hopen) as (new & Hloop & Hnew).
  fold t. rewrite Hloop. simpl. split_and!; [done|done|lia].
Qed.

(** For a route of two or more airports in which no leg occurs twice (any
    route that visits no airport twice is one), and with a connection, the
    resolver reports [ok] exactly when every consecutive pair has a first
    row in [flights] with [available_seats] other than 0; the legs returned
    are then exactly these first rows, one per pair and in route order, so
    they chain from airport to airport along the route, and the total is
    the sum of their prices. *)
Theorem resolver_accepts_iff (env : Env) (srv : Server) (route : list string) :
  connects env = true → (2 ≤ length route)%nat → NoDup (route_pairs route) →
  let t := committed srv in
  let r := get_flight_details_for_route env srv (Some route) in
  (r.2 = true ↔ ∀ p, p ∈ route_pairs route → leg_open t p) ∧
  (r.2 = true →
   Some <$> r.1.1 = map (fun p => first_leg t p.1 p.2) (route_pairs route) ∧
   map (fun f => (origin f, destination f)) r.1.1 = route_pairs route ∧
   r.1.2 = total_of r.1.1).
Proof.
  intros Hconn Hlen Hnd t r.
  assert (∀ p, p ∈ route_pairs route →
            List.filter (is_leg p.1 p.2) (read_legs (route_pairs route) t)
            = List.filter (is_leg p.1 p.2) (flights t)) as Hdf.
  { intros [a b] Hp. by apply read_legs_one_pair. }
  assert (bool_decide (route = []) || (length route <? 2)%nat = false) as Hshort.
  { apply orb_false_iff. split.
    - apply bool_decide_eq_false. intros ->. simpl in Hlen. lia.
    - apply Nat.ltb_ge. lia. }
  assert (r.2 = true → ∀ p, p ∈ route_pairs route → leg_open t p) as Hnec.
  { intros Hok p Hp.
    assert (¬ ¬ leg_open t p) as Hnn.
    { intros Hclosed. subst r. unfold get_flight_details_for_route in Hok.
      rewrite Hshort, Hconn in Hok. cbv zeta in Hok. simpl negb in Hok. cbv iota in Hok.
      destruct (length (read_legs (route_pairs route) (committed srv))
                <? length route - 1)%nat; [done|].
      by rewrite (resolve_loop_closed t _ _ _ _ p Hdf Hp Hclosed) in Hok. }
    unfold leg_open in *. destruct (first_leg t p.1 p.2) as [f|]; [|by destruct Hnn; intros (? & ? & ?)].
    destruct (decide (available_seats f = 0)) as [Hz|Hz]; [|by exists f].
    destruct Hnn. intros (g & [= <-] & ?). done. }
  assert ((∀ p, p ∈ route_pairs route → leg_open t p) →
          r.2 = true ∧
          Some <$> r.1.1 = map (fun p => first_leg t p.1 p.2) (route_pairs route) ∧
          r.1.2 = total_of r.1.1) as Hsuf.
  { intros Hopen. exact (resolver_open_accepts env srv route Hconn Hlen Hnd Hopen). }
  split.
  - split; [exact Hnec|]. intros Hopen. by apply Hsuf.
  - intros Hok. destruct (Hsuf (Hnec Hok)) as (_ & Hlegs & Htotal).
    split_and!; [done| |done]. by eapply first_legs_ends.
Qed.

Lemma resolver_accepts_iff_witness :
  let srv := mkServer (mkTables [mkFlight 1 "A" "B" 100 9; mkFlight 2 "B" "D" 50 9;
                                 mkFlight 3 "A" "B" 80 0] [] [] [] []) 1 1 in
  map (fun f => (origin f, destination f))
      (get_flight_details_for_route healthy srv (Some ["A"; "B"; "D"]%string)).1.1
  = [("A", "B"); ("B", "D")]%string.
Proof.
  intros srv.
  destruct (resolver_accepts_iff healthy srv ["A"; "B"; "D"]%string)
    as [_ Hlegs].
  - reflexivity.
  - simpl. lia.
  - repeat constructor; vm_compute; intros H; inversion H; subst;
      repeat match goal with H : _ ∈ _ |- _ => inversion H; clear H; subst end.
  - destruct Hlegs as (_ & Hends & _); [reflexivity|]. exact Hends.
Defined.

Lemma route_pairs_fst (route : list string) (p : string * string) :
  p ∈ route_pairs route → p.1 ∈ route.
Proof.
  induction route as [|a [|b route] IH]; simpl; [by intros ?%elem_of_nil|by intros ?%elem_of_nil|].
  intros [->|Hp]%elem_of_cons; [by left|]. right. by apply IH.
Qed.

(** A route that visits no airport twice repeats no leg. *)
Lemma route_pairs_NoDup (route : list string) :
  NoDup route → NoDup (route_pairs route).
Proof.
  induction route as [|a [|b route] IH]; intros Hnd; [constructor|constructor|].
  change (route_pairs (a :: b :: route)) with ((a, b) :: route_pairs (b :: route)).
  apply NoDup_cons in Hnd as [Ha Hnd]. apply NoDup_cons. split; [|by apply IH].
  intros Hin. apply route_pairs_fst in Hin. done.
Qed.

(* --------------------------------------------------------------------- *)
(** ** Cancellation is all or nothing *)

(** Whatever the datastore does, [cancel_booking_in_db] either returns
    [True], with the seats given back, the booking CANCELLED and the
    caller's cache entry dropped, all committed together, or returns [False]
    with the committed tables and the cache exactly as they were.  Against
    a datastore that answers it is always the former. *)
Theorem cancel_booking_all_or_nothing {V : Type} (env : Env) (srv : Server)
    (booking_cache : gmap string V) (bid : Z) (email : string) :
  let r := cancel_booking_in_db env srv booking_cache bid email in
  ((r.1.1 = true ∧ committed r.1.2 = cancelled_tables (committed srv) bid ∧
    r.2 = delete email booking_cache)
   ∨ (r.1.1 = false ∧ committed r.1.2 = committed srv ∧ r.2 = booking_cache)) ∧
  (connects env = true → fails_at env = None → r.1.1 = true).
Proof.
  intros r. subst r. split.
  - destruct (cancel_outcomes env srv booking_cache bid email)
      as [->|(srv' & -> & Hsame)].
    + left. by rewrite cancel_healthy.
    + right. done.
  - intros Hc Hf. destruct env as [c f]. simpl in *. subst c f. fold healthy.
    by rewrite cancel_healthy.
Qed.

(* --------------------------------------------------------------------- *)
(** ** Seats are conserved *)

(** Some header in [bs] carries the id [bid] and is CONFIRMED. *)
Definition confirmed_id (bs : list Booking) (bid : Z) : bool :=
  existsb (fun b => (booking_id b =? bid)
                    && match status b with CONFIRMED => true | CANCELLED => false end)
          bs.

(** The seats of flight [fid] that the association rows [rows] hold for
    bookings that are CONFIRMED in [bs]. *)
Definition held_rows (bs : list Booking) (rows : list BookingFlight) (fid : Z) : Z :=
  foldr (fun r acc =>
           if (leg_flight_id r =? fid) && confirmed_id bs (leg_booking_id r)
           then num_passengers r + acc else acc)
        0 rows.

(** What a flight row stands for: the seats still free plus the seats held
    by confirmed bookings. *)
Definition capacity (t : Tables) (f : Flight) : Z :=
  available_seats f + held_rows (bookings t) (booking_flights t) (flight_id f).

Lemma held_rows_app bs r1 r2 fid :
  held_rows bs (r1 ++ r2) fid = held_rows bs r1 fid + held_rows bs r2 fid.
Proof.
  unfold held_rows. induction r1 as [|r r1 IH]; simpl; [lia|].
  destruct (_ && _); lia.
Qed.

Lemma confirmed_id_app bs b bid :
  confirmed_id (bs ++ [b]) bid
  = confirmed_id bs bid
    || ((booking_id b =? bid)
        && match status b with CONFIRMED => true | CANCELLED => false end).
Proof. unfold confirmed_id. rewrite existsb_app. simpl. by rewrite orb_false_r. Qed.

Lemma held_rows_other_booking bs b rows fid :
  (∀ r, r ∈ rows → leg_booking_id r ≠ booking_id b) →
  held_rows (bs ++ [b]) rows fid = held_rows bs rows fid.
Proof.
  unfold held_rows. induction rows as [|r rows IH]; intros Hfresh; simpl; [done|].
  rewrite IH by (intros r' Hr'; apply Hfresh; by right).
  rewrite confirmed_id_app.
  assert ((booking_id b =? leg_booking_id r) = false) as ->.
  { apply Z.eqb_neq. intros Heq. apply (Hfresh r); [by left|done]. }
  by rewrite orb_false_r.
Qed.

Lemma held_rows_new_legs bs bid n fids fid :
  confirmed_id bs bid = true →
  held_rows bs (map (fun f => mkBookingFlight bid f n) fids) fid
  = n * Z.of_nat (count_occ Z.eq_dec fids fid).
Proof.
  intros Hc. unfold held_rows. induction fids as [|x fids IH]; simpl; [lia|].
  rewrite Hc, andb_true_r, IH.
  destruct (Z.eq_dec x fid) as [->|Hne].
  - rewrite Z.eqb_refl. lia.
  - apply Z.eqb_neq in Hne. rewrite Hne. lia.
Qed.

Lemma confirmed_id_cancel bs bid x :
  confirmed_id (map (cancel_row bid) bs) x
  = if x =? bid then false else confirmed_id bs x.
Proof.
  unfold confirmed_id. induction bs as [|b bs IH]; simpl.
  { by destruct (x =? bid). }
  rewrite IH. unfold cancel_row. destruct (booking_id b =? bid) eqn:Hb; simpl.
  - apply Z.eqb_eq in Hb. rewrite andb_false_r. simpl.
    destruct (x =? bid) eqn:Hx; [done|].
    apply Z.eqb_neq in Hx. rewrite Hb.
    assert ((bid =? x) = false) as -> by (apply Z.eqb_neq; congruence). done.
  - destruct (x =? bid) eqn:Hx; [|done].
    apply Z.eqb_eq in Hx. subst x. by rewrite Hb.
Qed.

Lemma held_rows_cancel t bid fid :
  confirmed_id (bookings t) bid = true →
  held_rows (map (cancel_row bid) (bookings t)) (booking_flights t) fid
  + recorded t bid fid
  = held_rows (bookings t) (booking_flights t) fid.
Proof.
  intros Hc. unfold held_rows, recorded.
  induction (booking_flights t) as [|r rows IH]; simpl; [done|].
  rewrite confirmed_id_cancel.
  destruct (decide (leg_booking_id r = bid)) as [Hb|Hb].
  - rewrite bool_decide_eq_true_2 by done. rewrite Hb, Z.eqb_refl, Hc.
    rewrite andb_false_r, andb_true_r. simpl.
    destruct (leg_flight_id r =? fid); lia.
  - rewrite bool_decide_eq_false_2 by done. apply Z.eqb_neq in Hb. rewrite Hb. simpl.
    destruct (_ && _); lia.
Qed.

(** A booking leaves the capacity of every flight row as it was: whatever
    is taken from [available_seats] is held by the new CONFIRMED booking.
    This holds for every behaviour of the datastore, provided the id handed
    out is not yet used by an association row. *)
Theorem save_booking_conserves_capacity (env : Env) (srv : Server)
    (d : UserDetails) (pax : list PassengerDetails) (fids : list Z) (total : Z) :
  (∀ row, row ∈ booking_flights (committed srv) →
          leg_booking_id row ≠ next_booking_id srv) →
  let t' := committed (save_booking env srv d pax fids total).2 in
  map (capacity t') (flights t')
  = map (capacity (committed srv)) (flights (committed srv)).
Proof.
  intros Hfresh t'. subst t'.
  assert (committed (save_booking env srv d pax fids total).2 = committed srv ∨
          committed (save_booking env srv d pax fids total).2
          = booked_tables (committed srv) (next_user_id srv)
              (user_id_after (users (committed srv)) (next_user_id srv) d)
              (next_booking_id srv) d pax fids total) as [->| ->]; [|done|].
  { destruct (save_booking_outcomes env srv d pax fids total) as [->|[_ ?]]; [|by left].
    destruct (save_booking_healthy_atomic srv d pax fids total) as [[_ ?]|[_ ?]];
      [by left|by right]. }
  unfold booked_tables. simpl. rewrite map_map. apply map_ext. intros f.
  unfold capacity. simpl. rewrite held_rows_app.
  rewrite held_rows_other_booking by done.
  rewrite held_rows_new_legs; [lia|].
  rewrite confirmed_id_app. simpl. by rewrite Z.eqb_refl, orb_true_r.
Qed.

Lemma save_booking_conserves_capacity_witness :
  let srv := mkServer (mkTables [mkFlight 10 "A" "B" 100 5; mkFlight 11 "B" "C" 50 4]
                                [] [] [] []) 1 1 in
  let d := mkUserDetails "Ann" "Lee" "ann@example.org" None in
  let pax := [mkPassengerDetails "Ann" "Lee" 30; mkPassengerDetails "Bo" "Lee" 31] in
  let t' := committed (save_booking healthy srv d pax [10; 11] 300).2 in
  map available_seats (flights t') = [3; 2] ∧
  map (capacity t') (flights t') = [5; 4].
Proof.
  intros srv d pax t'. split; [reflexivity|].
  etransitivity;
    [apply (save_booking_conserves_capacity healthy srv d pax [10; 11] 300)|].
  - intros row Hrow. vm_compute in Hrow. inversion Hrow.
  - reflexivity.
Defined.

(** Cancelling a CONFIRMED booking leaves the capacity of every flight row
    as it was: what [available_seats] gains is what the booking held.  This
    holds for every behaviour of the datastore. *)
Theorem cancel_conserves_capacity {V : Type} (env : Env) (srv : Server)
    (booking_cache : gmap string V) (email : string) (b : Booking) :
  b ∈ bookings (committed srv) → status b = CONFIRMED →
  let t' := committed
              (cancel_booking_in_db env srv booking_cache (booking_id b) email).1.2 in
  map (capacity t') (flights t')
  = map (capacity (committed srv)) (flights (committed srv)).
Proof.
  intros Hin Hst t'. subst t'.
  destruct (cancel_outcomes env srv booking_cache (booking_id b) email)
    as [->|(srv' & -> & Hsame)]; [|simpl; by rewrite Hsame].
  rewrite cancel_healthy. simpl. rewrite map_map. apply map_ext. intros f.
  unfold capacity. simpl.
  rewrite <- (held_rows_cancel (committed srv) (booking_id b) (flight_id f)); [lia|].
  unfold confirmed_id. apply existsb_exists. exists b.
  split; [by apply list_elem_of_In|]. by rewrite Z.eqb_refl, Hst.
Qed.

Lemma cancel_conserves_capacity_witness :
  let srv := mkServer (mkTables [mkFlight 10 "A" "B" 100 2]
                                [mkUser 1 "Ann" "Lee" "ann@example.org"]
                                [mkBooking 1 1 300 CONFIRMED None]
                                [mkPassenger 1 "Ann" "Lee" 30]
                                [mkBookingFlight 1 10 3]) 2 2 in
  let t' := committed
              (cancel_booking_in_db healthy srv (∅ : gmap string nat) 1
                                    "ann@example.org").1.2 in
  map (capacity t') (flights t') = [5].
Proof.
  intros srv t'.
  assert (mkBooking 1 1 300 CONFIRMED None ∈ bookings (committed srv)) as Hin.
  { vm_compute. repeat constructor. }
  pose proof (cancel_conserves_capacity healthy srv (∅ : gmap string nat)
                "ann@example.org" (mkBooking 1 1 300 CONFIRMED None)
                Hin eq_refl) as Hcap.
  simpl booking_id in Hcap. cbv zeta in Hcap.
  subst t'. rewrite Hcap. reflexivity.
Defined.

(* --------------------------------------------------------------------- *)
(** ** No flight is oversold *)

Lemma find_by_key (fl : list Flight) (f : Flight) :
  NoDup (map flight_id fl) → f ∈ fl →
  List.find (fun g => flight_id g =? flight_id f) fl = Some f.
Proof.
  induction fl as [|g fl IH]; simpl; [by intros _ ?%elem_of_nil|].
  intros [Hg Hnd]%NoDup_cons [->|Hin]%elem_of_cons.
  - by rewrite Z.eqb_refl.
  - destruct (flight_id g =? flight_id f) eqn:Heq; [|by apply IH].
    apply Z.eqb_eq in Heq. destruct Hg. rewrite Heq.
    apply list_elem_of_fmap. by exists f.
Qed.

(** When [flight_id] is a key of [flights] and no leg is listed twice,
    [save_booking] never drives [available_seats] below 0, whatever the
    datastore does. *)
Theorem save_booking_never_oversells (env : Env) (srv : Server)
    (d : UserDetails) (pax : list PassengerDetails) (fids : list Z) (total : Z) :
  NoDup fids →
  NoDup (map flight_id (flights (committed srv))) →
  (∀ f, f ∈ flights (committed srv) → 0 ≤ available_seats f) →
  ∀ f, f ∈ flights (committed (save_booking env srv d pax fids total).2) →
       0 ≤ available_seats f.
Proof.
  intros Hfids Hkey Hpos f.
  destruct (save_booking_outcomes env srv d pax fids total) as [->|[_ ->]];
    [|apply Hpos].
  destruct (forallb (enough (committed srv) (Z.of_nat (length pax))) fids) eqn:Hall.
  2:{ rewrite save_booking_healthy_refused by done. apply Hpos. }
  destruct (decide (user_id_after (users (committed srv)) (next_user_id srv) d = 0))
    as [Hz|Hnz].
  { destruct (save_booking_healthy_no_key srv d pax fids total Hall Hz)
      as (msg & counter & ->). apply Hpos. }
  rewrite save_booking_healthy_booked by done. simpl.
  intros (g & -> & Hg)%list_elem_of_fmap. simpl.
  destruct (count_occ Z.eq_dec fids (flight_id g)) as [|[|k]] eqn:Hcount.
  - specialize (Hpos g Hg). lia.
  - assert (flight_id g ∈ fids) as Hin.
    { apply list_elem_of_In, (count_occ_In Z.eq_dec). lia. }
    destruct (proj1 (enough_all _ _ _) Hall _ Hin) as (seats & Hseats & Hle).
    unfold seats_of in Hseats. rewrite find_by_key in Hseats by done.
    injection Hseats as <-. lia.
  - apply NoDup_ListNoDup in Hfids.
    pose proof (proj1 (NoDup_count_occ Z.eq_dec fids) Hfids (flight_id g)). lia.
Qed.

Lemma save_booking_never_oversells_witness :
  let srv := mkServer (mkTables [mkFlight 10 "A" "B" 100 2; mkFlight 11 "B" "C" 50 4]
                                [] [] [] []) 1 1 in
  let d := mkUserDetails "Ann" "Lee" "ann@example.org" None in
  let pax := [mkPassengerDetails "Ann" "Lee" 30; mkPassengerDetails "Bo" "Lee" 31] in
  Forall (fun f => 0 ≤ available_seats f)
         (flights (committed (save_booking healthy srv d pax [10; 11] 300).2)).
Proof.
  intros srv d pax. apply Forall_forall.
  apply (save_booking_never_oversells healthy srv d pax [10; 11] 300).
  - repeat constructor; vm_compute; intros H; inversion H; subst;
      repeat match goal with H : _ ∈ _ |- _ => inversion H; clear H; subst end.
  - repeat constructor; vm_compute; intros H; inversion H; subst;
      repeat match goal with H : _ ∈ _ |- _ => inversion H; clear H; subst end.
  - intros f Hf. apply list_elem_of_In in Hf. subst srv. simpl in Hf.
    destruct Hf as [<-|[<-|[]]]; simpl; lia.
Defined.

(* --------------------------------------------------------------------- *)
(** ** The graph and the trie loaded at start-up *)

Lemma fetch_all_routes_elem (env : Env) (srv : Server) (a b : string) :
  connects env = true →
  (a, b) ∈ fetch_all_routes_from_db env srv ↔
  ∃ f, f ∈ flights (committed srv) ∧ origin f = a ∧ destination f = b ∧
       0 < available_seats f.
Proof.
  intros Hconn. unfold fetch_all_routes_from_db. rewrite Hconn.
  rewrite elem_of_remove_dups. split.
  - intros (f & Hf & Hin)%list_elem_of_fmap.
    apply list_elem_of_In, filter_In in Hin as [Hin Hpos].
    injection Hf as -> ->. exists f. split_and!; [by apply list_elem_of_In|done|done|lia].
  - intros (f & Hin & <- & <- & Hpos).
    apply list_elem_of_fmap. exists f. split; [done|].
    apply list_elem_of_In, filter_In. split; [by apply list_elem_of_In|].
    apply Z.ltb_lt. lia.
Qed.

Lemma get_direct_flights_elem (env : Env) (srv : Server) (a b : string) (f : Flight) :
  connects env = true →
  f ∈ get_direct_flights_from_db env srv a b ↔
  f ∈ flights (committed srv) ∧ origin f = a ∧ destination f = b ∧
  0 < available_seats f.
Proof.
  intros Hconn. unfold get_direct_flights_from_db. rewrite Hconn.
  rewrite list_elem_of_In, filter_In, <- list_elem_of_In.
  unfold is_leg. rewrite !andb_true_iff, !bool_decide_eq_true, Z.ltb_lt. tauto.
Qed.

Lemma dests_NoDup (routes : list (string * string)) (u : string) :
  NoDup routes → NoDup (dests routes u).
Proof.
  intros Hnd. unfold dests. apply NoDup_fmap_2_strong.
  - intros [a b] [a' b'] Hin Hin' Heq. simpl in Heq. subst b'.
    apply list_elem_of_filter in Hin as [Ha _].
    apply list_elem_of_filter in Hin' as [Ha' _]. simpl in *. by subst.
  - by apply NoDup_filter.
Qed.

(** The graph loaded at start-up has an edge from [a] to [b] exactly when
    the direct-flight query for [a], [b] gives a row on the same datastore
    state, that is, when some flight from [a] to [b] has a free seat; its
    keys are the airports some flight with a free seat departs from; and no
    neighbour list names an airport twice. *)
Theorem load_data_graph_edges (env : Env) (srv : Server) :
  connects env = true →
  let graph := (load_data env srv).1 in
  (∀ a b, edge graph a b ↔ get_direct_flights_from_db env srv a b ≠ []) ∧
  (∀ a, graph !! a ≠ None ↔
        ∃ f, f ∈ flights (committed srv) ∧ origin f = a ∧ 0 < available_seats f) ∧
  (∀ a, NoDup (neighbors graph a)).
Proof.
  intros Hconn graph. subst graph. unfold load_data. simpl. split_and!.
  - intros a b. rewrite build_graph_edge, fetch_all_routes_elem by done. split.
    + intros (f & Hf) Hnil.
      apply (get_direct_flights_elem env srv a b f Hconn) in Hf.
      rewrite Hnil in Hf. by apply elem_of_nil in Hf.
    + intros Hne. destruct (get_direct_flights_from_db env srv a b) as [|f l] eqn:Hd;
        [done|].
      exists f. apply (get_direct_flights_elem env srv a b f Hconn).
      rewrite Hd. by left.
  - intros a. rewrite build_graph_key. split.
    + intros [b Hb]. apply fetch_all_routes_elem in Hb as (f & ? & ? & ? & ?); [|done].
      by exists f.
    + intros (f & Hin & <- & Hpos). exists (destination f).
      apply fetch_all_routes_elem; [done|]. by exists f.
  - intros a. destruct (build_graph_lookup (fetch_all_routes_from_db env srv) a)
      as [-> _].
    apply dests_NoDup. unfold fetch_all_routes_from_db. rewrite Hconn.
    apply NoDup_remove_dups.
Qed.

Lemma load_data_graph_edges_witness :
  let srv := mkServer (mkTables [mkFlight 1 "A" "B" 100 9; mkFlight 2 "B" "D" 50 0;
                                 mkFlight 3 "A" "B" 80 2] [] [] [] []) 1 1 in
  edge (load_data healthy srv).1 "A" "B" ∧
  ¬ edge (load_data healthy srv).1 "B" "D" ∧
  neighbors (load_data healthy srv).1 "A" = ["B"%string].
Proof.
  intros srv.
  destruct (load_data_graph_edges healthy srv eq_refl) as (Hedge & _ & _).
  split_and!.
  - apply Hedge. vm_compute. discriminate.
  - intros Hbd. apply Hedge in Hbd. apply Hbd. reflexivity.
  - reflexivity.
Defined.

(** What [get_suggestions] lists in a trie that holds the words [ws]. *)
Lemma get_suggestions_holds (t : Trie) (ws : list string) (q : string) :
  trie_holds t ws →
  NoDup (get_suggestions t q) ∧
  ∀ x, x ∈ get_suggestions t q ↔
       ∃ w, x = Some w ∧ w ∈ ws ∧ String.prefix q w = true.
Proof.
  intros [Hok Hends]. unfold get_suggestions.
  destruct (descend (root t) q) as [m|] eqn:Hm.
  - assert (keys_ok m) as Hokm by by eapply keys_ok_descend.
    assert (∀ path x, ends_at m path x ↔ ends_at (root t) (String.append q path) x)
      as Hsub.
    { intros path x. unfold ends_at. rewrite descend_app, Hm. done. }
    split.
    + apply (collect_all_words_NoDup q); [done|].
      intros path x Hx. apply Hsub, Hends in Hx. tauto.
    + intros x. rewrite collect_all_words_elem by done. split.
      * intros [path Hx]. apply Hsub, Hends in Hx as [-> Hin].
        eexists. split_and!; [done|done|]. apply prefix_append. by eexists.
      * intros (w & -> & Hin & [path ->]%prefix_append).
        exists path. apply Hsub, Hends. done.
  - split; [apply NoDup_nil_2|]. intros x. split; [by intros ?%elem_of_nil|].
    intros (w & -> & Hin & [path ->]%prefix_append).
    assert (ends_at (root t) (String.append q path) (Some (String.append q path)))
      as (m & Hd & _).
    { by apply Hends. }
    rewrite descend_app, Hm in Hd. done.
Qed.

Lemma fetch_all_airports_elem (env : Env) (srv : Server) (w : string) :
  connects env = true →
  w ∈ fetch_all_airports_from_db env srv ↔
  ∃ f, f ∈ flights (committed srv) ∧ (origin f = w ∨ destination f = w).
Proof.
  intros Hconn. unfold fetch_all_airports_from_db. rewrite Hconn.
  rewrite elem_of_remove_dups, elem_of_app. split.
  - intros [(f & -> & Hf)%list_elem_of_fmap|(f & -> & Hf)%list_elem_of_fmap];
      exists f; auto.
  - intros (f & Hf & [<-|<-]); [left|right]; apply list_elem_of_fmap; by exists f.
Qed.

(** The trie loaded at start-up suggests, for a prefix [p], exactly the
    airports starting with [p] that are the origin or the destination of
    some flight row, each once; so every airport that starts or ends an
    edge of the start-up graph is offered by the airport search. *)
Theorem load_data_trie_suggests (env : Env) (srv : Server) :
  connects env = true →
  let graph := (load_data env srv).1 in
  let trie := (load_data env srv).2 in
  (∀ p, NoDup (get_suggestions trie p)) ∧
  (∀ p x, x ∈ get_suggestions trie p ↔
          ∃ w f, x = Some w ∧ f ∈ flights (committed srv) ∧
                 (origin f = w ∨ destination f = w) ∧ String.prefix p w = true) ∧
  (∀ a b, edge graph a b →
          Some a ∈ get_suggestions trie EmptyString ∧
          Some b ∈ get_suggestions trie EmptyString).
Proof.
  intros Hconn graph trie. subst graph trie. unfold load_data. simpl.
  pose proof (build_airport_trie_holds (fetch_all_airports_from_db env srv)) as Hholds.
  assert (∀ p x, x ∈ get_suggestions
                       (build_airport_trie (fetch_all_airports_from_db env srv)) p ↔
          ∃ w f, x = Some w ∧ f ∈ flights (committed srv) ∧
                 (origin f = w ∨ destination f = w) ∧ String.prefix p w = true)
    as Hsugg.
  { intros p x. destruct (get_suggestions_holds _ _ p Hholds) as [_ ->]. split.
    - intros (w & -> & Hw & Hp).
      apply fetch_all_airports_elem in Hw as (f & Hf & Hor); [|done].
      by exists w, f.
    - intros (w & f & -> & Hf & Hor & Hp). exists w. split_and!; [done| |done].
      apply fetch_all_airports_elem; [done|]. by exists f. }
  split_and!; [|exact Hsugg|].
  - intros p. by destruct (get_suggestions_holds _ _ p Hholds) as [? _].
  - intros a b Hab. apply build_graph_edge, fetch_all_routes_elem in Hab
      as (f & Hf & <- & <- & _); [|done].
    split; apply Hsugg; eexists _, f; split_and!; eauto; apply prefix_append;
      by eexists.
Qed.

Lemma load_data_trie_suggests_witness :
  let srv := mkServer (mkTables [mkFlight 1 "DEL" "BOM" 100 9;
                                 mkFlight 2 "BOM" "DXB" 50 0] [] [] [] []) 1 1 in
  Some "DEL"%string ∈ get_suggestions (load_data healthy srv).2 EmptyString ∧
  Some "BOM"%string ∈ get_suggestions (load_data healthy srv).2 EmptyString.
Proof.
  intros srv.
  destruct (load_data_trie_suggests healthy srv eq_refl) as (_ & _ & Hedge).
  apply (Hedge "DEL"%string "BOM"%string). vm_compute. repeat constructor.
Defined.

(* --------------------------------------------------------------------- *)
(** ** Routes found at start-up state resolve *)

Lemma route_pairs_cons_Forall (P : string * string → Prop) (u : string)
    (p : list string) :
  Forall P (route_pairs (u :: p)) → Forall P (route_pairs p).
Proof.
  destruct p as [|b p]; [by constructor|].
  change (route_pairs (u :: b :: p)) with ((u, b) :: route_pairs (b :: p)).
  by intros [_ ?]%Forall_cons.
Qed.

Lemma route_pairs_drop_Forall (P : string * string → Prop) (l1 l2 : list string) :
  Forall P (route_pairs (l1 ++ l2)) → Forall P (route_pairs l2).
Proof.
  induction l1 as [|a l1 IH]; [done|]. intros H. apply IH.
  by apply route_pairs_cons_Forall in H.
Qed.

(** A route along edges is a walk with one edge per step. *)
Lemma route_walk (graph : gmap string (list string)) (p : list string)
    (u v : string) :
  Forall (fun e => edge graph e.1 e.2) (route_pairs (u :: p)) →
  last (u :: p) = Some v → walk (edge graph) u (length p) v.
Proof.
  revert u. induction p as [|b p IH]; intros u Hedges Hlast.
  - injection Hlast as ->. constructor.
  - change (route_pairs (u :: b :: p)) with ((u, b) :: route_pairs (b :: p)) in Hedges.
    apply Forall_cons in Hedges as [Hub Hedges]. simpl.
    eapply walk_step; [exact Hub|]. apply IH; [done|].
    by rewrite last_cons_cons in Hlast.
Qed.

(** A route with the fewest edges visits no airport twice. *)
Lemma shortest_route_NoDup (graph : gmap string (list string)) (p : list string)
    (u v : string) :
  Forall (fun e => edge graph e.1 e.2) (route_pairs (u :: p)) →
  last (u :: p) = Some v →
  (∀ k, walk (edge graph) u k v → (length p ≤ k)%nat) →
  NoDup (u :: p).
Proof.
  revert u. induction p as [|b p IH]; intros u Hedges Hlast Hmin.
  { apply NoDup_singleton. }
  apply NoDup_cons. split.
  - intros Hin. apply list_elem_of_split in Hin as (l1 & l2 & Heq).
    assert (walk (edge graph) u (length l2) v) as Hw.
    { apply route_walk.
      - apply (route_pairs_drop_Forall _ (u :: l1)). simpl. by rewrite <- Heq.
      - rewrite <- Hlast, Heq.
        change (u :: l1 ++ u :: l2) with ((u :: l1) ++ u :: l2).
        by rewrite last_app_cons. }
    apply Hmin in Hw. rewrite Heq, length_app in Hw. simpl in Hw. lia.
  - change (route_pairs (u :: b :: p)) with ((u, b) :: route_pairs (b :: p)) in Hedges.
    apply Forall_cons in Hedges as [Hub Hedges].
    apply IH; [done|by rewrite last_cons_cons in Hlast|].
    intros k Hk. assert (walk (edge graph) u (S k) v) as Hw
      by (eapply walk_step; [exact Hub|done]).
    apply Hmin in Hw. simpl in Hw. lia.
Qed.

(** What either search returns is a duplicate-free route along edges. *)
Lemma searched_path_simple (graph : gmap string (list string))
    (start destination : string) (path : list string) :
  bfs_shortest_path graph start destination = Some (Some path) ∨
  dfs_find_a_path graph start destination = Some (Some path) →
  path_to graph start path destination ∧ NoDup path.
Proof.
  intros [Hbfs|Hdfs].
  - destruct (bfs_shortest_path_on_graph graph start destination) as (r & Hr & Hspec).
    rewrite Hbfs in Hr. injection Hr as <-. destruct Hspec as [Hp Hmin].
    split; [done|].
    pose proof (path_to_head _ _ _ _ Hp) as Hhead.
    destruct path as [|u p]; [done|]. injection Hhead as ->.
    apply (shortest_route_NoDup graph p start destination).
    + by eapply path_to_pairs.
    + by eapply path_to_last.
    + intros k Hk. apply Hmin in Hk. simpl in Hk. lia.
  - revert Hdfs. unfold dfs_find_a_path.
    destruct (bool_decide (graph !! start = None)
              || bool_decide (graph !! destination = None)); [done|].
    destruct (dfs_path_loop_spec graph start destination (S (S (edge_count graph)))
                [(start, [start])] ∅) as (r & -> & Hr).
    + apply dfs_inv_start.
    + rewrite unexplored_all. simpl. lia.
    + intros [= ->]. exact Hr.
Qed.

(** Whenever some row of an origin-destination pair has a free seat, the
    first row of that pair has one.  It holds for instance when no two rows
    serve the same pair, or when no row is sold out. *)
Definition first_rows_open (t : Tables) : Prop :=
  ∀ f, f ∈ flights t → 0 < available_seats f →
       leg_open t (origin f, destination f).

Lemma first_leg_exists (t : Tables) (f : Flight) :
  f ∈ flights t →
  ∃ g, first_leg t (origin f) (destination f) = Some g ∧ g ∈ flights t ∧
       origin g = origin f ∧ destination g = destination f.
Proof.
  intros Hf. unfold first_leg.
  destruct (List.filter (is_leg (origin f) (destination f)) (flights t))
    as [|g l] eqn:Hfl.
  - assert (In f (List.filter (is_leg (origin f) (destination f)) (flights t))) as Hin.
    { apply filter_In. split; [by apply list_elem_of_In|].
      unfold is_leg. by rewrite !bool_decide_eq_true_2. }
    rewrite Hfl in Hin. destruct Hin.
  - exists g. split; [done|].
    assert (In g (List.filter (is_leg (origin f) (destination f)) (flights t))) as Hin
      by (rewrite Hfl; by left).
    apply filter_In in Hin as [Hin Hleg]. unfold is_leg in Hleg.
    apply andb_true_iff in Hleg as [Ho Hd].
    apply bool_decide_eq_true in Ho, Hd. split_and!; [by apply list_elem_of_In|done|done].
Qed.

Lemma no_sold_out_first_rows_open (t : Tables) :
  (∀ f, f ∈ flights t → 0 < available_seats f) → first_rows_open t.
Proof.
  intros Hall f Hf _. destruct (first_leg_exists t f Hf) as (g & Hg & Hin & _).
  exists g. split; [done|]. apply Hall in Hin. lia.
Qed.

Lemma NoDup_map_inj {A B : Type} (f : A → B) (l : list A) (x y : A) :
  NoDup (map f l) → x ∈ l → y ∈ l → f x = f y → x = y.
Proof.
  induction l as [|a l IH]; simpl; [by intros _ ?%elem_of_nil|].
  intros [Ha Hnd]%NoDup_cons [->|Hx]%elem_of_cons [->|Hy]%elem_of_cons Heq.
  - done.
  - destruct Ha. rewrite Heq. apply list_elem_of_fmap. by exists y.
  - destruct Ha. rewrite <- Heq. apply list_elem_of_fmap. by exists x.
  - by apply IH.
Qed.

Lemma one_row_per_pair_first_rows_open (t : Tables) :
  NoDup (map (fun f => (origin f, destination f)) (flights t)) → first_rows_open t.
Proof.
  intros Hnd f Hf Hpos. destruct (first_leg_exists t f Hf) as (g & Hg & Hin & Ho & Hd).
  exists g. split; [done|].
  assert (g = f) as ->; [|lia].
  apply (NoDup_map_inj (fun f => (origin f, destination f)) (flights t));
    [done|done|done|]. by rewrite Ho, Hd.
Qed.

(** A route that [bfs_shortest_path] or [dfs_find_a_path] finds in the graph
    loaded from a datastore state resolves against that same state: provided
    the first row of every pair that has a free seat has one, the resolver
    accepts the route, returns one leg per consecutive pair of the route, in
    route order and flying exactly that pair, each with a free seat, and the
    total is the sum of their prices. *)
Theorem found_route_resolves (env : Env) (srv : Server)
    (start goal : string) (path : list string) :
  connects env = true → first_rows_open (committed srv) → start ≠ goal →
  bfs_shortest_path (load_data env srv).1 start goal = Some (Some path) ∨
  dfs_find_a_path (load_data env srv).1 start goal = Some (Some path) →
  let r := get_flight_details_for_route env srv (Some path) in
  r.2 = true ∧
  map (fun f => (origin f, destination f)) r.1.1 = route_pairs path ∧
  Forall (fun f => f ∈ flights (committed srv) ∧ available_seats f ≠ 0) r.1.1 ∧
  r.1.2 = total_of r.1.1.
Proof.
  intros Hconn Hopen Hne Hfound r.
  apply searched_path_simple in Hfound as [Hpath Hnd].
  assert (2 ≤ length path)%nat as Hlen.
  { pose proof (path_to_head _ _ _ _ Hpath) as Hh.
    pose proof (path_to_last _ _ _ _ Hpath) as Hl.
    destruct path as [|a [|b p]]; simpl; [done| |lia].
    injection Hh as ->. injection Hl as ->. done. }
  assert (∀ p, p ∈ route_pairs path → leg_open (committed srv) p) as Hlegs.
  { intros [a b] Hp.
    pose proof (path_to_pairs _ _ _ _ Hpath) as Hedges.
    rewrite Forall_forall in Hedges. apply Hedges in Hp. simpl in Hp.
    unfold load_data in Hp. simpl in Hp.
    apply build_graph_edge, fetch_all_routes_elem in Hp
      as (f & Hf & <- & <- & Hpos); [|done].
    by apply Hopen. }
  destruct (resolver_open_accepts env srv path Hconn Hlen
              (route_pairs_NoDup path Hnd) Hlegs) as (Hok & Hfirst & Htotal).
  fold r in Hok, Hfirst, Htotal.
  split_and!; [done|by eapply first_legs_ends| |done].
  apply Forall_forall. intros f Hf.
  assert (Some f ∈ map (fun p => first_leg (committed srv) p.1 p.2) (route_pairs path))
    as Hin.
  { rewrite <- Hfirst. by apply list_elem_of_fmap_2. }
  apply list_elem_of_fmap in Hin as (p & Hfp & Hp).
  destruct (Hlegs p Hp) as (g & Hg & Hseats). rewrite Hg in Hfp.
  injection Hfp as ->. split; [|done].
  apply first_leg_in in Hg as [Hin _]. by apply list_elem_of_In.
Qed.

Lemma found_route_resolves_witness :
  let srv := mkServer (mkTables [mkFlight 1 "A" "B" 100 9; mkFlight 2 "B" "D" 50 5;
                                 mkFlight 3 "D" "A" 70 1; mkFlight 4 "A" "C" 60 0]
                                [] [] [] []) 1 1 in
  let r := get_flight_details_for_route healthy srv (Some ["A"; "B"; "D"]%string) in
  r.2 = true ∧
  map (fun f => (origin f, destination f)) r.1.1
  = route_pairs ["A"; "B"; "D"]%string ∧
  Forall (fun f => f ∈ flights (committed srv) ∧ available_seats f ≠ 0) r.1.1 ∧
  r.1.2 = total_of r.1.1.
Proof.
  intros srv.
  apply (found_route_resolves healthy srv "A"%string "D"%string
           ["A"; "B"; "D"]%string).
  - reflexivity.
  - apply one_row_per_pair_first_rows_open.
    apply (bool_decide_unpack _). vm_compute. exact I.
  - intros H. inversion H.
  - left. vm_compute. reflexivity.
Defined.

(* --------------------------------------------------------------------- *)
(** ** Inserting into the trie is local *)

(** What [get_suggestions] computes below a node. *)
Definition suggestions_below (n : TrieNode) (p : string) : list (option string) :=
  match descend n p with
  | None => []
  | Some m => collect_all_words m []
  end.

Lemma suggestions_below_new_node (c : ascii) (p : string) :
  suggestions_below new_node (String c p) = [].
Proof. reflexivity. Qed.

Lemma insert_from_frame (n : TrieNode) (rest w p : string) :
  String.prefix p rest = false →
  suggestions_below (insert_from n rest w) p = suggestions_below n p.
Proof.
  revert n rest. induction p as [|c p IH]; intros n rest Hpre.
  { by destruct rest. }
  destruct rest as [|c' rest]; [done|].
  simpl in Hpre. unfold suggestions_below. cbn [insert_from descend children].
  destruct (ascii_dec c c') as [->|Hne].
  - rewrite dict_get_set_eq.
    specialize (IH (default new_node (dict_get c' (children n))) rest Hpre).
    unfold suggestions_below in IH. rewrite IH.
    destruct (dict_get c' (children n)) as [child|]; [done|]. simpl.
    destruct p as [|c0 p]; [by destruct rest|done].
  - rewrite dict_get_set_ne by done. done.
Qed.

(** Inserting a word changes the suggestions only for the prefixes of that
    word: for any trie, and any [p] that is not a prefix of [w], the list
    [get_suggestions] returns for [p] is the same, entry for entry, before
    and after [insert(w)]. *)
Theorem insert_keeps_other_suggestions (t : Trie) (w p : string) :
  String.prefix p w = false →
  get_suggestions (insert t w) p = get_suggestions t p.
Proof.
  intros Hpre. exact (insert_from_frame (root t) w w p Hpre).
Qed.

Lemma insert_keeps_other_suggestions_witness :
  get_suggestions (insert (build_airport_trie ["DEL"; "DXB"; "BOM"]%string)
                          "DOH"%string) "DE"%string
  = [Some "DEL"%string].
Proof.
  rewrite (insert_keeps_other_suggestions
             (build_airport_trie ["DEL"; "DXB"; "BOM"]%string) "DOH" "DE");
    reflexivity.
Defined.

Lemma dict_set_get_id {V : Type} (c : ascii) (v : V) (d : list (ascii * V)) :
  dict_get c d = Some v → dict_set c v d = d.
Proof.
  induction d as [|[c' v'] d IH]; simpl; [done|].
  destruct (decide (c' = c)) as [->|Hne].
  - by intros [= ->].
  - intros H. by rewrite IH.
Qed.

Lemma insert_from_present (n : TrieNode) (rest w : string) :
  ends_at n rest (Some w) → insert_from n rest w = n.
Proof.
  revert n. induction rest as [|c rest IH]; intros n (m & Hd & He & Hw).
  - simpl in Hd. injection Hd as <-. destruct n as [cs e x]. simpl in *.
    by subst.
  - simpl in Hd. cbn [insert_from].
    destruct (dict_get c (children n)) as [child|] eqn:Hc; [|done]. simpl.
    rewrite IH by by exists m.
    rewrite dict_set_get_id by done. by destruct n.
Qed.

(** Inserting a code that was already inserted leaves the trie as it is:
    the trie built from a list of codes is the same, node for node, when a
    code of the list is inserted once more. *)
Theorem insert_existing_code (airports : list string) (w : string) :
  w ∈ airports →
  insert (build_airport_trie airports) w = build_airport_trie airports ∧
  build_airport_trie (airports ++ [w]) = build_airport_trie airports.
Proof.
  intros Hw.
  assert (insert (build_airport_trie airports) w = build_airport_trie airports) as Hid.
  { destruct (build_airport_trie_holds airports) as [_ Hends].
    unfold insert. rewrite insert_from_present; [by destruct (build_airport_trie _)|].
    by apply Hends. }
  split; [done|].
  unfold build_airport_trie in *. rewrite fold_left_app. simpl. exact Hid.
Qed.

Lemma insert_existing_code_witness :
  insert (build_airport_trie ["DEL"; "BOM"]%string) "DEL"
  = build_airport_trie ["DEL"; "BOM"]%string.
Proof.
  apply (insert_existing_code ["DEL"; "BOM"]%string "DEL"%string).
  repeat constructor.
Defined.

(* --------------------------------------------------------------------- *)
(** ** A direct edge is the shortest path *)

(** When the graph has an edge from [start] to a different airport [goal]
    that is itself a key of the graph, [bfs_shortest_path] returns the
    two-airport route [[start; goal]] and nothing longer. *)
Theorem bfs_takes_direct_edge (graph : gmap string (list string))
    (start goal : string) :
  edge graph start goal → start ≠ goal → graph !! goal ≠ None →
  bfs_shortest_path graph start goal = Some (Some [start; goal]).
Proof.
  intros Hedge Hne Hgoal.
  assert (graph !! start ≠ None) as Hstart.
  { intros Hnone. unfold edge, neighbors in Hedge. rewrite Hnone in Hedge.
    by apply elem_of_nil in Hedge. }
  assert (walk (edge graph) start 1 goal) as Hwalk.
  { eapply walk_step; [exact Hedge|constructor]. }
  destruct (bfs_shortest_path_on_graph graph start goal) as (r & -> & Hr).
  destruct r as [p|].
  - destruct Hr as [Hp Hmin]. apply Hmin in Hwalk.
    pose proof (path_to_head _ _ _ _ Hp) as Hh.
    pose proof (path_to_last _ _ _ _ Hp) as Hl.
    destruct p as [|a [|b [|c p]]]; simpl in *; [done| | |lia].
    + injection Hh as ->. injection Hl as ->. done.
    + injection Hh as ->. injection Hl as ->. done.
  - destruct Hr as [Hr|[Hr|Hr]]; [done|done|]. by apply Hr in Hwalk.
Qed.

Lemma bfs_takes_direct_edge_witness :
  bfs_shortest_path
    (build_graph [("A", "B"); ("B", "D"); ("A", "D"); ("D", "A")]%string)
    "A"%string "D"%string
  = Some (Some ["A"; "D"]%string).
Proof.
  apply (bfs_takes_direct_edge
           (build_graph [("A", "B"); ("B", "D"); ("A", "D"); ("D", "A")]%string)
           "A"%string "D"%string).
  - apply build_graph_edge. repeat constructor.
  - intros H. inversion H.
  - apply build_graph_key. exists "A"%string. repeat constructor.
Defined.

(* --------------------------------------------------------------------- *)
(** ** The bookings of a user *)

Section user_bookings_correct.

Context {Date : Type} (booking_date : Booking → Date).

Lemma book_get_set_eq (k : Z) (e : Entry (Date := Date)) book :
  book_get k (book_set k e book) = Some e.
Proof.
  induction book as [|[k' e'] book IH]; simpl.
  - by rewrite decide_True.
  - destruct (decide (k' = k)); simpl.
    + by rewrite decide_True.
    + by rewrite decide_False.
Qed.

Lemma book_get_set_ne (k k' : Z) (e : Entry (Date := Date)) book :
  k ≠ k' → book_get k' (book_set k e book) = book_get k' book.
Proof.
  intros Hne. induction book as [|[k0 e0] book IH]; simpl.
  - by rewrite decide_False.
  - destruct (decide (k0 = k)) as [->|]; simpl.
    + by rewrite !decide_False.
    + by rewrite IH.
Qed.

Lemma book_set_keys (k : Z) (e : Entry (Date := Date)) book :
  map fst (book_set k e book)
  = match book_get k book with
    | Some _ => map fst book
    | None => map fst book ++ [k]
    end.
Proof.
  induction book as [|[k0 e0] book IH]; simpl; [done|].
  destruct (decide (k0 = k)) as [->|]; simpl; [done|].
  rewrite IH. by destruct (book_get k book).
Qed.

Lemma book_get_key (k : Z) (book : list (Z * Entry (Date := Date))) :
  k ∈ map fst book ↔ book_get k book ≠ None.
Proof.
  induction book as [|[k0 e0] book IH]; simpl.
  - split; [by intros ?%elem_of_nil|done].
  - rewrite elem_of_cons, IH. destruct (decide (k0 = k)) as [->|Hne].
    + split; [done|by left].
    + split; [by intros [?|?]|by right].
Qed.

Lemma book_get_values (book : list (Z * Entry (Date := Date))) (e : Entry) :
  NoDup (map fst book) →
  e ∈ map snd book ↔ ∃ k, book_get k book = Some e.
Proof.
  induction book as [|[k0 e0] book IH]; simpl.
  - intros _. split; [by intros ?%elem_of_nil|by intros [? ?]].
  - intros [Hk0 Hnd]%NoDup_cons. rewrite elem_of_cons, (IH Hnd). split.
    + intros [->|[k Hk]].
      * exists k0. by rewrite decide_True.
      * exists k. rewrite decide_False; [done|]. intros ->.
        apply Hk0, book_get_key. by rewrite Hk.
    + intros [k Hk]. destruct (decide (k0 = k)) as [->|Hne].
      * left. by injection Hk.
      * right. by exists k.
Qed.

(** One iteration, as a change of the dictionary. *)
Lemma group_step_get book (r : Booking * Passenger) (k : Z) :
  book_get k (group_step booking_date book r)
  = if decide (booking_id r.1 = k)
    then Some (match book_get k book with
               | Some e => mkEntry (booking_info e)
                                   (entry_passengers e ++ [passenger_info r.2])
               | None => mkEntry (info_of booking_date r.1) [passenger_info r.2]
               end)
    else book_get k book.
Proof.
  unfold group_step. cbv zeta.
  destruct (decide (booking_id r.1 = k)) as [<-|Hne].
  - destruct (book_get (booking_id r.1) book) as [e|] eqn:Hget.
    + rewrite Hget. by rewrite book_get_set_eq.
    + rewrite book_get_set_eq. by rewrite book_get_set_eq.
  - destruct (book_get (booking_id r.1) book) as [e|] eqn:Hget.
    + rewrite Hget. by rewrite book_get_set_ne.
    + rewrite book_get_set_eq. by rewrite !book_get_set_ne.
Qed.

Lemma group_step_keys book (r : Booking * Passenger) :
  map fst (group_step booking_date book r)
  = match book_get (booking_id r.1) book with
    | Some _ => map fst book
    | None => map fst book ++ [booking_id r.1]
    end.
Proof.
  unfold group_step. cbv zeta.
  destruct (book_get (booking_id r.1) book) as [e|] eqn:Hget.
  - rewrite Hget. by rewrite book_set_keys, Hget.
  - rewrite book_get_set_eq. rewrite book_set_keys, book_get_set_eq.
    by rewrite book_set_keys, Hget.
Qed.

(** The whole loop, as a change of the dictionary: the entry of [k] gathers
    the passengers of the rows of booking [k], in row order, under the
    header of the first such row. *)
Lemma group_fold_get (rows : list (Booking * Passenger)) book (k : Z) :
  book_get k (fold_left (group_step booking_date) rows book)
  = match book_get k book,
          List.filter (fun r => bool_decide (booking_id r.1 = k)) rows with
    | Some e, rs =>
        Some (mkEntry (booking_info e)
                      (entry_passengers e ++ map (fun r => passenger_info r.2) rs))
    | None, [] => None
    | None, r :: rs =>
        Some (mkEntry (info_of booking_date r.1)
                      (map (fun r => passenger_info r.2) (r :: rs)))
    end.
Proof.
  revert book. induction rows as [|r rows IH]; intros book; simpl.
  - destruct (book_get k book) as [[i ps]|]; [|done]. simpl. by rewrite app_nil_r.
  - rewrite IH, group_step_get.
    destruct (decide (booking_id r.1 = k)) as [Hk|Hk].
    + rewrite bool_decide_eq_true_2 by done.
      destruct (book_get k book) as [e|]; simpl; [by rewrite <- app_assoc|done].
    + rewrite bool_decide_eq_false_2 by done. done.
Qed.

Lemma group_fold_keys_NoDup (rows : list (Booking * Passenger)) book :
  NoDup (map fst book) →
  NoDup (map fst (fold_left (group_step booking_date) rows book)).
Proof.
  revert book. induction rows as [|r rows IH]; intros book Hnd; simpl; [done|].
  apply IH. rewrite group_step_keys.
  destruct (book_get (booking_id r.1) book) eqn:Hget; [done|].
  apply NoDup_app. split_and!; [done| |apply NoDup_singleton].
  intros k Hk ->%list_elem_of_singleton. apply book_get_key in Hk. done.
Qed.

(** Rows ordered by booking id give keys in strictly ascending order. *)
Lemma group_fold_keys_sorted (rows : list (Booking * Passenger)) book :
  StronglySorted row_le rows →
  StronglySorted Z.lt (map fst book) →
  (∀ k r, k ∈ map fst book → r ∈ rows → k ≤ booking_id r.1) →
  StronglySorted Z.lt (map fst (fold_left (group_step booking_date) rows book)).
Proof.
  revert book. induction rows as [|r rows IH]; intros book Hrows Hbook Hle; simpl;
    [done|].
  apply StronglySorted_inv in Hrows as [Hrows Hr].
  rewrite Forall_forall in Hr.
  apply IH; [done| |]; rewrite group_step_keys;
    destruct (book_get (booking_id r.1) book) eqn:Hget.
  - done.
  - apply StronglySorted_app_2; [|done|repeat constructor].
    intros k1 k2 Hk1 ->%list_elem_of_singleton.
    assert (k1 ≤ booking_id r.1) by (apply Hle; [done|by left]).
    assert (k1 ≠ booking_id r.1); [|lia].
    intros ->. apply book_get_key in Hk1. done.
  - intros k r' Hk Hr'. apply Hle; [done|by right].
  - intros k r' [Hk| ->%list_elem_of_singleton]%elem_of_app Hr'.
    + apply Hle; [done|by right].
    + by apply Hr.
Qed.

(** The passengers' owner: a user row with the booking's user id and the
    email asked for. *)
Definition owned_by (t : Tables) (mail : string) (b : Booking) : Prop :=
  ∃ u, u ∈ users t ∧ user_id u = booking_user_id b ∧ email u = mail.

Lemma user_booking_rows_elem (t : Tables) (mail : string) (b : Booking)
    (p : Passenger) :
  (b, p) ∈ user_booking_rows t mail ↔
  b ∈ bookings t ∧ owned_by t mail b ∧
  p ∈ passengers t ∧ passenger_booking_id p = booking_id b.
Proof.
  unfold user_booking_rows. rewrite merge_sort_Permutation.
  rewrite list_elem_of_In, in_flat_map. split.
  - intros (b' & Hb' & Hin). apply in_flat_map in Hin as (u & Hu & Hin).
    apply in_map_iff in Hin as (p' & [= -> ->] & Hp).
    apply filter_In in Hu as [Hu Hcond]. apply filter_In in Hp as [Hp Hpid].
    apply andb_true_iff in Hcond as [Huid Hmail].
    apply bool_decide_eq_true in Hmail. apply Z.eqb_eq in Huid, Hpid.
    split_and!; [by apply list_elem_of_In| |by apply list_elem_of_In|done].
    exists u. split_and!; [by apply list_elem_of_In|done|done].
  - intros (Hb & (u & Hu & Huid & Hmail) & Hp & Hpid).
    exists b. split; [by apply list_elem_of_In|].
    apply in_flat_map. exists u. split.
    + apply filter_In. split; [by apply list_elem_of_In|].
      apply andb_true_iff. split; [by apply Z.eqb_eq|by apply bool_decide_eq_true].
    + apply in_map_iff. exists p. split; [done|].
      apply filter_In. split; [by apply list_elem_of_In|by apply Z.eqb_eq].
Qed.

Lemma user_booking_rows_sorted (t : Tables) (mail : string) :
  StronglySorted row_le (user_booking_rows t mail).
Proof.
  unfold user_booking_rows. apply StronglySorted_merge_sort.
  - intros x y z. unfold row_le. lia.
  - intros x y. unfold row_le. lia.
Qed.

(** What the grouping loop makes of the rows of a user. *)
Lemma group_rows_elem (rows : list (Booking * Passenger)) (e : Entry) :
  e ∈ group_rows booking_date rows ↔
  ∃ r rs, List.filter (fun r' => bool_decide (booking_id r'.1 = booking_id r.1)) rows
          = r :: rs ∧
          e = mkEntry (info_of booking_date r.1)
                      (map (fun r => passenger_info r.2) (r :: rs)).
Proof.
  unfold group_rows. rewrite book_get_values
    by (apply group_fold_keys_NoDup; constructor).
  split.
  - intros [k Hk]. rewrite group_fold_get in Hk. simpl in Hk.
    destruct (List.filter _ rows) as [|r rs] eqn:Hf; [done|].
    injection Hk as <-. exists r, rs. split; [|done].
    assert (In r (List.filter (fun r0 => bool_decide (booking_id r0.1 = k)) rows))
      as Hin by (rewrite Hf; by left).
    apply filter_In in Hin as [_ Hid]. apply bool_decide_eq_true in Hid.
    by rewrite Hid.
  - intros (r & rs & Hf & ->). exists (booking_id r.1).
    rewrite group_fold_get. simpl. by rewrite Hf.
Qed.

Lemma group_rows_sorted (rows : list (Booking * Passenger)) :
  StronglySorted row_le rows →
  StronglySorted Z.lt
    (map (fun e => info_booking_id (booking_info e)) (group_rows booking_date rows)).
Proof.
  intros Hrows.
  assert (map (fun e => info_booking_id (booking_info e))
              (group_rows booking_date rows)
          = map fst (fold_left (group_step booking_date) rows [])) as ->.
  { unfold group_rows. rewrite map_map. apply map_ext_in.
    intros [k e] Hin. simpl.
    assert (book_get k (fold_left (group_step booking_date) rows []) = Some e) as Hk.
    { clear Hrows. revert Hin.
      pose proof (group_fold_keys_NoDup rows [] (NoDup_nil_2)) as Hnd.
      revert Hnd. generalize (fold_left (group_step booking_date) rows []).
      intros book. induction book as [|[k0 e0] book IH]; simpl; [done|].
      intros [Hk0 Hnd]%NoDup_cons [[= -> ->]|Hin].
      - by rewrite decide_True.
      - rewrite decide_False; [by apply IH|]. intros ->. apply Hk0.
        apply list_elem_of_fmap. exists (k, e). split; [done|by apply list_elem_of_In]. }
    rewrite group_fold_get in Hk. simpl in Hk.
    destruct (List.filter _ rows) as [|r rs] eqn:Hf; [done|].
    injection Hk as <-. simpl.
    assert (In r (List.filter (fun r0 => bool_decide (booking_id r0.1 = k)) rows))
      as Hr by (rewrite Hf; by left).
    apply filter_In in Hr as [_ Hid]. by apply bool_decide_eq_true in Hid. }
  apply group_fold_keys_sorted; [done|constructor|].
  intros k r Hk. by apply elem_of_nil in Hk.
Qed.


Lemma listing_miss (env : Env) (srv : Server)
    (cache : gmap string (list Entry)) (mail : string) :
  connects env = true → cache !! mail = None →
  let out := group_rows booking_date (user_booking_rows (committed srv) mail) in
  get_user_bookings_from_db booking_date env srv cache mail
  = if bool_decide (user_booking_rows (committed srv) mail = [])
    then ((out, "None"%string), cache)
    else ((out, "DB"%string), <[mail := out]> cache).
Proof.
  intros Hconn Hmiss out. subst out. unfold get_user_bookings_from_db.
  rewrite Hmiss, Hconn. cbv zeta.
  destruct (bool_decide (user_booking_rows (committed srv) mail = [])) eqn:Hempty;
    [|done].
  apply bool_decide_eq_true in Hempty. by rewrite Hempty.
Qed.

(** Every entry of the grouped rows of a user is a booking of that user
    with its passengers. *)
Lemma listing_entry (t : Tables) (mail : string) (e : Entry) :
  e ∈ group_rows booking_date (user_booking_rows t mail) →
  ∃ b, b ∈ bookings t ∧ owned_by t mail b ∧
       booking_info e = info_of booking_date b ∧
       entry_passengers e ≠ [] ∧
       ∀ x, x ∈ entry_passengers e ↔
            ∃ p, p ∈ passengers t ∧ passenger_booking_id p = booking_id b ∧
                 x = passenger_info p.
Proof.
  intros ([b p] & rs & Hf & ->)%group_rows_elem. simpl in Hf.
  assert (∀ r, r ∈ (b, p) :: rs ↔
               r ∈ user_booking_rows t mail ∧ booking_id r.1 = booking_id b)
    as Hrows.
  { intros r. rewrite <- Hf, list_elem_of_In, filter_In, <- list_elem_of_In.
    by rewrite bool_decide_eq_true. }
  assert ((b, p) ∈ user_booking_rows t mail) as Hbp.
  { apply Hrows. by left. }
  apply user_booking_rows_elem in Hbp as (Hb & Hown & Hp & Hpid).
  exists b. simpl. split_and!; [done|done|done|done|].
  intros x. split.
  - intros Hx. change (x ∈ map (fun r => passenger_info r.2) ((b, p) :: rs)) in Hx.
    apply list_elem_of_fmap in Hx as ([b' p'] & -> & Hr).
    apply Hrows in Hr as [Hr Hid]. simpl in Hid.
    apply user_booking_rows_elem in Hr as (_ & _ & Hp' & Hpid').
    exists p'. split_and!; [done|by rewrite Hpid'|done].
  - intros (p' & Hp' & Hpid' & ->).
    change (passenger_info p' ∈ map (fun r => passenger_info r.2) ((b, p) :: rs)).
    apply list_elem_of_fmap. exists (b, p'). split; [done|].
    apply Hrows. split; [|done]. by apply user_booking_rows_elem.
Qed.

(** Every booking of the user that has a passenger row is listed. *)
Lemma listing_complete (t : Tables) (mail : string) (b : Booking) (p : Passenger) :
  b ∈ bookings t → owned_by t mail b →
  p ∈ passengers t → passenger_booking_id p = booking_id b →
  ∃ e, e ∈ group_rows booking_date (user_booking_rows t mail) ∧
       info_booking_id (booking_info e) = booking_id b.
Proof.
  intros Hb Hown Hp Hpid.
  assert ((b, p) ∈ user_booking_rows t mail) as Hrow
    by by apply user_booking_rows_elem.
  destruct (List.filter (fun r' => bool_decide (booking_id r'.1 = booking_id b))
                        (user_booking_rows t mail)) as [|r rs] eqn:Hf.
  - assert (In (b, p) (List.filter
                         (fun r' => bool_decide (booking_id r'.1 = booking_id b))
                         (user_booking_rows t mail))) as Hin.
    { apply filter_In. split; [by apply list_elem_of_In|].
      by apply bool_decide_eq_true. }
    rewrite Hf in Hin. destruct Hin.
  - assert (booking_id r.1 = booking_id b) as Hid.
    { assert (In r (List.filter
                      (fun r' => bool_decide (booking_id r'.1 = booking_id b))
                      (user_booking_rows t mail))) as Hin by (rewrite Hf; by left).
      apply filter_In in Hin as [_ Hid]. by apply bool_decide_eq_true in Hid. }
    exists (mkEntry (info_of booking_date r.1)
                    (map (fun r => passenger_info r.2) (r :: rs))).
    split; [|done]. apply group_rows_elem. exists r, rs. split; [|done].
    by rewrite Hid.
Qed.

(** On a cache miss with a connection, the listing holds one entry per
    booking of the user that has a passenger row, in strictly ascending
    order of booking id; an entry carries the header of such a booking and
    exactly the passengers stored under its id.  The list is cached under
    the email when it is not empty, and the source is then ["DB"]; an empty
    list has source ["None"] and leaves the cache as it was. *)
Theorem user_bookings_listing (env : Env) (srv : Server)
    (cache : gmap string (list Entry)) (mail : string) :
  connects env = true → cache !! mail = None →
  let t := committed srv in
  let r := get_user_bookings_from_db booking_date env srv cache mail in
  StronglySorted Z.lt (map (fun e => info_booking_id (booking_info e)) r.1.1) ∧
  (∀ e, e ∈ r.1.1 →
     ∃ b, b ∈ bookings t ∧ owned_by t mail b ∧
          booking_info e = info_of booking_date b ∧
          entry_passengers e ≠ [] ∧
          ∀ x, x ∈ entry_passengers e ↔
               ∃ p, p ∈ passengers t ∧ passenger_booking_id p = booking_id b ∧
                    x = passenger_info p) ∧
  (∀ b p, b ∈ bookings t → owned_by t mail b →
          p ∈ passengers t → passenger_booking_id p = booking_id b →
          ∃ e, e ∈ r.1.1 ∧ info_booking_id (booking_info e) = booking_id b) ∧
  (r.1.1 ≠ [] ∧ r.1.2 = "DB"%string ∧ r.2 = <[mail := r.1.1]> cache ∨
   r.1.1 = [] ∧ r.1.2 = "None"%string ∧ r.2 = cache).
Proof.
  intros Hconn Hmiss t r.
  assert (r.1.1 = group_rows booking_date (user_booking_rows t mail)) as Hout.
  { subst r. rewrite listing_miss by done. by destruct (bool_decide _). }
  rewrite Hout. split_and!.
  - apply group_rows_sorted, user_booking_rows_sorted.
  - intros e He. by apply listing_entry.
  - intros b p. apply listing_complete.
  - subst r. rewrite listing_miss by done. fold t.
    destruct (bool_decide (user_booking_rows t mail = [])) eqn:Hempty.
    + right. apply bool_decide_eq_true in Hempty. by rewrite Hempty.
    + left. simpl. split_and!; [|done|done].
      apply bool_decide_eq_false in Hempty.
      destruct (user_booking_rows t mail) as [|[b p] rows] eqn:Hrows; [done|].
      intros Hnil.
      assert ((b, p) ∈ user_booking_rows t mail) as Hrow by (rewrite Hrows; by left).
      apply user_booking_rows_elem in Hrow as (Hb & Hown & Hp & Hpid).
      destruct (listing_complete t mail b p Hb Hown Hp Hpid) as (e & He & _).
      rewrite Hrows, Hnil in He. by apply elem_of_nil in He.
Qed.


Lemma users_after_owner (us : list User) (fresh : Z) (d : UserDetails) :
  ∃ u, u ∈ users_after us fresh d ∧
       user_id u = user_id_after us fresh d ∧ email u = details_email d.
Proof.
  unfold users_after, user_id_after.
  destruct (List.find (fun u => bool_decide (email u = details_email d)) us)
    as [u|] eqn:Hfind.
  - apply find_some in Hfind as [Hin Hmail].
    exists (mkUser (user_id u) (details_first_name d) (last_name u) (email u)).
    split_and!; [|done|by apply bool_decide_eq_true in Hmail].
    apply list_elem_of_fmap. exists u. rewrite Hmail.
    split; [done|by apply list_elem_of_In].
  - eexists. split_and!; [apply elem_of_app; right; by left|done|done].
Qed.

(** A booking with at least one passenger that went through is listed:
    read afterwards with a connection to the datastore, nothing being cached
    for the email, the user's listing has source ["DB"] and an entry with
    the returned id, the total price given and the status CONFIRMED, whose
    passengers are exactly the passengers given.  The premise on the ids is
    the one the AUTO_INCREMENT counter keeps: the id about to be handed out
    is not in use. *)
Theorem booking_is_listed (env env' : Env) (srv srv' : Server)
    (cache : gmap string (list Entry)) (d : UserDetails)
    (pax : list PassengerDetails) (fids : list Z) (total bid : Z) (msg : string) :
  save_booking env srv d pax fids total = ((Some bid, msg), srv') →
  connects env' = true → cache !! details_email d = None → pax ≠ [] →
  (∀ b, b ∈ bookings (committed srv) → booking_id b ≠ next_booking_id srv) →
  (∀ p, p ∈ passengers (committed srv) →
        passenger_booking_id p ≠ next_booking_id srv) →
  let r := get_user_bookings_from_db booking_date env' srv' cache (details_email d) in
  r.1.2 = "DB"%string ∧
  ∃ e, e ∈ r.1.1 ∧
       info_booking_id (booking_info e) = bid ∧
       info_total_price (booking_info e) = total ∧
       info_status (booking_info e) = CONFIRMED ∧
       ∀ x, x ∈ entry_passengers e ↔
            ∃ p, p ∈ pax ∧
                 x = mkPassengerInfo (pax_first_name p) (pax_last_name p) (pax_age p).
Proof.
  intros Hsave Hconn Hmiss Hpax Hfresh Hfreshp r.
  apply save_booking_success_inv in Hsave as [-> Htab].
  set (t' := committed srv') in *.
  set (b0 := mkBooking (next_booking_id srv)
               (user_id_after (users (committed srv)) (next_user_id srv) d)
               total CONFIRMED (details_travel_purpose d)).
  assert (∀ b, b ∈ bookings t' → booking_id b = next_booking_id srv → b = b0) as Honly.
  { intros b Hb Hid. rewrite Htab in Hb. simpl in Hb.
    apply elem_of_app in Hb as [Hb|Hb%list_elem_of_singleton]; [|done].
    by apply Hfresh in Hb. }
  assert (∀ p, p ∈ passengers t' ∧ passenger_booking_id p = next_booking_id srv ↔
               ∃ q, q ∈ pax ∧
                    p = mkPassenger (next_booking_id srv) (pax_first_name q)
                                    (pax_last_name q) (pax_age q)) as Hpass.
  { intros p. rewrite Htab. simpl. rewrite elem_of_app. split.
    - intros [[Hp|Hp] Hid]; [by apply Hfreshp in Hp|].
      apply list_elem_of_fmap in Hp as (q & -> & Hq). by exists q.
    - intros (q & Hq & ->). split; [|done]. right.
      apply list_elem_of_fmap. by exists q. }
  assert (b0 ∈ bookings t') as Hb0.
  { rewrite Htab. simpl. apply elem_of_app. right. by left. }
  assert (owned_by t' (details_email d) b0) as Hown.
  { rewrite Htab. unfold owned_by. simpl. apply users_after_owner. }
  destruct pax as [|q0 pax0] eqn:Hpaxeq; [done|]. rewrite <- Hpaxeq in *.
  assert (q0 ∈ pax) as Hq0 by (rewrite Hpaxeq; by left).
  destruct (listing_complete t' (details_email d) b0
              (mkPassenger (next_booking_id srv) (pax_first_name q0)
                           (pax_last_name q0) (pax_age q0)))
    as (e & He & Hid); [done|done| |done|].
  { apply (Hpass _). by exists q0. }
  assert (r = ((group_rows booking_date (user_booking_rows t' (details_email d)),
                "DB"%string),
               <[details_email d :=
                   group_rows booking_date (user_booking_rows t' (details_email d))]>
                 cache)) as ->.
  { subst r. rewrite listing_miss by done. fold t'.
    rewrite bool_decide_eq_false_2; [done|]. intros Hnil.
    rewrite Hnil in He. by apply elem_of_nil in He. }
  simpl. split; [done|]. exists e. split; [done|]. split; [done|].
  destruct (listing_entry t' (details_email d) e He)
    as (b & Hb & _ & Hinfo & _ & Hps).
  assert (b = b0) as ->.
  { apply Honly; [done|]. rewrite Hinfo in Hid. done. }
  rewrite Hinfo. simpl. split_and!; [done|done|].
  intros x. rewrite Hps. split.
  - intros (p & Hp & Hpid & ->).
    destruct (proj1 (Hpass p) (conj Hp Hpid)) as (q & Hq & ->). by exists q.
  - intros (q & Hq & ->).
    exists (mkPassenger (next_booking_id srv) (pax_first_name q) (pax_last_name q)
                        (pax_age q)).
    split_and!; [|done|done]. apply (Hpass _). by exists q.
Qed.

(** A listing that was read from the datastore hides what is booked
    afterwards: the next listing for that email comes from the cache, is the
    list read before, and has no entry for the booking made in between,
    whoever made it. *)
Theorem listing_misses_later_booking (env1 env2 env3 : Env) (srv srv' : Server)
    (cache cache1 : gmap string (list Entry)) (mail : string) (out : list Entry)
    (d : UserDetails) (pax : list PassengerDetails) (fids : list Z)
    (total bid : Z) (msg : string) :
  get_user_bookings_from_db booking_date env1 srv cache mail
  = ((out, "DB"%string), cache1) →
  save_booking env2 srv d pax fids total = ((Some bid, msg), srv') →
  (∀ b, b ∈ bookings (committed srv) → booking_id b ≠ next_booking_id srv) →
  get_user_bookings_from_db booking_date env3 srv' cache1 mail
  = ((out, "Cache"%string), cache1) ∧
  bid ∉ map (fun e => info_booking_id (booking_info e)) out.
Proof.
  intros Hlist Hsave Hfresh.
  apply save_booking_success_inv in Hsave as [-> _].
  unfold get_user_bookings_from_db in Hlist.
  destruct (cache !! mail) as [v|] eqn:Hmiss; [by injection Hlist|].
  destruct (connects env1); [|by injection Hlist]. cbv zeta in Hlist.
  destruct (bool_decide (user_booking_rows (committed srv) mail = []));
    [by injection Hlist|].
  injection Hlist as <- <-. split.
  - unfold get_user_bookings_from_db. by rewrite lookup_insert_eq.
  - intros (e & Hid & He)%list_elem_of_fmap.
    apply listing_entry in He as (b & Hb & _ & Hinfo & _).
    rewrite Hinfo in Hid. simpl in Hid. apply (Hfresh b Hb). done.
Qed.

(** After a cancellation that went through, the next listing for the email
    passed to it, when it is made with a connection to the datastore, is
    read from the datastore and not from the cache: its source is ["DB"] or
    ["None"], it reports the booking as CANCELLED, and it still has an entry
    for every booking of the user that has a passenger row. *)
Theorem listing_after_cancel (env env' : Env) (srv srv1 : Server)
    (cache cache1 : gmap string (list Entry)) (mail : string) (bid : Z) :
  cancel_booking_in_db env srv cache bid mail = (true, srv1, cache1) →
  connects env' = true →
  let r := get_user_bookings_from_db booking_date env' srv1 cache1 mail in
  (r.1.2 = "DB"%string ∨ r.1.2 = "None"%string) ∧
  (∀ e, e ∈ r.1.1 → info_booking_id (booking_info e) = bid →
        info_status (booking_info e) = CANCELLED) ∧
  (∀ b p, b ∈ bookings (committed srv) → owned_by (committed srv) mail b →
          p ∈ passengers (committed srv) → passenger_booking_id p = booking_id b →
          ∃ e, e ∈ r.1.1 ∧ info_booking_id (booking_info e) = booking_id b).
Proof.
  intros Hcancel Hconn r.
  pose proof (cancel_success_inv _ _ _ _ _ _ _ Hcancel) as Htab.
  assert (cache1 = delete mail cache) as ->.
  { destruct (cancel_outcomes env srv cache bid mail) as [Hh|(srv2 & Hf & _)].
    - rewrite Hcancel, cancel_healthy in Hh. by injection Hh.
    - rewrite Hcancel in Hf. by injection Hf. }
  assert (delete mail cache !! mail = None) as Hmiss by apply lookup_delete_eq.
  assert (r.1.1 = group_rows booking_date (user_booking_rows (committed srv1) mail))
    as Hout.
  { subst r. rewrite listing_miss by done. by destruct (bool_decide _). }
  split_and!.
  - subst r. rewrite listing_miss by done. destruct (bool_decide _); auto.
  - intros e He Hid. rewrite Hout in He.
    apply listing_entry in He as (b & Hb & _ & Hinfo & _).
    rewrite Hinfo in Hid |- *. simpl in *.
    rewrite Htab in Hb. simpl in Hb.
    apply list_elem_of_fmap in Hb as (b1 & Hb1 & _).
    by eapply cancel_row_status.
  - intros b p Hb (u & Hu & Huid & Hmail) Hp Hpid. rewrite Hout.
    destruct (listing_complete (committed srv1) mail (cancel_row bid b) p)
      as (e & He & Hid).
    + rewrite Htab. simpl. apply list_elem_of_fmap. by exists b.
    + exists u. rewrite Htab. simpl. split_and!; [done| |done].
      unfold cancel_row. by destruct (booking_id b =? bid).
    + by rewrite Htab.
    + unfold cancel_row. by destruct (booking_id b =? bid).
    + exists e. split; [done|]. rewrite Hid.
      unfold cancel_row. by destruct (booking_id b =? bid).
Qed.

End user_bookings_correct.

Lemma user_bookings_listing_witness :
  let srv := mkServer (mkTables [mkFlight 10 "A" "B" 100 5]
                                [mkUser 1 "Ann" "Lee" "ann@example.org";
                                 mkUser 2 "Bo" "Roy" "bo@example.org"]
                                [mkBooking 2 1 150 CONFIRMED None;
                                 mkBooking 1 1 300 CANCELLED None;
                                 mkBooking 3 2 100 CONFIRMED None]
                                [mkPassenger 2 "Ann" "Lee" 30;
                                 mkPassenger 1 "Ann" "Lee" 30;
                                 mkPassenger 3 "Bo" "Roy" 41;
                                 mkPassenger 1 "Cy" "Lee" 7]
                                []) 3 4 in
  map (fun e => info_booking_id (booking_info e))
      (get_user_bookings_from_db (fun _ => tt) healthy srv ∅ "ann@example.org").1.1
  = [1; 2] ∧
  StronglySorted Z.lt
    (map (fun e => info_booking_id (booking_info e))
       (get_user_bookings_from_db (fun _ => tt) healthy srv ∅ "ann@example.org").1.1).
Proof.
  intros srv. split; [reflexivity|].
  destruct (user_bookings_listing (fun _ => tt) healthy srv ∅
              "ann@example.org"%string) as (Hsorted & _).
  - vm_compute. reflexivity.
  - vm_compute. reflexivity.
  - exact Hsorted.
Defined.

Lemma booking_is_listed_witness :
  let srv := mkServer (mkTables [mkFlight 10 "A" "B" 100 5] [] [] [] []) 1 1 in
  let d := mkUserDetails "Ann" "Lee" "ann@example.org" None in
  let pax := [mkPassengerDetails "Ann" "Lee" 30; mkPassengerDetails "Cy" "Lee" 7] in
  let srv' := (save_booking healthy srv d pax [10] 200).2 in
  (get_user_bookings_from_db (fun _ => tt) healthy srv' ∅ "ann@example.org").1.2
  = "DB"%string.
Proof.
  intros srv d pax srv'.
  destruct (booking_is_listed (fun _ => tt) healthy healthy srv srv' ∅ d pax [10] 200
              1 "Booking successful!"%string) as [Hsource _].
  - vm_compute. reflexivity.
  - vm_compute. reflexivity.
  - vm_compute. reflexivity.
  - discriminate.
  - intros b Hb. inversion Hb.
  - intros p Hp. inversion Hp.
  - exact Hsource.
Defined.

Lemma listing_misses_later_booking_witness :
  let srv := mkServer (mkTables [mkFlight 10 "A" "B" 100 5]
                                [mkUser 1 "Ann" "Lee" "ann@example.org"]
                                [mkBooking 1 1 300 CONFIRMED None]
                                [mkPassenger 1 "Ann" "Lee" 30]
                                [mkBookingFlight 1 10 1]) 2 2 in
  let d := mkUserDetails "Ann" "Lee" "ann@example.org" None in
  let pax := [mkPassengerDetails "Ann" "Lee" 30] in
  let first := get_user_bookings_from_db (fun _ => tt) healthy srv ∅
                 "ann@example.org" in
  let srv' := (save_booking healthy srv d pax [10] 100).2 in
  get_user_bookings_from_db (fun _ => tt) healthy srv' first.2 "ann@example.org"
  = ((first.1.1, "Cache"%string), first.2) ∧
  2 ∉ map (fun e => info_booking_id (booking_info e)) first.1.1.
Proof.
  intros srv d pax first srv'.
  apply (listing_misses_later_booking (fun _ => tt) healthy healthy healthy srv srv'
           ∅ first.2 "ann@example.org"%string first.1.1 d pax [10] 100 2
           "Booking successful!"%string).
  - vm_compute. reflexivity.
  - vm_compute. reflexivity.
  - intros b Hb. apply list_elem_of_In in Hb. subst srv. simpl in Hb.
    destruct Hb as [<-|[]]. simpl. lia.
Defined.

Lemma listing_after_cancel_witness :
  let srv := mkServer (mkTables [mkFlight 10 "A" "B" 100 4]
                                [mkUser 1 "Ann" "Lee" "ann@example.org"]
                                [mkBooking 1 1 300 CONFIRMED None]
                                [mkPassenger 1 "Ann" "Lee" 30]
                                [mkBookingFlight 1 10 1]) 2 2 in
  let cache := (get_user_bookings_from_db (fun _ => tt) healthy srv ∅
                  "ann@example.org").2 in
  let after := cancel_booking_in_db healthy srv cache 1 "ann@example.org" in
  let r := get_user_bookings_from_db (fun _ => tt) healthy after.1.2 after.2
             "ann@example.org" in
  Forall (fun e => info_booking_id (booking_info e) = 1 →
                   info_status (booking_info e) = CANCELLED) r.1.1.
Proof.
  intros srv cache after r. apply Forall_forall.
  destruct (listing_after_cancel (fun _ => tt) healthy healthy srv after.1.2
              cache after.2 "ann@example.org"%string 1) as (_ & Hstatus & _).
  - vm_compute. reflexivity.
  - vm_compute. reflexivity.
  - exact Hstatus.
Defined.

(* --------------------------------------------------------------------- *)
(** ** Every state the application reaches keeps its booking ids apart *)

(** The booking ids found in the tables. *)
Definition ids_in_use (t : Tables) : list Z :=
  map booking_id (bookings t) ++ map passenger_booking_id (passengers t)
  ++ map leg_booking_id (booking_flights t).

(** No two rows of [bookings] share an id, and the counter is ahead of every
    id in the tables. *)
Definition store_ok (srv : Server) : Prop :=
  NoDup (map booking_id (bookings (committed srv))) ∧
  ∀ k, k ∈ ids_in_use (committed srv) → k < next_booking_id srv.

(** A call that changes the tables: a booking or a cancellation, each with
    its own behaviour of the datastore. *)
Inductive Request : Type :=
  | Book (env : Env) (d : UserDetails) (pax : list PassengerDetails)
         (fids : list Z) (total : Z)
  | Cancel (env : Env) (bid : Z) (mail : string).

Definition serve (srv : Server) (req : Request) : Server :=
  match req with
  | Book env d pax fids total => (save_booking env srv d pax fids total).2
  | Cancel env bid mail =>
      (cancel_booking_in_db env srv (∅ : gmap string unit) bid mail).1.2
  end.

Lemma store_ok_same_tables (srv srv' : Server) :
  committed srv' = committed srv → next_booking_id srv ≤ next_booking_id srv' →
  store_ok srv → store_ok srv'.
Proof.
  intros Hsame Hgrow [Hnd Hlt]. unfold store_ok. rewrite Hsame.
  split; [done|]. intros k Hk. apply Hlt in Hk. lia.
Qed.

Lemma store_ok_save_booking env srv d pax fids total :
  store_ok srv → store_ok (save_booking env srv d pax fids total).2.
Proof.
  intros Hok.
  pose proof (save_booking_counter env srv d pax fids total) as Hgrow.
  destruct (save_booking_outcomes env srv d pax fids total) as [Heq|[_ Hsame]];
    [|by eapply store_ok_same_tables].
  rewrite Heq in *. clear Heq.
  destruct (forallb (enough (committed srv) (Z.of_nat (length pax))) fids) eqn:Hall.
  - destruct (decide (user_id_after (users (committed srv)) (next_user_id srv) d = 0))
      as [Hz|Hnz].
    + destruct (save_booking_healthy_no_key srv d pax fids total Hall Hz)
        as (msg & counter & Hh).
      rewrite Hh in *. by eapply store_ok_same_tables.
    + rewrite (save_booking_healthy_booked srv d pax fids total Hall Hnz).
      destruct Hok as [Hnd Hlt]. unfold store_ok, ids_in_use in *. simpl.
      rewrite !map_app. simpl. split.
      * apply NoDup_app. split_and!; [done| |apply NoDup_singleton].
        intros k Hk ->%list_elem_of_singleton.
        assert (next_booking_id srv < next_booking_id srv); [|lia].
        apply Hlt. apply elem_of_app. by left.
      * intros k. rewrite !elem_of_app, !map_map. simpl.
        intros [[Hk|Hk]|[[Hk|Hk]|[Hk|Hk]]].
        -- assert (k < next_booking_id srv); [|lia].
           apply Hlt. rewrite !elem_of_app. auto.
        -- apply list_elem_of_singleton in Hk. lia.
        -- assert (k < next_booking_id srv); [|lia].
           apply Hlt. rewrite !elem_of_app. auto.
        -- apply list_elem_of_fmap in Hk as (q & -> & _). lia.
        -- assert (k < next_booking_id srv); [|lia].
           apply Hlt. rewrite !elem_of_app. auto.
        -- apply list_elem_of_fmap in Hk as (q & -> & _). lia.
  - rewrite (save_booking_healthy_refused srv d pax fids total Hall). done.
Qed.

Lemma cancel_row_id (bid : Z) (b : Booking) :
  booking_id (cancel_row bid b) = booking_id b.
Proof. unfold cancel_row. by destruct (booking_id b =? bid). Qed.

Lemma store_ok_cancel {V : Type} env srv (cache : gmap string V) bid mail :
  store_ok srv → store_ok (cancel_booking_in_db env srv cache bid mail).1.2.
Proof.
  intros Hok.
  pose proof (cancel_counter env srv cache bid mail) as Hgrow.
  destruct (cancel_outcomes env srv cache bid mail) as [Heq|(srv' & Heq & Hsame)].
  - rewrite Heq, cancel_healthy. destruct Hok as [Hnd Hlt].
    unfold store_ok, ids_in_use in *. simpl. rewrite map_map.
    rewrite (map_ext (fun b => booking_id (cancel_row bid b)) booking_id)
      by apply cancel_row_id.
    done.
  - rewrite Heq in *. simpl in *. by eapply store_ok_same_tables.
Qed.

(** Booking ids are never reused.  From a datastore whose booking ids are
    distinct and behind the counter (an empty one, for instance), whatever
    bookings and cancellations are made and whatever the datastore does
    during each of them, the ids stay distinct and behind the counter; so an
    id that [save_booking] returns next is in use nowhere in the tables
    before that call. *)
Theorem booking_ids_never_reused (reqs : list Request) (srv : Server) :
  store_ok srv →
  let now := fold_left serve reqs srv in
  store_ok now ∧
  ∀ env d pax fids total bid msg srv',
    save_booking env now d pax fids total = ((Some bid, msg), srv') →
    (bid ∉ ids_in_use (committed now)) ∧
    NoDup (map booking_id (bookings (committed srv'))).
Proof.
  intros Hok now.
  assert (store_ok now) as Hnow.
  { subst now. revert srv Hok. induction reqs as [|req reqs IH]; intros srv Hok;
      [done|].
    simpl. apply IH. destruct req as [env d pax fids total|env bid mail]; simpl.
    - by apply store_ok_save_booking.
    - by apply store_ok_cancel. }
  split; [done|].
  intros env d pax fids total bid msg srv' Hsave. split.
  - apply save_booking_success_inv in Hsave as [-> _].
    intros Hin. apply Hnow in Hin. lia.
  - pose proof (store_ok_save_booking env now d pax fids total Hnow) as [Hnd _].
    by rewrite Hsave in Hnd.
Qed.

Lemma booking_ids_never_reused_witness :
  let srv := mkServer (mkTables [mkFlight 10 "A" "B" 100 5] [] [] [] []) 1 1 in
  let d := mkUserDetails "Ann" "Lee" "ann@example.org" None in
  let pax := [mkPassengerDetails "Ann" "Lee" 30] in
  let now := fold_left serve [Book healthy d pax [10] 100;
                              Cancel healthy 1 "ann@example.org";
                              Book (mkEnv false None) d pax [10] 100] srv in
  (save_booking healthy now d pax [10] 100).1.1 = Some 2 ∧
  2 ∉ ids_in_use (committed now).
Proof.
  intros srv d pax now. split; [vm_compute; reflexivity|].
  destruct (booking_ids_never_reused
              [Book healthy d pax [10] 100; Cancel healthy 1 "ann@example.org";
               Book (mkEnv false None) d pax [10] 100] srv) as [_ Hnew].
  - split; [constructor|]. intros k Hk. inversion Hk.
  - destruct (Hnew healthy d pax [10] 100 2 "Booking successful!"%string
                (save_booking healthy now d pax [10] 100).2) as [Hfresh _].
    + vm_compute. reflexivity.
    + exact Hfresh.
Defined.

(* --------------------------------------------------------------------- *)
(** ** Whatever the purpose, a route is found when there is one *)

(** The routes [find_cheapest_route] records follow edges of the graph. *)
Lemma dfs_along_edges (env : Env) (srv : Server) (graph : gmap string (list string))
    (start goal : string) (max_stops : Z) fuel node path best b' :
  path_to graph start path node →
  (∀ r, best_route best = Some r → path_to graph start r goal) →
  dfs fuel env srv graph goal max_stops node path best = Some b' →
  ∀ r, best_route b' = Some r → path_to graph start r goal.
Proof.
  revert node path best b'.
  induction fuel as [|fuel IH]; intros node path best b' Hpath Hbest; [done|].
  cbn [dfs]. destruct (Z.of_nat (length path) - 1 >? max_stops).
  { by intros [= <-]. }
  destruct (decide (node = goal)) as [->|Hne].
  - destruct (get_flight_details_for_route env srv (Some path)) as [[legs total] ok].
    destruct (ok && below total (best_price best)); intros [= <-]; [|done].
    simpl. by intros r [= <-].
  - assert (∀ nb, nb ∈ neighbors graph node → edge graph node nb) as Hedges by done.
    revert Hedges. generalize (neighbors graph node). intros nbs. revert best Hbest.
    induction nbs as [|nb nbs IHn]; intros best Hbest Hedges; simpl.
    { by intros [= <-]. }
    assert (∀ nb', nb' ∈ nbs → edge graph node nb') as Hrest
      by (intros nb' Hnb'; apply Hedges; by right).
    destruct (decide (nb ∈ path)) as [Hin|Hnin]; [by apply IHn|].
    destruct (dfs fuel env srv graph goal max_stops nb (path ++ [nb]) best)
      as [b1|] eqn:Hrec.
    + apply IHn; [|done]. eapply IH; [|exact Hbest|exact Hrec].
      eapply path_snoc; [exact Hpath|]. apply Hedges. by left.
    + clear. induction nbs as [|? ? IHn]; simpl; [done|apply IHn].
Qed.

Lemma bfs_shortest_path_cases (graph : gmap string (list string))
    (start goal : string) :
  ∃ r, bfs_shortest_path graph start goal = Some r ∧
       match r with
       | Some p => path_to graph start p goal ∧ NoDup p ∧
                   graph !! start ≠ None ∧ graph !! goal ≠ None
       | None => graph !! start = None ∨ graph !! goal = None ∨
                 ∀ k, ¬ walk (edge graph) start k goal
       end.
Proof.
  destruct (bfs_shortest_path_on_graph graph start goal) as (r & Hr & Hspec).
  exists r. split; [done|]. destruct r as [p|]; [|done].
  destruct (searched_path_simple graph start goal p (or_introl Hr)) as [Hp Hnd].
  unfold bfs_shortest_path in Hr.
  destruct (bool_decide (graph !! start = None)) eqn:Hs; [done|].
  destruct (bool_decide (graph !! goal = None)) eqn:Hg; [done|].
  apply bool_decide_eq_false in Hs, Hg. done.
Qed.

(** For every travel purpose the search page gets an answer, and it gets a
    route exactly when the destination can be reached from the origin and
    routes depart from both: the route then starts at the origin, ends at
    the destination, follows edges of the graph and visits no airport
    twice.  For Tourism and Education this holds whatever the resolver says
    about prices and seats, because of the depth-first fallback. *)
Theorem choose_route_finds (env : Env) (srv : Server)
    (graph : gmap string (list string)) (purpose start goal : string) :
  ∃ route algo,
    choose_route env srv graph purpose start goal = Some (route, algo) ∧
    match route with
    | Some p =>
        head p = Some start ∧ last p = Some goal ∧ NoDup p ∧
        Forall (fun e => edge graph e.1 e.2) (route_pairs p)
    | None => True
    end ∧
    (route = None ↔
     graph !! start = None ∨ graph !! goal = None ∨
     ∀ k, ¬ walk (edge graph) start k goal).
Proof.
  assert (∀ r : option (list string),
    match r with
    | Some p => path_to graph start p goal ∧ NoDup p ∧
                graph !! start ≠ None ∧ graph !! goal ≠ None
    | None => graph !! start = None ∨ graph !! goal = None ∨
              ∀ k, ¬ walk (edge graph) start k goal
    end →
    match r with
    | Some p =>
        head p = Some start ∧ last p = Some goal ∧ NoDup p ∧
        Forall (fun e => edge graph e.1 e.2) (route_pairs p)
    | None => True
    end ∧
    (r = None ↔
     graph !! start = None ∨ graph !! goal = None ∨
     ∀ k, ¬ walk (edge graph) start k goal)) as Hcases.
  { intros [p|] Hr.
    - destruct Hr as (Hp & Hnd & Hs & Hg). split.
      + split_and!; [by eapply path_to_head|by eapply path_to_last|done|].
        by eapply path_to_pairs.
      + split; [done|]. intros [Hno|[Hno|Hno]]; [done|done|].
        destruct (path_to_walk _ _ _ _ Hp) as (m & _ & Hw). by apply Hno in Hw.
    - split; [done|]. by split. }
  unfold choose_route.
  destruct (bool_decide (purpose ∈ ["Business"; "Family Visit"]%string)).
  { destruct (bfs_shortest_path_cases graph start goal) as (r & -> & Hr).
    eexists r, _. split; [done|]. by apply Hcases. }
  destruct (bool_decide (purpose ∈ ["Tourism"; "Education"]%string)).
  - assert (∃ res, find_cheapest_route env srv graph start goal default_max_stops
                   = Some res ∧
                   ∀ v r, res.1 = Some (v :: r) →
                          path_to graph start (v :: r) goal ∧ NoDup (v :: r) ∧
                          graph !! start ≠ None ∧ graph !! goal ≠ None)
      as (res & Hres & Hroute).
    { unfold find_cheapest_route.
      destruct (bool_decide (graph !! start = None)) eqn:Hs.
      { eexists. split; [done|]. done. }
      destruct (bool_decide (graph !! goal = None)) eqn:Hg.
      { eexists. split; [done|]. done. }
      apply bool_decide_eq_false in Hs, Hg. cbn [orb].
      destruct (dfs_returns env srv graph goal default_max_stops
                  (Z.to_nat default_max_stops + 2) start [start]
                  (mkBest None Infinity)) as [best Hdfs];
        [vm_compute; lia|vm_compute; discriminate|].
      rewrite Hdfs.
      assert (sound_best env srv start goal default_max_stops best) as Hsound.
      { eapply dfs_sound; [| | | |exact Hdfs]; try done. apply NoDup_singleton. }
      assert (∀ r, best_route best = Some r → path_to graph start r goal) as Halong.
      { eapply dfs_along_edges; [apply path_start| |exact Hdfs]. by intros r. }
      unfold sound_best in Hsound.
      destruct (best_route best) as [[|v r]|]; [by eexists|
        |by eexists].
      eexists. split; [done|]. simpl. intros v' r' [= <- <-].
      destruct Hsound as (Hnd & _). split_and!; [by apply Halong|done|done|done]. }
    rewrite Hres. destruct res as [[[|v r]|] price].
    + destruct (dfs_find_a_path_cases graph start goal) as (r & -> & Hr).
      eexists r, _. split; [done|]. by apply Hcases.
    + eexists (Some (v :: r)), _. split; [done|].
      apply (Hcases (Some (v :: r))). by apply Hroute.
    + destruct (dfs_find_a_path_cases graph start goal) as (r & -> & Hr).
      eexists r, _. split; [done|]. by apply Hcases.
  - destruct (bfs_shortest_path_cases graph start goal) as (r & -> & Hr).
    eexists r, _. split; [done|]. by apply Hcases.
Qed.
